(** * A shallow embedding of cache.cc: the sharded LRU cache

    The development follows the source file top-down: the [Hash] function,
    the [LRUHandle] entry, the [HandleTable], one [LRUCacheImpl] shard and
    the [ShardedLRUCache] in front of sixteen shards.

    Conventions.
    - [uint32_t] and [size_t]/[uint64_t] values are [Z] with the wrap-around
      written out ([wrap32], [wrap64]).
    - A [const char*] argument is the list of bytes found at that address;
      the C string it denotes ends at the first NUL byte (or at the end of
      the list, which stands for the terminator).
    - An [LRUHandle*] is an address ([ptr]); [NULL] is [None].  Entries live
      in a heap ([gmap ptr LRUHandle]); [malloc] hands out fresh addresses
      and [free] removes the entry.
    - The links [next_hash], [next] and [prev] are represented by the order
      of the bucket chains and of the recency list.
    - A deleter is a function pointer; calling it is recorded in a log.
    - An operation returns [None] where the C program has no defined result
      (a dangling pointer is dereferenced, an [assert] fails, a loop does not
      terminate, a write leaves its block). *)

From Stdlib Require Import ZArith Lia List.
From Stdlib.Strings Require Import Byte.
From stdpp Require Import base option list gmap.

Local Open Scope Z_scope.

(** * Part I: the program *)

(** ** Machine integers *)

Definition wrap32 (z : Z) : Z := z mod 2 ^ 32.
Definition wrap64 (z : Z) : Z := z mod 2 ^ 64.

(** ** Bytes and C strings *)

Definition uchar (b : byte) : Z := Z.of_N (Byte.to_N b).

Definition is_nul (b : byte) : bool := Byte.eqb b x00.

(** The bytes of the C string stored in a buffer: everything before the
    first NUL. *)
Fixpoint cstr (s : list byte) : list byte :=
  match s with
  | [] => []
  | b :: r => if is_nul b then [] else b :: cstr r
  end.

Definition strlen (s : list byte) : Z := Z.of_nat (length (cstr s)).

(** [strcpy] writes the bytes up to the terminator. *)
Definition strcpy (s : list byte) : list byte := cstr s.

Fixpoint strcmp (a b : list byte) : Z :=
  match a, b with
  | [], [] => 0
  | [], y :: _ => 0 - uchar y
  | x :: _, [] => uchar x - 0
  | x :: a', y :: b' =>
      if Byte.eqb x y
      then (if is_nul x then 0 else strcmp a' b')
      else uchar x - uchar y
  end.

(** ** Hash *)

Definition Hash_m : Z := 0xc6a4a793.
Definition Hash_r : Z := 24.

(** [memcpy(&w, data, 4)] on a little-endian host (DecodeFixed32). *)
Definition DecodeFixed32 (b0 b1 b2 b3 : byte) : Z :=
  Z.lor (uchar b0)
    (Z.lor (Z.shiftl (uchar b1) 8)
       (Z.lor (Z.shiftl (uchar b2) 16) (Z.shiftl (uchar b3) 24))).

Section HASH.
(** Whether plain [char] is signed is left to the C implementation. *)
Variable char_is_signed : bool.

(** The value of [data[i]] after integer promotion. *)
Definition char_val (b : byte) : Z :=
  if char_is_signed && (128 <=? uchar b) then uchar b - 256 else uchar b.

(** The [while (data + 4 <= limit)] loop: returns [h] and the bytes left. *)
Fixpoint Hash_loop (data : list byte) (h : Z) : Z * list byte :=
  match data with
  | b0 :: b1 :: b2 :: b3 :: rest =>
      let w := DecodeFixed32 b0 b1 b2 b3 in
      let h := wrap32 (h + w) in
      let h := wrap32 (h * Hash_m) in
      let h := Z.lxor h (Z.shiftr h 16) in
      Hash_loop rest h
  | _ => (h, data)
  end.

(** The [switch (limit - data)] with its fall-through cases. *)
Definition Hash_case1 (c0 : byte) (h : Z) : Z :=
  let h := wrap32 (h + char_val c0) in
  let h := wrap32 (h * Hash_m) in
  Z.lxor h (Z.shiftr h Hash_r).

Definition Hash_case2 (c0 c1 : byte) (h : Z) : Z :=
  Hash_case1 c0 (wrap32 (h + Z.shiftl (char_val c1) 8)).

Definition Hash_case3 (c0 c1 c2 : byte) (h : Z) : Z :=
  Hash_case2 c0 c1 (wrap32 (h + Z.shiftl (char_val c2) 16)).

Definition Hash_switch (rest : list byte) (h : Z) : Z :=
  match rest with
  | [c0; c1; c2] => Hash_case3 c0 c1 c2 h
  | [c0; c1] => Hash_case2 c0 c1 h
  | [c0] => Hash_case1 c0 h
  | _ => h
  end.

Definition Hash (data : list byte) (n : Z) (seed : Z) : Z :=
  let h := wrap32 (Z.lxor seed (wrap64 (n * Hash_m))) in
  let '(h, rest) := Hash_loop (take (Z.to_nat n) data) h in
  Hash_switch rest h.

(** *** The algorithm, described

    The same computation as a description reads it: the input is split into
    4-byte words and a tail of 0 to 3 bytes, a mixing step is folded over
    the words, and the tail is folded in by a final step. *)

Fixpoint words_of (data : list byte) : list Z :=
  match data with
  | b0 :: b1 :: b2 :: b3 :: rest => DecodeFixed32 b0 b1 b2 b3 :: words_of rest
  | _ => []
  end.

Fixpoint tail_of (data : list byte) : list byte :=
  match data with
  | _ :: _ :: _ :: _ :: rest => tail_of rest
  | _ => data
  end.

(** One word: add, multiply, fold the high bits down by [shift]. *)
Definition mix_word (shift : Z) (h w : Z) : Z :=
  let h := wrap32 (wrap32 (h + w) * Hash_m) in
  Z.lxor h (Z.shiftr h shift).

(** The tail bytes accumulated into one addend, little-endian style: byte
    [i] of the tail at bit [8 * i], each byte with the value it has as a
    plain [char] (negative above 127 where [char] is signed). *)
Fixpoint tail_sum (i : Z) (t : list byte) : Z :=
  match t with
  | [] => 0
  | c :: t' => Z.shiftl (char_val c) (8 * i) + tail_sum (i + 1) t'
  end.

(** The same big-endian style: the first byte of the tail highest. *)
Definition tail_sum_be (t : list byte) : Z := tail_sum 0 (rev t).

Definition mix_tail (big_endian : bool) (t : list byte) (h : Z) : Z :=
  let s := if big_endian then tail_sum_be t else tail_sum 0 t in
  let h := wrap32 (wrap32 (h + s) * Hash_m) in
  Z.lxor h (Z.shiftr h 24).

(** [shift] is the shift of the per-word step; [final_on_empty] says whether
    the final multiply and shift are also applied when the tail is empty;
    [big_endian] is the order in which the tail bytes are accumulated. *)
Definition Hash_described (shift : Z) (final_on_empty big_endian : bool)
    (data : list byte) (seed : Z) : Z :=
  let h0 := wrap32 (Z.lxor seed (wrap64 (Z.of_nat (length data) * Hash_m))) in
  let h := fold_left (mix_word shift) (words_of data) h0 in
  match tail_of data with
  | [] => if final_on_empty then mix_tail big_endian [] h else h
  | t => mix_tail big_endian t h
  end.

End HASH.

(** ** Entries and memory *)

Abbreviation ptr := nat (only parsing).

(** [struct LRUHandle], without its three link fields. *)
Record LRUHandle := mkLRUHandle {
  value : Z;              (* void* value *)
  deleter : Z;            (* address of the deleter function *)
  charge : Z;             (* size_t *)
  key_length : Z;         (* size_t *)
  refs : Z;               (* uint32_t *)
  hash : Z;               (* uint32_t *)
  key_data : list byte    (* the stored C string, without its terminator *)
}.

Definition key (e : LRUHandle) : list byte := key_data e.

Definition set_refs (r : Z) (e : LRUHandle) : LRUHandle :=
  mkLRUHandle (value e) (deleter e) (charge e) (key_length e) r (hash e) (key_data e).

(** One call [( *e->deleter)(e->key(), e->value)]; [call_entry] remembers for
    which entry it was made. *)
Record DeleterCall := mkCall {
  call_entry : ptr;
  call_deleter : Z;
  call_key : list byte;
  call_value : Z
}.

Record Mem := mkMem {
  heap : gmap ptr LRUHandle;   (* the entries that are allocated *)
  brk : ptr;                   (* the next address [malloc] returns *)
  deleted : list DeleterCall   (* the deleter calls made so far, oldest first *)
}.

Definition Mem_empty : Mem := mkMem ∅ 0%nat [].

Definition malloc (m : Mem) (e : LRUHandle) : Mem * ptr :=
  (mkMem (<[brk m := e]> (heap m)) (S (brk m)) (deleted m), brk m).

Definition store (m : Mem) (p : ptr) (e : LRUHandle) : Mem :=
  mkMem (<[p := e]> (heap m)) (brk m) (deleted m).

Definition call_deleter_of (p : ptr) (e : LRUHandle) : DeleterCall :=
  mkCall p (deleter e) (key e) (value e).

(** [( *e->deleter)(e->key(), e->value); free(e);] *)
Definition delete_and_free (m : Mem) (p : ptr) (e : LRUHandle) : Mem :=
  mkMem (delete p (heap m)) (brk m) (deleted m ++ [call_deleter_of p e]).

(** ** HandleTable *)

Record HandleTable := mkTable {
  length_ : Z;                 (* uint32_t *)
  elems_ : Z;                  (* uint32_t *)
  list_ : list (list ptr)      (* the buckets, each a chain in [next_hash] order *)
}.

Module HT.

(** The test that ends the walk in [FindPointer]. *)
Definition matches (e : LRUHandle) (k : list byte) (hsh : Z) : bool :=
  (hash e =? hsh) && (strcmp k (key e) =? 0).

(** Walk a chain: the index of the first matching entry, or the length of
    the chain (the trailing slot). *)
Fixpoint chain_find (hp : gmap ptr LRUHandle) (k : list byte) (hsh : Z)
    (chain : list ptr) : option nat :=
  match chain with
  | [] => Some 0%nat
  | p :: rest =>
      e ← hp !! p;
      if matches e k hsh then Some 0%nat
      else S <$> chain_find hp k hsh rest
  end.

Definition bucket (len : Z) (hsh : Z) : nat :=
  Z.to_nat (Z.land hsh (wrap32 (len - 1))).

(** A slot is a bucket index and a position in that bucket's chain. *)
Definition FindPointer (hp : gmap ptr LRUHandle) (t : HandleTable)
    (k : list byte) (hsh : Z) : option (nat * nat) :=
  let i := bucket (length_ t) hsh in
  chain ← list_ t !! i;
  j ← chain_find hp k hsh chain;
  Some (i, j).

(** [*ptr] for a slot; [None] is [NULL]. *)
Definition load (t : HandleTable) (slot : nat * nat) : option ptr :=
  chain ← list_ t !! slot.1; chain !! slot.2.

Definition Lookup (hp : gmap ptr LRUHandle) (t : HandleTable)
    (k : list byte) (hsh : Z) : option (option ptr) :=
  slot ← FindPointer hp t k hsh;
  Some (load t slot).

(** [while (new_length < elems_) new_length *= 2;]  After 30 doublings the
    32-bit [new_length] is 0 and stays 0, so 32 turns decide the loop: running
    out of [fuel] stands for the loop that never ends. *)
Fixpoint Resize_length (fuel : nat) (new_length elems : Z) : option Z :=
  if new_length <? elems then
    match fuel with
    | O => None
    | S fuel' => Resize_length fuel' (wrap32 (new_length * 2)) elems
    end
  else Some new_length.

(** The inner [while (h != NULL)] loop over one old chain. *)
Fixpoint Resize_chain (hp : gmap ptr LRUHandle) (new_length : Z)
    (chain : list ptr) (new_list : list (list ptr)) (count : Z)
    : option (list (list ptr) * Z) :=
  match chain with
  | [] => Some (new_list, count)
  | h :: next =>
      e ← hp !! h;
      let i := bucket new_length (hash e) in
      c ← new_list !! i;
      Resize_chain hp new_length next (<[i := h :: c]> new_list)
        (wrap32 (count + 1))
  end.

(** The outer [for] loop over the old buckets. *)
Fixpoint Resize_buckets (hp : gmap ptr LRUHandle) (new_length : Z)
    (buckets : list (list ptr)) (new_list : list (list ptr)) (count : Z)
    : option (list (list ptr) * Z) :=
  match buckets with
  | [] => Some (new_list, count)
  | chain :: bs =>
      '(nl, cnt) ← Resize_chain hp new_length chain new_list count;
      Resize_buckets hp new_length bs nl cnt
  end.

Definition Resize (hp : gmap ptr LRUHandle) (t : HandleTable)
    : option HandleTable :=
  new_length ← Resize_length 32 4 (elems_ t);
  let new_list := replicate (Z.to_nat new_length) [] in
  '(nl, count) ← Resize_buckets hp new_length
                   (take (Z.to_nat (length_ t)) (list_ t)) new_list 0;
  if elems_ t =? count                      (* assert(elems_ == count) *)
  then Some (mkTable new_length (elems_ t) nl)
  else None.

(** The constructor: [length_(0), elems_(0), list_(NULL)], then [Resize()]. *)
Definition new : option HandleTable := Resize ∅ (mkTable 0 0 []).

Definition Insert (hp : gmap ptr LRUHandle) (t : HandleTable) (h : ptr)
    : option (HandleTable * option ptr) :=
  e ← hp !! h;
  slot ← FindPointer hp t (key e) (hash e);
  chain ← list_ t !! slot.1;
  let old := chain !! slot.2 in
  (* h->next_hash = old's successor; *ptr = h *)
  let chain' := take slot.2 chain ++ h :: drop (S slot.2) chain in
  let t1 := mkTable (length_ t) (elems_ t) (<[slot.1 := chain']> (list_ t)) in
  match old with
  | None =>
      let t2 := mkTable (length_ t1) (wrap32 (elems_ t1 + 1)) (list_ t1) in
      if length_ t2 <? elems_ t2
      then t3 ← Resize hp t2; Some (t3, None)
      else Some (t2, None)
  | Some o => Some (t1, Some o)
  end.

Definition Remove (hp : gmap ptr LRUHandle) (t : HandleTable)
    (k : list byte) (hsh : Z) : option (HandleTable * option ptr) :=
  slot ← FindPointer hp t k hsh;
  chain ← list_ t !! slot.1;
  match chain !! slot.2 with
  | Some result =>
      Some (mkTable (length_ t) (wrap32 (elems_ t - 1))
              (<[slot.1 := delete slot.2 chain]> (list_ t)),
            Some result)
  | None => Some (t, None)
  end.

End HT.

(** ** LRUCacheImpl: one shard *)

Record LRUCacheImpl := mkImpl {
  capacity_ : Z;          (* size_t *)
  usage_ : Z;             (* size_t *)
  lru_ : list ptr;        (* the recency list: lru_.next first, lru_.prev last *)
  table_ : HandleTable
}.

Module Impl.

Definition set_usage (u : Z) (c : LRUCacheImpl) : LRUCacheImpl :=
  mkImpl (capacity_ c) u (lru_ c) (table_ c).
Definition set_lru (l : list ptr) (c : LRUCacheImpl) : LRUCacheImpl :=
  mkImpl (capacity_ c) (usage_ c) l (table_ c).
Definition set_table (t : HandleTable) (c : LRUCacheImpl) : LRUCacheImpl :=
  mkImpl (capacity_ c) (usage_ c) (lru_ c) t.

(** The constructor leaves [capacity_] to [SetCapacity]. *)
Definition new (capacity : Z) : option LRUCacheImpl :=
  t ← HT.new; Some (mkImpl capacity 0 [] t).

Definition SetCapacity (capacity : Z) (c : LRUCacheImpl) : LRUCacheImpl :=
  mkImpl capacity (usage_ c) (lru_ c) (table_ c).

Definition Unref (m : Mem) (c : LRUCacheImpl) (e : ptr)
    : option (Mem * LRUCacheImpl) :=
  h ← heap m !! e;
  if 0 <? refs h then                               (* assert(e->refs > 0) *)
    let r := wrap32 (refs h - 1) in
    if r <=? 0 then
      Some (delete_and_free m e h,
            set_usage (wrap64 (usage_ c - charge h)) c)
    else Some (store m e (set_refs r h), c)
  else None.

(** Unlink [e] from a list it is a member of. *)
Fixpoint unlink (e : ptr) (l : list ptr) : option (list ptr) :=
  match l with
  | [] => None
  | x :: r => if decide (x = e) then Some r else cons x <$> unlink e r
  end.

Definition LRU_Remove (c : LRUCacheImpl) (e : ptr) : option LRUCacheImpl :=
  l ← unlink e (lru_ c); Some (set_lru l c).

Definition LRU_Append (c : LRUCacheImpl) (e : ptr) : LRUCacheImpl :=
  set_lru (lru_ c ++ [e]) c.

Definition Lookup (m : Mem) (c : LRUCacheImpl) (k : list byte) (hsh : Z)
    : option (Mem * LRUCacheImpl * option ptr) :=
  r ← HT.Lookup (heap m) (table_ c) k hsh;
  match r with
  | Some e =>
      h ← heap m !! e;
      let m1 := store m e (set_refs (wrap32 (refs h + 1)) h) in
      c1 ← LRU_Remove c e;
      Some (m1, LRU_Append c1 e, Some e)
  | None => Some (m, c, None)
  end.

Definition Release (m : Mem) (c : LRUCacheImpl) (handle : ptr)
    : option (Mem * LRUCacheImpl) :=
  Unref m c handle.

(** [int keyLen = strlen(key)] stored back into a [size_t]. *)
Definition int_of (z : Z) : Z := (z + 2 ^ 31) mod 2 ^ 32 - 2 ^ 31.

(** One turn of the eviction loop for the oldest entry [old]. *)
Definition evict_one (m : Mem) (c : LRUCacheImpl) (old : ptr)
    : option (Mem * LRUCacheImpl) :=
  c1 ← LRU_Remove c old;
  h ← heap m !! old;
  '(t, _) ← HT.Remove (heap m) (table_ c1) (key h) (hash h);
  Unref m (set_table t c1) old.

(** [while (usage_ > capacity_ && lru_.next != &lru_)]; the first argument
    is the recency list as the loop finds it, whose head is [lru_.next]. *)
Fixpoint evict (l : list ptr) (m : Mem) (c : LRUCacheImpl)
    : option (Mem * LRUCacheImpl) :=
  match l with
  | [] => Some (m, c)
  | old :: rest =>
      if capacity_ c <? usage_ c then
        '(m1, c1) ← evict_one m c old;
        evict rest m1 c1
      else Some (m, c)
  end.

(** [Insert] up to its eviction loop: allocate and fill the entry, append it
    to the recency list, add its charge, chain it in the table and let go of
    the entry it displaced there.

    The block is sized from [int keyLen], and [strcpy] then writes the
    [strlen(key) + 1] bytes of the key into it.  A length of 2^31 or more
    does not fit [int]: [keyLen] is then at least 2^32 below the length, so
    the block, if [malloc] returns one, is too small and [strcpy] writes
    past its end; with a negative [keyLen] the size asked for wraps to more
    than the address space and the fields are written through the NULL that
    the unchecked [malloc] returns.  The call has a defined result only when
    [keyLen] is the length of the key. *)
Definition Insert_link (m : Mem) (c : LRUCacheImpl) (k : list byte) (hsh : Z)
    (v : Z) (chg : Z) (del : Z) : option (Mem * LRUCacheImpl * ptr) :=
  let keyLen := int_of (strlen k) in
  if keyLen =? strlen k then
    let '(m1, e) :=
      malloc m (mkLRUHandle v del chg (wrap64 keyLen) 2 hsh (strcpy k)) in
    let c1 := LRU_Append c e in
    let c2 := set_usage (wrap64 (usage_ c1 + chg)) c1 in
    '(t, old) ← HT.Insert (heap m1) (table_ c2) e;
    let c3 := set_table t c2 in
    '(m4, c4) ← match old with
                | Some o => c' ← LRU_Remove c3 o; Unref m1 c' o
                | None => Some (m1, c3)
                end;
    Some (m4, c4, e)
  else None.

Definition Insert (m : Mem) (c : LRUCacheImpl) (k : list byte) (hsh : Z)
    (v : Z) (chg : Z) (del : Z) : option (Mem * LRUCacheImpl * ptr) :=
  '(m4, c4, e) ← Insert_link m c k hsh v chg del;
  '(m5, c5) ← evict (lru_ c4) m4 c4;
  Some (m5, c5, e).

Definition Erase (m : Mem) (c : LRUCacheImpl) (k : list byte) (hsh : Z)
    : option (Mem * LRUCacheImpl) :=
  '(t, r) ← HT.Remove (heap m) (table_ c) k hsh;
  let c1 := set_table t c in
  match r with
  | Some e => c2 ← LRU_Remove c1 e; Unref m c2 e
  | None => Some (m, c1)
  end.

End Impl.

(** ** ShardedLRUCache *)

Definition kNumShardBits : Z := 4.
Definition kNumShards : Z := Z.shiftl 1 kNumShardBits.

Record ShardedLRUCache := mkSharded {
  shard_ : list LRUCacheImpl;
  last_id_ : Z                  (* uint64_t *)
}.

Module Sharded.
Section WithChar.
Variable char_is_signed : bool.

Definition HashSlice (s : list byte) : Z := Hash char_is_signed s (strlen s) 0.

Definition Shard (hsh : Z) : nat := Z.to_nat (Z.shiftr hsh (32 - kNumShardBits)).

Definition set_shard (i : nat) (c : LRUCacheImpl) (sc : ShardedLRUCache)
    : ShardedLRUCache :=
  mkSharded (<[i := c]> (shard_ sc)) (last_id_ sc).

(** [LRUCache::New(capacity)] *)
Definition New (capacity : Z) : option ShardedLRUCache :=
  let per_shard := wrap64 (capacity + (kNumShards - 1)) / kNumShards in
  c ← Impl.new 0;
  Some (mkSharded (replicate (Z.to_nat kNumShards) (Impl.SetCapacity per_shard c)) 0).

Definition Insert (m : Mem) (sc : ShardedLRUCache) (k : list byte)
    (v : Z) (chg : Z) (del : Z) : option (Mem * ShardedLRUCache * ptr) :=
  let hsh := HashSlice k in
  c ← shard_ sc !! Shard hsh;
  '(m', c', e) ← Impl.Insert m c k hsh v chg del;
  Some (m', set_shard (Shard hsh) c' sc, e).

Definition Lookup (m : Mem) (sc : ShardedLRUCache) (k : list byte)
    : option (Mem * ShardedLRUCache * option ptr) :=
  let hsh := HashSlice k in
  c ← shard_ sc !! Shard hsh;
  '(m', c', r) ← Impl.Lookup m c k hsh;
  Some (m', set_shard (Shard hsh) c' sc, r).

Definition Release (m : Mem) (sc : ShardedLRUCache) (handle : ptr)
    : option (Mem * ShardedLRUCache) :=
  h ← heap m !! handle;
  c ← shard_ sc !! Shard (hash h);
  '(m', c') ← Impl.Release m c handle;
  Some (m', set_shard (Shard (hash h)) c' sc).

Definition Erase (m : Mem) (sc : ShardedLRUCache) (k : list byte)
    : option (Mem * ShardedLRUCache) :=
  let hsh := HashSlice k in
  c ← shard_ sc !! Shard hsh;
  '(m', c') ← Impl.Erase m c k hsh;
  Some (m', set_shard (Shard hsh) c' sc).

Definition Value (m : Mem) (handle : ptr) : option Z :=
  value <$> heap m !! handle.

(** [return ++(last_id_);] *)
Definition NewId (sc : ShardedLRUCache) : ShardedLRUCache * Z :=
  let id := wrap64 (last_id_ sc + 1) in
  (mkSharded (shard_ sc) id, id).

End WithChar.
End Sharded.

(** * Part II: invariants, the client and the reachable states *)

(** ** HandleTable invariant *)

(** All entries chained in the table. *)
Definition content (t : HandleTable) : list ptr := mjoin (list_ t).

(** What [FindPointer] compares: the hash and the stored key. *)
Definition sig_of (hp : gmap ptr LRUHandle) (p : ptr) : option (Z * list byte) :=
  (λ e, (hash e, key_data e)) <$> hp !! p.

(** Every chained entry is allocated, sits in the bucket of its hash, and
    stores a key without NUL bytes. *)
Definition placed (hp : gmap ptr LRUHandle) (len : Z) (l : list (list ptr)) : Prop :=
  ∀ i chain p, l !! i = Some chain → p ∈ chain →
    ∃ e, hp !! p = Some e ∧ HT.bucket len (hash e) = i ∧
         cstr (key_data e) = key_data e.

Record table_wf (hp : gmap ptr LRUHandle) (t : HandleTable) : Prop := mk_table_wf {
  twf_len : length_ t = Z.of_nat (length (list_ t));
  twf_pow : ∃ k : Z, 2 ≤ k ≤ 31 ∧ length_ t = 2 ^ k;
  twf_elems : elems_ t = Z.of_nat (length (content t));
  twf_load : elems_ t ≤ length_ t;
  twf_placed : placed hp (length_ t) (list_ t);
  twf_nodup : NoDup (sig_of hp <$> content t)
}.

(** ** Shard invariant *)

(** The number of times [p] occurs in a list of references. *)
Fixpoint pins (p : ptr) (l : list ptr) : Z :=
  match l with
  | [] => 0
  | x :: r => (if decide (x = p) then 1 else 0) + pins p r
  end.

(** The in-cache reference: 1 when [p] is on the recency list. *)
Definition in_cache (lru : list ptr) (p : ptr) : Z :=
  if decide (p ∈ lru) then 1 else 0.

(** The sum of [charge] over the allocated entries. *)
Definition total_charge (hp : gmap ptr LRUHandle) : Z :=
  map_fold (λ _ e acc, charge e + acc) 0 hp.

(** [Inv m c P]: the shard [c] is consistent with memory [m] when [P] lists
    the references held outside the cache, one occurrence per reference. *)
Record Inv (m : Mem) (c : LRUCacheImpl) (P : list ptr) : Prop := mk_Inv {
  inv_table : table_wf (heap m) (table_ c);
  inv_lru : lru_ c ≡ₚ content (table_ c);
  inv_heap : ∀ p e, heap m !! p = Some e →
      (p < brk m)%nat ∧ cstr (key_data e) = key_data e ∧
      1 ≤ refs e < 2 ^ 32 ∧ refs e = in_cache (lru_ c) p + pins p P;
  inv_pinned : ∀ p, p ∈ P → is_Some (heap m !! p);
  inv_usage : usage_ c = wrap64 (total_charge (heap m));
  inv_log : NoDup (call_entry <$> deleted m) ∧
      ∀ d, d ∈ deleted m → (call_entry d < brk m)%nat ∧ heap m !! call_entry d = None
}.

(** The eviction of the entries [ev], oldest first, whatever the usage. *)
Fixpoint evict_list (ev : list ptr) (m : Mem) (c : LRUCacheImpl)
    : option (Mem * LRUCacheImpl) :=
  match ev with
  | [] => Some (m, c)
  | old :: r => '(m1, c1) ← Impl.evict_one m c old; evict_list r m1 c1
  end.

(** What dropping one reference to [p] does to memory and usage: with
    [refs = 1] the deleter is called, the entry is freed and its charge
    leaves the usage; otherwise only the count changes. *)
Definition ref_dropped (p : ptr) (h : LRUHandle) (in_lru pinned : Prop)
    (m : Mem) (c : LRUCacheImpl) (m' : Mem) (c' : LRUCacheImpl) : Prop :=
  (refs h = 1 ∧ ¬ in_lru ∧ ¬ pinned ∧ m' = delete_and_free m p h ∧
   usage_ c' = wrap64 (usage_ c - charge h)) ∨
  (1 < refs h ∧ (in_lru ∨ pinned) ∧
   m' = store m p (set_refs (refs h - 1) h) ∧ usage_ c' = usage_ c).

(** ** A client of one shard *)

(** The shard, the memory, the handles the client holds and has not yet
    released, and a record of what it inserted: [born !! p] is the key,
    value and deleter given to the [Insert] that returned [p]. *)
Record Sys := mkSys {
  mem : Mem;
  impl : LRUCacheImpl;
  held : list ptr;
  born : list (list byte * Z * Z)
}.

Inductive op :=
  | OInsert (k : list byte) (hsh : Z) (v chg del : Z)
  | OLookup (k : list byte) (hsh : Z)
  | ORelease (i : nat)          (* release the [i]-th handle held *)
  | OErase (k : list byte) (hsh : Z).

Definition step (o : op) (s : Sys) : option Sys :=
  match o with
  | OInsert k hsh v chg del =>
      '(m, c, e) ← Impl.Insert (mem s) (impl s) k hsh v chg del;
      Some (mkSys m c (e :: held s) (born s ++ [(cstr k, v, del)]))
  | OLookup k hsh =>
      '(m, c, r) ← Impl.Lookup (mem s) (impl s) k hsh;
      Some (mkSys m c (match r with Some e => e :: held s | None => held s end)
              (born s))
  | ORelease i =>
      match held s !! i with
      | Some h =>
          '(m, c) ← Impl.Release (mem s) (impl s) h;
          Some (mkSys m c (delete i (held s)) (born s))
      | None => Some s
      end
  | OErase k hsh =>
      '(m, c) ← Impl.Erase (mem s) (impl s) k hsh;
      Some (mkSys m c (held s) (born s))
  end.

(** The key of an [Insert] is shorter than 2^31 bytes, so that its length
    fits the [int] the code keeps it in. *)
Definition op_fits (o : op) : Prop :=
  match o with
  | OInsert k _ _ _ _ => strlen k < 2 ^ 31
  | _ => True
  end.

(** The client repeats the operation [o], [n] times. *)
Definition repeat_op (n : N) (o : op) (s : Sys) : option Sys :=
  N.iter n (λ r, r ≫= step o) (Some s).

(** The 32-bit counters [elems_] and [refs] are not about to wrap. *)
Definition in_range (s : Sys) : Prop :=
  elems_ (table_ (impl s)) < 2 ^ 31 ∧ Z.of_nat (length (held s)) < 2 ^ 32 - 2.

Definition init (capacity : Z) : option Sys :=
  c ← Impl.new capacity; Some (mkSys Mem_empty c [] []).

Inductive reachable (capacity : Z) : Sys → Prop :=
  | reach_init s : init capacity = Some s → reachable capacity s
  | reach_step s o s' :
      reachable capacity s → in_range s → step o s = Some s' →
      reachable capacity s'.

(** The deleter calls made for entry [p]. *)
Definition calls_to (p : ptr) (log : list DeleterCall) : list DeleterCall :=
  filter (λ d, call_entry d = p) log.

(** What the client knows of every entry ever allocated: the entries still
    allocated carry the key, value and deleter they were inserted with,
    every deleter call was made with them, and an entry that is no longer
    allocated has had its deleter called. *)
Record Ghost (b : list (list byte * Z * Z)) (m : Mem) : Prop := mk_Ghost {
  gh_len : length b = brk m;
  gh_heap : ∀ p e, heap m !! p = Some e →
      b !! p = Some (key_data e, value e, deleter e);
  gh_log : ∀ d, d ∈ deleted m →
      b !! call_entry d = Some (call_key d, call_value d, call_deleter d);
  gh_done : ∀ p, (p < brk m)%nat → heap m !! p = None →
      p ∈ call_entry <$> deleted m
}.

Record SysInv (capacity : Z) (s : Sys) : Prop := mk_SysInv {
  si_inv : Inv (mem s) (impl s) (held s);
  si_cap : capacity_ (impl s) = capacity;
  si_ghost : Ghost (born s) (mem s)
}.

(** A property of memory that survives every change of a reference count
    and every destruction. *)
Definition refs_closed (Q : Mem → Prop) : Prop :=
  ∀ m p h, Q m → heap m !! p = Some h →
    Q (delete_and_free m p h) ∧ ∀ r, Q (store m p (set_refs r h)).

(** Every stored key is shorter than 2^31 bytes. *)
Definition keys_fit (m : Mem) : Prop :=
  ∀ p e, heap m !! p = Some e → Z.of_nat (length (key_data e)) < 2 ^ 31.

(** The sum of [charge] over the entries on the recency list. *)
Definition cached_charge (m : Mem) (c : LRUCacheImpl) : Z :=
  foldr (λ p acc, from_option charge 0 (heap m !! p) + acc) 0 (lru_ c).

(** ** Operations on a single key

    [single_key k hsh capacity s b]: the client reached [s] from a fresh
    shard with operations on the key [k] only, and [b] is the value given to
    the most recent [Insert] that has not been erased and whose own eviction
    loop left it in the cache. *)
Inductive single_key (k : list byte) (hsh : Z) (capacity : Z)
    : Sys → option Z → Prop :=
  | sk_init s : init capacity = Some s → single_key k hsh capacity s None
  | sk_insert s b v chg del s' :
      single_key k hsh capacity s b → in_range s →
      step (OInsert k hsh v chg del) s = Some s' →
      single_key k hsh capacity s'
        (if usage_ (impl s') <=? capacity_ (impl s') then Some v else None)
  | sk_lookup s b s' :
      single_key k hsh capacity s b → in_range s →
      step (OLookup k hsh) s = Some s' →
      single_key k hsh capacity s' b
  | sk_release s b i s' :
      single_key k hsh capacity s b → in_range s →
      step (ORelease i) s = Some s' →
      single_key k hsh capacity s' b
  | sk_erase s b s' :
      single_key k hsh capacity s b → in_range s →
      step (OErase k hsh) s = Some s' →
      single_key k hsh capacity s' None.

(** ** Successive calls of NewId *)

(** The cache after [n] calls of [NewId]. *)
Definition after_NewId (n : N) (sc : ShardedLRUCache) : ShardedLRUCache :=
  N.iter n (λ s, (Sharded.NewId s).1) sc.

(** What call number [n + 1] returns. *)
Definition id_of_call (sc : ShardedLRUCache) (n : N) : Z :=
  (Sharded.NewId (after_NewId n sc)).2.

(** The entries chained in the buckets other than bucket [i]. *)
Definition others {A} (l : list (list A)) (i : nat) : list A :=
  mjoin (take i l) ++ mjoin (drop (S i) l).

(** The entries of a chain are allocated, with keys free of NUL bytes. *)
Definition chain_ok (hp : gmap ptr LRUHandle) (chain : list ptr) : Prop :=
  ∀ p, p ∈ chain → ∃ e, hp !! p = Some e ∧ cstr (key_data e) = key_data e.

(** The table reads the heap only at its own entries, and there only the
    hash and the key. *)
Definition agree (l : list ptr) (hp hp' : gmap ptr LRUHandle) : Prop :=
  ∀ p, p ∈ l → sig_of hp p = sig_of hp' p.

(** What [Resize] needs of the table it rebuilds. *)
Record table_pre (hp : gmap ptr LRUHandle) (t : HandleTable) : Prop := mk_table_pre {
  tpre_len : length_ t = Z.of_nat (length (list_ t));
  tpre_elems : elems_ t = Z.of_nat (length (content t));
  tpre_bound : elems_ t ≤ 2 ^ 31;
  tpre_ok : chain_ok hp (content t);
  tpre_nodup : NoDup (sig_of hp <$> content t)
}.

(** The entry [p] is allocated and is not the one [FindPointer] looks for. *)
Definition differs (hp : gmap ptr LRUHandle) (k : list byte) (hsh : Z) (p : ptr)
    : Prop :=
  ∃ ep, hp !! p = Some ep ∧ HT.matches ep k hsh = false.

(** ** Concrete states

    A fresh shard of capacity 10; the same shard after the client has
    inserted the key "a" with value 101 and charge 8 and kept the handle; a
    sharded cache of capacity 1000. *)
Definition fresh10 : Sys :=
  mkSys Mem_empty (mkImpl 10 0 [] (mkTable 4 0 [[]; []; []; []])) [] [].

Definition entry_a : LRUHandle := mkLRUHandle 101 7 8 1 2 0 [x61].

Definition one_entry : Sys :=
  mkSys (mkMem (<[0%nat := entry_a]> ∅) 1 [])
        (mkImpl 10 8 [0%nat] (mkTable 4 1 [[0%nat]; []; []; []]))
        [0%nat] [([x61], 101, 7)].

Definition cache1000 : ShardedLRUCache :=
  mkSharded (replicate 16 (mkImpl 63 0 [] (mkTable 4 0 [[]; []; []; []]))) 0.

(** The shard [one_entry] after [n] more [Lookup]s of the key "a", the
    client keeping every handle: the reference count is 2 + n modulo 2^32. *)
Definition looked_up (n : N) : Sys :=
  mkSys (mkMem (<[0%nat := set_refs (wrap32 (2 + Z.of_N n)) entry_a]> ∅) 1 [])
        (mkImpl 10 8 [0%nat] (mkTable 4 1 [[0%nat]; []; []; []]))
        (N.iter n (cons 0%nat) [0%nat]) [([x61], 101, 7)].

(** A key of 2^31 bytes. *)
Definition long_key : list byte := N.iter (2 ^ 31) (cons x61) [].

(** The shard [one_entry] after the client has inserted the key "a" again,
    with value 102 and charge 1, and kept both handles: the first entry is
    off the recency list and out of the table, but still allocated. *)
Definition overwritten : Sys :=
  mkSys (mkMem (<[0%nat := set_refs 1 entry_a]>
                  (<[1%nat := mkLRUHandle 102 7 1 1 2 0 [x61]]> ∅)) 2 [])
        (mkImpl 10 9 [1%nat] (mkTable 4 1 [[1%nat]; []; []; []]))
        [1%nat; 0%nat] [([x61], 101, 7); ([x61], 102, 7)].

(** The shard [one_entry] after the client has erased the key "a" and then
    released its handle: the entry is destroyed. *)
Definition erased : Sys :=
  mkSys (mkMem (<[0%nat := set_refs 1 entry_a]> ∅) 1 [])
        (mkImpl 10 8 [] (mkTable 4 0 [[]; []; []; []]))
        [0%nat] [([x61], 101, 7)].

Definition destroyed : Sys :=
  mkSys (mkMem ∅ 1 [mkCall 0%nat 7 [x61] 101])
        (mkImpl 10 0 [] (mkTable 4 0 [[]; []; []; []]))
        [] [([x61], 101, 7)].

(** The state [looked_up (2^32 - 1)] after one [Release]: the entry has
    been destroyed although it is on the recency list and in the table, and
    the client holds 2^32 - 1 more handles to it. *)
Definition freed_while_cached : Sys :=
  mkSys (mkMem ∅ 1 [mkCall 0%nat 7 [x61] 101])
        (mkImpl 10 0 [0%nat] (mkTable 4 1 [[0%nat]; []; []; []]))
        (N.iter (2 ^ 32 - 2) (cons 0%nat) [0%nat]) [([x61], 101, 7)].

(** ** The destructor of a shard

    [~LRUCacheImpl] walks the recency list from [lru_.next], reading
    [e->next] before it lets go of [e]; every entry must hold the reference
    of the cache and no other.  Nothing is left of the shard afterwards, so
    only the memory is returned. *)
Fixpoint destructor_loop (l : list ptr) (m : Mem) (c : LRUCacheImpl)
    : option Mem :=
  match l with
  | [] => Some m
  | e :: next =>
      h ← heap m !! e;
      if refs h =? 1 then                           (* assert(e->refs == 1) *)
        '(m1, c1) ← Impl.Unref m c e;
        destructor_loop next m1 c1
      else None
  end.

Definition LRUCacheImpl_destructor (m : Mem) (c : LRUCacheImpl) : option Mem :=
  destructor_loop (lru_ c) m c.

(** The deleter calls made when the entries [l] are destroyed in this
    order, each with the key and the value found in the heap [hp]. *)
Fixpoint calls_for (hp : gmap ptr LRUHandle) (l : list ptr) : list DeleterCall :=
  match l with
  | [] => []
  | p :: r =>
      match hp !! p with
      | Some e => call_deleter_of p e :: calls_for hp r
      | None => calls_for hp r
      end
  end.

(** The state [one_entry] after the client has released its handle. *)
Definition one_released : Sys :=
  mkSys (mkMem (<[0%nat := set_refs 1 entry_a]> ∅) 1 [])
        (impl one_entry) [] [([x61], 101, 7)].

(** ** A client of the sharded cache *)

(** The shard an entry belongs to: [Shard(e->hash)]. *)
Definition owner (e : LRUHandle) : nat := Sharded.Shard (hash e).

(** The entries of shard [i], and the entries of the other shards. *)
Definition part (i : nat) (hp : gmap ptr LRUHandle) : gmap ptr LRUHandle :=
  filter (λ pe, owner pe.2 = i) hp.

Definition rest (i : nat) (hp : gmap ptr LRUHandle) : gmap ptr LRUHandle :=
  filter (λ pe, owner pe.2 ≠ i) hp.

(** Memory as shard [i] knows it: its own entries. *)
Definition view (i : nat) (m : Mem) : Mem :=
  mkMem (part i (heap m)) (brk m) (deleted m).

(** Memory [m] together with entries [F] that lie outside it. *)
Definition extend (F : gmap ptr LRUHandle) (m : Mem) : Mem :=
  mkMem (heap m ∪ F) (brk m) (deleted m).

(** The handles among [P] that refer to entries of shard [i]. *)
Definition handles_of (i : nat) (hp : gmap ptr LRUHandle) (P : list ptr)
    : list ptr :=
  filter (λ p, owner <$> hp !! p = Some i) P.

(** The sharded cache, the memory and the handles the client holds. *)
Record SSys := mkSSys {
  smem : Mem;
  cache : ShardedLRUCache;
  sheld : list ptr
}.

Inductive sop :=
  | SInsert (k : list byte) (v chg del : Z)
  | SLookup (k : list byte)
  | SRelease (i : nat)          (* release the [i]-th handle held *)
  | SErase (k : list byte)
  | SNewId.

Definition sstep (sgn : bool) (o : sop) (s : SSys) : option SSys :=
  match o with
  | SInsert k v chg del =>
      '(m, sc, e) ← Sharded.Insert sgn (smem s) (cache s) k v chg del;
      Some (mkSSys m sc (e :: sheld s))
  | SLookup k =>
      '(m, sc, r) ← Sharded.Lookup sgn (smem s) (cache s) k;
      Some (mkSSys m sc (match r with Some e => e :: sheld s | None => sheld s end))
  | SRelease i =>
      match sheld s !! i with
      | Some h =>
          '(m, sc) ← Sharded.Release (smem s) (cache s) h;
          Some (mkSSys m sc (delete i (sheld s)))
      | None => Some s
      end
  | SErase k =>
      '(m, sc) ← Sharded.Erase sgn (smem s) (cache s) k;
      Some (mkSSys m sc (sheld s))
  | SNewId => Some (mkSSys (smem s) (Sharded.NewId (cache s)).1 (sheld s))
  end.

(** The key of an [Insert] is shorter than 2^31 bytes. *)
Definition sop_fits (o : sop) : Prop :=
  match o with
  | SInsert k _ _ _ => strlen k < 2 ^ 31
  | _ => True
  end.

(** The 32-bit counters of every shard are not about to wrap. *)
Definition s_in_range (s : SSys) : Prop :=
  (∀ c, c ∈ shard_ (cache s) → elems_ (table_ c) < 2 ^ 31) ∧
  Z.of_nat (length (sheld s)) < 2 ^ 32 - 2.

Definition sinit (capacity : Z) : option SSys :=
  sc ← Sharded.New capacity; Some (mkSSys Mem_empty sc []).

Inductive sreachable (sgn : bool) (capacity : Z) : SSys → Prop :=
  | sreach_init s : sinit capacity = Some s → sreachable sgn capacity s
  | sreach_step s o s' :
      sreachable sgn capacity s → s_in_range s → sstep sgn o s = Some s' →
      sreachable sgn capacity s'.

(** Every shard is consistent with its own entries and with the handles
    that refer to them. *)
Record SInv (m : Mem) (sc : ShardedLRUCache) (P : list ptr) : Prop := mk_SInv {
  sinv_len : length (shard_ sc) = Z.to_nat kNumShards;
  sinv_hash : ∀ p e, heap m !! p = Some e → 0 ≤ hash e < 2 ^ 32;
  sinv_held : ∀ p, p ∈ P → is_Some (heap m !! p);
  sinv_shard : ∀ i c, shard_ sc !! i = Some c →
      Inv (view i m) c (handles_of i (heap m) P)
}.

(** Memory [m] holds entries of shard [i] only, apart from the entries [F],
    and has logged no deleter call for an entry of [F]. *)
Definition owned (i : nat) (F : gmap ptr LRUHandle) (m : Mem) : Prop :=
  (∀ p e, heap m !! p = Some e →
     owner e = i ∧ 0 ≤ hash e < 2 ^ 32 ∧ F !! p = None) ∧
  (∀ d, d ∈ deleted m → F !! call_entry d = None).

(** ** The destructor of the sharded cache

    [Delete] is [delete this]: the body of [~ShardedLRUCache] is empty and
    the members are destroyed in the reverse order of their declaration, the
    elements of the array [shard_] from the last to the first. *)
Fixpoint destroy_shards (l : list LRUCacheImpl) (m : Mem) : option Mem :=
  match l with
  | [] => Some m
  | c :: r => m1 ← LRUCacheImpl_destructor m c; destroy_shards r m1
  end.

Definition ShardedLRUCache_Delete (m : Mem) (sc : ShardedLRUCache) : option Mem :=
  destroy_shards (reverse (shard_ sc)) m.

(** The entries on the recency lists of the shards [l], in this order. *)
Definition cached (l : list LRUCacheImpl) : list ptr := mjoin (lru_ <$> l).

(** What the memory and the log must satisfy as a whole. *)
Definition log_ok (m : Mem) : Prop :=
  NoDup (call_entry <$> deleted m) ∧
  ∀ d, d ∈ deleted m → (call_entry d < brk m)%nat ∧ heap m !! call_entry d = None.

(** The shard an operation works on: the one its key hashes to, or the one
    the hash stored in the released entry selects. *)
Definition touched (sgn : bool) (o : sop) (s : SSys) : option nat :=
  match o with
  | SInsert k _ _ _ | SLookup k | SErase k =>
      Some (Sharded.Shard (Sharded.HashSlice sgn k))
  | SRelease i => h ← sheld s !! i; e ← heap (smem s) !! h; Some (owner e)
  | SNewId => None
  end.

(** ** Concrete states of the sharded cache

    A fresh cache of capacity 1000, and the same cache after the client has
    inserted the key "a" with value 101 and charge 8 and kept the handle:
    the hash of "a" is 3396115926, which selects shard 12 and bucket 2. *)
Definition sfresh : SSys := mkSSys Mem_empty cache1000 [].

Definition entry_sa : LRUHandle :=
  mkLRUHandle 101 7 8 1 2 3396115926 [x61].

Definition sone : SSys :=
  mkSSys (mkMem (<[0%nat := entry_sa]> ∅) 1 [])
    (mkSharded
       (<[12%nat := mkImpl 63 8 [0%nat] (mkTable 4 1 [[]; []; [0%nat]; []])]>
          (shard_ cache1000)) 0)
    [0%nat].

(** The cache [sone] after the client has released its handle, and after
    it has instead inserted the key "b" with value 102 and charge 60 and kept
    both handles: the hash of "b" is 2433827902, which selects shard 9. *)
Definition sreleased : SSys :=
  mkSSys (mkMem (<[0%nat := set_refs 1 entry_sa]> ∅) 1 []) (cache sone) [].

Definition entry_sb : LRUHandle :=
  mkLRUHandle 102 7 60 1 2 2433827902 [x62].

Definition stwo : SSys :=
  mkSSys (mkMem (<[1%nat := entry_sb]> (<[0%nat := entry_sa]> ∅)) 2 [])
    (mkSharded
       (<[9%nat := mkImpl 63 60 [1%nat] (mkTable 4 1 [[]; []; [1%nat]; []])]>
          (shard_ (cache sone))) 0)
    [1%nat; 0%nat].

(** * Part III: properties *)

(** ** Machine integers and C strings *)

Lemma wrap32_range z : 0 <= wrap32 z < 2 ^ 32.
Proof. unfold wrap32. apply Z.mod_pos_bound. lia. Qed.

Lemma wrap64_range z : 0 <= wrap64 z < 2 ^ 64.
Proof. unfold wrap64. apply Z.mod_pos_bound. lia. Qed.

Lemma wrap32_small z : 0 <= z < 2 ^ 32 -> wrap32 z = z.
Proof. intros. unfold wrap32. apply Z.mod_small. lia. Qed.

Lemma wrap64_small z : 0 <= z < 2 ^ 64 -> wrap64 z = z.
Proof. intros. unfold wrap64. apply Z.mod_small. lia. Qed.

Lemma wrap32_add_l a b : wrap32 (wrap32 a + b) = wrap32 (a + b).
Proof. unfold wrap32. apply Zplus_mod_idemp_l. Qed.

Lemma wrap32_add_l3 a b c : wrap32 (wrap32 a + b + c) = wrap32 (a + b + c).
Proof. by rewrite <- !Z.add_assoc, wrap32_add_l. Qed.

Lemma wrap32_mul_l a b : wrap32 (wrap32 a * b) = wrap32 (a * b).
Proof. unfold wrap32. apply Zmult_mod_idemp_l. Qed.

Lemma wrap64_add_l a b : wrap64 (wrap64 a + b) = wrap64 (a + b).
Proof. unfold wrap64. apply Zplus_mod_idemp_l. Qed.

Lemma wrap64_sub_l a b : wrap64 (wrap64 a - b) = wrap64 (a - b).
Proof. unfold wrap64. apply Zminus_mod_idemp_l. Qed.

Lemma uchar_range b : 0 <= uchar b <= 255.
Proof.
  destruct b; vm_compute; split; discriminate.
Qed.

Lemma uchar_inj x y : uchar x = uchar y -> x = y.
Proof.
  unfold uchar. intros H. apply N2Z.inj in H.
  pose proof (Byte.of_to_N x) as Hx. rewrite H, Byte.of_to_N in Hx.
  congruence.
Qed.

Lemma byte_eqb_refl x : Byte.eqb x x = true.
Proof. by apply Byte.byte_dec_lb. Qed.

Lemma is_nul_true b : is_nul b = true <-> b = x00.
Proof.
  unfold is_nul. split; [apply Byte.byte_dec_bl | apply Byte.byte_dec_lb].
Qed.

Lemma is_nul_uchar b : is_nul b = true <-> uchar b = 0.
Proof.
  rewrite is_nul_true. split; [intros ->; reflexivity |].
  intros H. apply uchar_inj. rewrite H. reflexivity.
Qed.

Lemma cstr_idem s : cstr (cstr s) = cstr s.
Proof.
  induction s as [|b s IH]; simpl; [done|].
  destruct (is_nul b) eqn:E; simpl; [done|]. by rewrite E, IH.
Qed.

Lemma cstr_take s : take (Z.to_nat (strlen s)) s = cstr s.
Proof.
  unfold strlen. rewrite Nat2Z.id.
  induction s as [|b s IH]; simpl; [done|].
  destruct (is_nul b); simpl; [done|]. by rewrite IH.
Qed.

(** [strcmp] only looks at the two C strings. *)
Lemma strcmp_cstr a b : strcmp a b = strcmp (cstr a) (cstr b).
Proof.
  revert b. induction a as [|x a IH]; intros [|y b]; simpl; try done.
  - destruct (is_nul y) eqn:E; simpl; [|done].
    apply is_nul_uchar in E. lia.
  - destruct (is_nul x) eqn:E; simpl; [|done].
    apply is_nul_uchar in E. lia.
  - destruct (Byte.eqb x y) eqn:Exy.
    + apply Byte.byte_dec_bl in Exy as <-.
      destruct (is_nul x) eqn:E; simpl; [done|].
      rewrite E, (byte_eqb_refl x). apply IH.
    + destruct (is_nul x) eqn:Ex, (is_nul y) eqn:Ey; simpl;
        rewrite ?Exy, ?Ex; try done.
      * apply is_nul_true in Ex, Ey. subst.
        by rewrite (byte_eqb_refl x00) in Exy.
      * apply is_nul_uchar in Ex. lia.
      * apply is_nul_uchar in Ey. lia.
Qed.

Lemma strcmp_nonul_0 a b :
  cstr a = a -> cstr b = b -> strcmp a b = 0 -> a = b.
Proof.
  revert b. induction a as [|x a IH]; intros [|y b]; simpl; try done.
  - destruct (is_nul y) eqn:E; [done|]. intros _ _ H.
    assert (uchar y = 0) as H0 by lia. apply is_nul_uchar in H0. congruence.
  - destruct (is_nul x) eqn:E; [done|]. intros _ _ H.
    assert (uchar x = 0) as H0 by lia. apply is_nul_uchar in H0. congruence.
  - destruct (is_nul x) eqn:Ex; [done|]. destruct (is_nul y) eqn:Ey; [done|].
    intros [= Ha] [= Hb]. destruct (Byte.eqb x y) eqn:Exy.
    + apply Byte.byte_dec_bl in Exy as <-. intros H. f_equal. by apply IH.
    + intros H. assert (x = y) by (apply uchar_inj; lia). subst.
      by rewrite (byte_eqb_refl y) in Exy.
Qed.

Lemma strcmp_refl a : strcmp a a = 0.
Proof.
  induction a as [|x a IH]; simpl; [done|].
  rewrite (byte_eqb_refl x). by destruct (is_nul x).
Qed.

Lemma strcmp_0_iff a b : strcmp a b = 0 <-> cstr a = cstr b.
Proof.
  rewrite strcmp_cstr. split.
  - apply strcmp_nonul_0; apply cstr_idem.
  - intros ->. apply strcmp_refl.
Qed.

(** ** Hash *)

Section HashFacts.
Variable sgn : bool.

Lemma Hash_loop_fold_le n : forall data h, (length data <= n)%nat ->
  Hash_loop data h = (fold_left (mix_word 16) (words_of data) h, tail_of data).
Proof.
  induction n as [|n IH]; intros data h Hn.
  - destruct data; [done | simpl in Hn; lia].
  - destruct data as [|b0 [|b1 [|b2 [|b3 rest]]]]; try done.
    simpl. apply IH. simpl in Hn. lia.
Qed.

Lemma tail_of_short n : forall data, (length data <= n)%nat ->
  (length (tail_of data) < 4)%nat.
Proof.
  induction n as [|n IH]; intros data Hn.
  - destruct data; simpl in *; lia.
  - destruct data as [|b0 [|b1 [|b2 [|b3 rest]]]]; simpl in *; try lia.
    apply IH. lia.
Qed.

Lemma Hash_switch_tail t h :
  (0 < length t < 4)%nat -> Hash_switch sgn t h = mix_tail sgn false t h.
Proof.
  destruct t as [|c0 [|c1 [|c2 [|c3 t]]]]; simpl length; try lia; intros _;
    unfold Hash_switch, Hash_case3, Hash_case2, Hash_case1, mix_tail, Hash_r;
    cbn [tail_sum]; cbv zeta;
    change (8 * 0) with 0; change (8 * (0 + 1)) with 8;
    change (8 * (0 + 1 + 1)) with 16; rewrite Z.shiftl_0_r.
  all: rewrite ?wrap32_add_l, ?wrap32_add_l3;
    match goal with
    | |- Z.lxor (wrap32 (wrap32 ?a * _)) _ = Z.lxor (wrap32 (wrap32 ?b * _)) _ =>
        replace b with a by ring
    end; reflexivity.
Qed.

Lemma Hash_eq_described data junk seed :
  Hash sgn (data ++ junk) (Z.of_nat (length data)) seed
  = Hash_described sgn 16 false false data seed.
Proof.
  unfold Hash, Hash_described. rewrite Nat2Z.id, take_app_length.
  rewrite (Hash_loop_fold_le (length data)) by lia.
  pose proof (tail_of_short (length data) data (le_n _)) as Hlen.
  destruct (tail_of data) as [|c t] eqn:E; [done|].
  apply Hash_switch_tail. simpl in *. lia.
Qed.

End HashFacts.

(** C5, as amended.  On its first [n] bytes [Hash] starts from
    [seed xor (n * 0xc6a4a793)] truncated to 32 bits, folds every 4-byte
    little-endian word by add, multiply by [0xc6a4a793] and xor with the
    state shifted right by 16 bits, and, when 1 to 3 bytes remain, adds them
    little-endian style (byte 2 shifted left by 16, byte 1 by 8, byte 0 as
    it is, each byte with its value as a plain [char], which is negative
    above 127 where [char] is signed), multiplies once more and xors with
    the state shifted right by 24 bits; with no byte remaining there is no
    final step.  Bytes after the first [n] are not read. *)
Theorem C5_Hash_as_described (sgn : bool) (data junk : list byte) (seed : Z) :
  Hash sgn (data ++ junk) (Z.of_nat (length data)) seed
  = Hash_described sgn 16 false false data seed.
Proof. apply Hash_eq_described. Qed.

(** C5 as stated fails, whatever the signedness of [char].  On the four
    bytes "abcd" with seed 0 the code does not compute the hash whose
    per-word step shifts by 24 bits, and it does not apply the final step to
    the empty tail.  On the two bytes "ab" it does not accumulate the tail
    with the first byte highest.  On the single byte 0x80 a host with signed
    [char] does not add 128, the value of the byte: its hash differs from
    the one of a host with unsigned [char]. *)
Lemma C5_counterexample :
  let abcd := [x61; x62; x63; x64] in
  let ab := [x61; x62] in
  (Hash true abcd 4 0 <> Hash_described true 24 true true abcd 0 /\
   Hash false abcd 4 0 <> Hash_described false 24 true true abcd 0) /\
  (Hash true abcd 4 0 <> Hash_described true 24 false false abcd 0 /\
   Hash false abcd 4 0 <> Hash_described false 24 false false abcd 0) /\
  (Hash true abcd 4 0 <> Hash_described true 16 true false abcd 0 /\
   Hash false abcd 4 0 <> Hash_described false 16 true false abcd 0) /\
  (Hash true ab 2 0 <> Hash_described true 16 false true ab 0 /\
   Hash false ab 2 0 <> Hash_described false 16 false true ab 0) /\
  Hash true [x80] 1 0 = 867521754 /\
  Hash_described false 16 false false [x80] 0 = 3629967153.
Proof. vm_compute. repeat split; discriminate. Qed.

(** ** Lists of chains *)

Section ListFacts.
Context {A : Type}.
Implicit Types (l : list (list A)) (c : list A).

Lemma join_lookup_perm l i c : l !! i = Some c → mjoin l ≡ₚ c ++ others l i.
Proof.
  intros H. rewrite <- (take_drop_middle l i c H) at 1.
  rewrite join_app. simpl. unfold others.
  rewrite Permutation_app_swap_app. done.
Qed.

Lemma join_insert_perm l i c' :
  (i < length l)%nat → mjoin (<[i:=c']> l) ≡ₚ c' ++ others l i.
Proof.
  intros H. rewrite insert_take_drop by done.
  rewrite join_app. simpl. unfold others.
  rewrite Permutation_app_swap_app. done.
Qed.

Lemma elem_of_join_lookup l (x : A) :
  x ∈ mjoin l ↔ ∃ i c, l !! i = Some c ∧ x ∈ c.
Proof.
  rewrite list_elem_of_join. split.
  - intros (c & Hx & Hc). apply list_elem_of_lookup in Hc as [i Hi]. eauto.
  - intros (i & c & Hi & Hx). exists c. split; [done|].
    by eapply list_elem_of_lookup_2.
Qed.

Lemma chain_replace_perm c j (o h : A) :
  c !! j = Some o → o :: (take j c ++ h :: drop (S j) c) ≡ₚ h :: c.
Proof.
  intros H. rewrite <- (take_drop_middle c j o H) at 3.
  rewrite <- !Permutation_middle. apply perm_swap.
Qed.

Lemma chain_append c j (h : A) :
  c !! j = None → j = length c → take j c ++ h :: drop (S j) c = c ++ [h].
Proof.
  intros _ ->. rewrite firstn_all, drop_ge by lia. done.
Qed.

Lemma chain_delete_perm c j (o : A) :
  c !! j = Some o → c ≡ₚ o :: delete j c.
Proof.
  intros H. rewrite <- (take_drop_middle c j o H) at 1.
  rewrite delete_take_drop. by rewrite <- Permutation_middle.
Qed.
End ListFacts.

(** ** HandleTable: walking a chain *)

Lemma matches_true e k hsh :
  HT.matches e k hsh = true ↔ hash e = hsh ∧ cstr k = cstr (key_data e).
Proof.
  unfold HT.matches, key.
  rewrite andb_true_iff, !Z.eqb_eq, strcmp_0_iff. done.
Qed.

Lemma matches_sig hp p e k hsh :
  hp !! p = Some e → cstr (key_data e) = key_data e →
  HT.matches e k hsh = true ↔ sig_of hp p = Some (hsh, cstr k).
Proof.
  intros Hp Hk. unfold sig_of. rewrite Hp, matches_true, Hk. simpl.
  split; [by intros [-> ->] | by intros [= -> ->]].
Qed.


Lemma chain_find_spec hp k hsh chain :
  chain_ok hp chain →
  ∃ j, HT.chain_find hp k hsh chain = Some j ∧
    (∀ i p, (i < j)%nat → chain !! i = Some p →
       sig_of hp p ≠ Some (hsh, cstr k)) ∧
    match chain !! j with
    | Some p => sig_of hp p = Some (hsh, cstr k)
    | None => j = length chain
    end.
Proof.
  induction chain as [|p chain IH]; intros Hok.
  - exists 0%nat. simpl. split; [done|]. split; [intros; lia | done].
  - destruct (Hok p) as (e & Hp & Hk); [left|].
    destruct IH as (j & Hj & Hlt & Hat).
    { intros q Hq. apply Hok. by right. }
    simpl. rewrite Hp. simpl.
    destruct (HT.matches e k hsh) eqn:Em.
    + exists 0%nat. split; [done|]. split; [intros; lia|]. simpl.
      by apply (matches_sig hp p e).
    + exists (S j). rewrite Hj. split; [done|]. split.
      * intros [|i] q Hi Hq; simpl in Hq.
        -- injection Hq as <-. intros Hs.
           apply (matches_sig hp p e) in Hs; [congruence | done | done].
        -- apply (Hlt i); [lia | done].
      * simpl. destruct (chain !! j); [done | by f_equal].
Qed.

(** The walk depends on the heap only through hashes and keys. *)
Lemma chain_find_ext hp hp' k hsh chain :
  (∀ p, p ∈ chain → sig_of hp p = sig_of hp' p) →
  HT.chain_find hp k hsh chain = HT.chain_find hp' k hsh chain.
Proof.
  induction chain as [|p chain IH]; intros Hs; [done|].
  simpl. rewrite IH by (intros; apply Hs; by right).
  specialize (Hs p (list_elem_of_here _ _)). unfold sig_of in Hs.
  destruct (hp !! p) as [e|], (hp' !! p) as [e'|]; simpl in *; try done.
  injection Hs as Hh Hk. unfold HT.matches, key. by rewrite Hh, Hk.
Qed.

(** ** HandleTable: buckets *)

Lemma bucket_lt k hsh :
  2 ≤ k ≤ 31 → (HT.bucket (2 ^ k) hsh < Z.to_nat (2 ^ k))%nat.
Proof.
  intros Hk. unfold HT.bucket.
  assert (0 < 2 ^ k) by (apply Z.pow_pos_nonneg; lia).
  assert (2 ^ k <= 2 ^ 31) by (apply Z.pow_le_mono_r; lia).
  rewrite wrap32_small by lia.
  replace (2 ^ k - 1) with (Z.ones k) by (rewrite Z.ones_equiv; lia).
  rewrite Z.land_ones by lia.
  pose proof (Z.mod_pos_bound hsh (2 ^ k)). lia.
Qed.

Lemma placed_chain_ok hp len l i chain :
  placed hp len l → l !! i = Some chain → chain_ok hp chain.
Proof. intros Hpl Hi p Hp. destruct (Hpl i chain p) as (e & ? & ? & ?); eauto. Qed.

Lemma placed_content hp t p :
  table_wf hp t → p ∈ content t →
  ∃ e, hp !! p = Some e ∧ cstr (key_data e) = key_data e.
Proof.
  intros Hwf Hp. apply elem_of_join_lookup in Hp as (i & c & Hi & Hc).
  destruct (twf_placed _ _ Hwf i c p) as (e & ? & ? & ?); eauto.
Qed.

Lemma table_bucket_lookup hp t hsh :
  table_wf hp t → is_Some (list_ t !! HT.bucket (length_ t) hsh).
Proof.
  intros Hwf. apply lookup_lt_is_Some.
  destruct (twf_pow _ _ Hwf) as (k & Hk & Hlen).
  pose proof (bucket_lt k hsh Hk) as Hb. rewrite <- Hlen in Hb.
  pose proof (twf_len _ _ Hwf). lia.
Qed.

(** What [FindPointer] returns on a well-formed table. *)
Lemma FindPointer_spec hp t k hsh :
  table_wf hp t →
  ∃ j chain,
    HT.FindPointer hp t k hsh = Some (HT.bucket (length_ t) hsh, j) ∧
    list_ t !! HT.bucket (length_ t) hsh = Some chain ∧
    (∀ i p, (i < j)%nat → chain !! i = Some p →
       sig_of hp p ≠ Some (hsh, cstr k)) ∧
    match chain !! j with
    | Some p => sig_of hp p = Some (hsh, cstr k)
    | None => j = length chain ∧
              ∀ p, p ∈ content t → sig_of hp p ≠ Some (hsh, cstr k)
    end.
Proof.
  intros Hwf. destruct (table_bucket_lookup hp t hsh Hwf) as [chain Hc].
  destruct (chain_find_spec hp k hsh chain) as (j & Hj & Hlt & Hat).
  { eapply placed_chain_ok; [apply Hwf | done]. }
  exists j, chain. unfold HT.FindPointer. rewrite Hc. simpl. rewrite Hj. simpl.
  split; [done|]. split; [done|]. split; [done|].
  destruct (chain !! j) as [p|] eqn:Ej; [done|]. split; [done|].
  intros p Hp. apply elem_of_join_lookup in Hp as (i & c & Hi & Hpc).
  destruct (twf_placed _ _ Hwf i c p Hi Hpc) as (e & He & Hb & Hk).
  destruct (decide (i = HT.bucket (length_ t) hsh)) as [->|Hne].
  - assert (c = chain) by congruence. subst c.
    apply list_elem_of_lookup in Hpc as [n Hn].
    apply (Hlt n); [|done]. apply lookup_lt_Some in Hn. lia.
  - unfold sig_of. rewrite He. simpl. intros [= Hh _]. congruence.
Qed.

Lemma Lookup_spec hp t k hsh :
  table_wf hp t →
  ∃ r, HT.Lookup hp t k hsh = Some r ∧
    match r with
    | Some p => p ∈ content t ∧ sig_of hp p = Some (hsh, cstr k)
    | None => ∀ p, p ∈ content t → sig_of hp p ≠ Some (hsh, cstr k)
    end.
Proof.
  intros Hwf.
  destruct (FindPointer_spec hp t k hsh Hwf) as (j & chain & HF & Hc & _ & Hat).
  unfold HT.Lookup, HT.load. rewrite HF. simpl. rewrite Hc. simpl.
  exists (chain !! j). split; [done|].
  destruct (chain !! j) as [p|] eqn:Ej; [|by destruct Hat].
  split; [|done]. apply elem_of_join_lookup.
  exists (HT.bucket (length_ t) hsh), chain. split; [done|].
  by eapply list_elem_of_lookup_2.
Qed.

(** Entries with the same hash and key are the same entry. *)
Lemma sig_inj hp t p q s :
  table_wf hp t → p ∈ content t → q ∈ content t →
  sig_of hp p = Some s → sig_of hp q = Some s → p = q.
Proof.
  intros Hwf Hp Hq Hsp Hsq.
  apply list_elem_of_lookup in Hp as [i Hi], Hq as [j Hj].
  assert (i = j); [|congruence].
  eapply (NoDup_lookup _ i j (Some s)); [apply (twf_nodup _ _ Hwf)| |];
    rewrite list_lookup_fmap; [rewrite Hi | rewrite Hj]; simpl; congruence.
Qed.

Lemma table_wf_NoDup hp t : table_wf hp t → NoDup (content t).
Proof. intros Hwf. eapply NoDup_fmap_1, (twf_nodup _ _ Hwf). Qed.

Lemma sig_of_Some hp p s :
  sig_of hp p = Some s ↔ ∃ e, hp !! p = Some e ∧ s = (hash e, key_data e).
Proof.
  unfold sig_of. destruct (hp !! p) as [e|]; simpl.
  - split; [intros [= <-]; eauto | intros (? & [= <-] & ->); done].
  - split; [done | by intros (? & ? & _)].
Qed.

Lemma table_wf_agree hp hp' t :
  table_wf hp t → agree (content t) hp hp' → table_wf hp' t.
Proof.
  intros [H1 H2 H3 H4 H5 H6] Hag. split; try done.
  - intros i chain p Hi Hp.
    destruct (H5 i chain p Hi Hp) as (e & He & Hb & Hk).
    assert (p ∈ content t) as Hpc by (apply elem_of_join_lookup; eauto).
    specialize (Hag p Hpc). unfold sig_of in Hag. rewrite He in Hag.
    destruct (hp' !! p) as [e'|]; simpl in Hag; [|done].
    injection Hag as Hh Hkk. exists e'. rewrite <- Hh, <- Hkk. done.
  - erewrite <- (list_fmap_ext (sig_of hp) (sig_of hp')); [done|].
    intros i p Hp. apply Hag. by eapply list_elem_of_lookup_2.
Qed.

Lemma FindPointer_agree hp hp' t k hsh :
  agree (content t) hp hp' →
  HT.FindPointer hp t k hsh = HT.FindPointer hp' t k hsh.
Proof.
  intros Hag. unfold HT.FindPointer.
  destruct (list_ t !! _) as [chain|] eqn:Ec; [|done]. simpl.
  rewrite (chain_find_ext hp hp'); [done|].
  intros p Hp. apply Hag, elem_of_join_lookup. eauto.
Qed.

Lemma Lookup_agree hp hp' t k hsh :
  agree (content t) hp hp' →
  HT.Lookup hp t k hsh = HT.Lookup hp' t k hsh.
Proof. intros. unfold HT.Lookup. by rewrite (FindPointer_agree hp hp'). Qed.

Lemma Remove_agree hp hp' t k hsh :
  agree (content t) hp hp' →
  HT.Remove hp t k hsh = HT.Remove hp' t k hsh.
Proof. intros. unfold HT.Remove. by rewrite (FindPointer_agree hp hp'). Qed.

(** ** HandleTable::Remove *)

Lemma placed_insert hp len l i chain' :
  placed hp len l →
  (∀ p, p ∈ chain' → ∃ e, hp !! p = Some e ∧ HT.bucket len (hash e) = i ∧
                          cstr (key_data e) = key_data e) →
  placed hp len (<[i:=chain']> l).
Proof.
  intros Hpl Hc i' c p Hi Hp.
  apply list_lookup_insert_Some in Hi as [(-> & -> & _)|[_ Hi]]; eauto.
Qed.

Lemma Remove_spec hp t k hsh :
  table_wf hp t →
  ∃ t' r, HT.Remove hp t k hsh = Some (t', r) ∧
    HT.Lookup hp t k hsh = Some r ∧
    match r with
    | None => t' = t
    | Some p =>
        table_wf hp t' ∧ content t ≡ₚ p :: content t' ∧
        sig_of hp p = Some (hsh, cstr k) ∧
        length_ t' = length_ t ∧ elems_ t' = elems_ t - 1
    end.
Proof.
  intros Hwf.
  destruct (FindPointer_spec hp t k hsh Hwf) as (j & chain & HF & Hc & _ & Hat).
  unfold HT.Remove, HT.Lookup, HT.load. rewrite HF. simpl. rewrite Hc. simpl.
  destruct (chain !! j) as [p|] eqn:Ej; [|by eexists _, None].
  eexists _, (Some p). split; [done|]. split; [done|].
  set (i := HT.bucket (length_ t) hsh) in *.
  assert (i < length (list_ t))%nat as Hi by (by eapply lookup_lt_Some).
  set (t' := mkTable (length_ t) (wrap32 (elems_ t - 1))
                (<[i:=delete j chain]> (list_ t))).
  assert (content t ≡ₚ p :: content t') as Hperm.
  { unfold content. simpl. rewrite (join_lookup_perm _ i chain Hc).
    rewrite (join_insert_perm _ i _ Hi).
    by rewrite (chain_delete_perm chain j p Ej) at 1. }
  assert (Z.of_nat (length (content t)) = 1 + Z.of_nat (length (content t')))
    as Hel.
  { rewrite Hperm. simpl length. lia. }
  pose proof (twf_elems _ _ Hwf) as Hel0.
  pose proof (twf_load _ _ Hwf) as Hload.
  destruct (twf_pow _ _ Hwf) as (n & Hn & Hlen).
  assert (length_ t <= 2 ^ 31) by (rewrite Hlen; apply Z.pow_le_mono_r; lia).
  assert (wrap32 (elems_ t - 1) = elems_ t - 1) as Hw by (apply wrap32_small; lia).
  split; [|split; [done|split; [done|split; [done|exact Hw]]]].
  split; simpl; rewrite ?Hw.
  - rewrite length_insert. apply Hwf.
  - apply Hwf.
  - lia.
  - lia.
  - apply placed_insert; [apply Hwf|]. intros q Hq.
    apply (twf_placed _ _ Hwf i chain q Hc).
    by eapply list_elem_of_delete_inv.
  - pose proof (twf_nodup _ _ Hwf) as Hnd. rewrite Hperm in Hnd.
    rewrite fmap_cons in Hnd. by apply NoDup_cons in Hnd as [_ ?].
Qed.

(** ** HandleTable::Resize *)

Lemma Resize_length_spec fuel : ∀ k elems,
  2 ≤ k ≤ 31 → elems ≤ 2 ^ 31 → 32 ≤ Z.of_nat fuel + k →
  ∃ k', HT.Resize_length fuel (2 ^ k) elems = Some (2 ^ k') ∧
        k ≤ k' ≤ 31 ∧ elems ≤ 2 ^ k'.
Proof.
  induction fuel as [|fuel IH]; intros k elems Hk He Hf.
  - lia.
  - assert (k = 31 → 2 ^ k = 2 ^ 31) by (by intros ->).
    simpl. destruct (2 ^ k <? elems) eqn:E.
    + apply Z.ltb_lt in E. assert (k < 31) by lia.
      replace (wrap32 (2 ^ k * 2)) with (2 ^ (k + 1)).
      * destruct (IH (k + 1) elems) as (k' & Hr & Hk' & Hle); [lia..|].
        exists k'. split; [done|]. lia.
      * rewrite Z.pow_add_r by lia. symmetry. apply wrap32_small.
        assert (2 ^ k <= 2 ^ 30) by (apply Z.pow_le_mono_r; lia).
        assert (0 < 2 ^ k) by (apply Z.pow_pos_nonneg; lia). lia.
    + apply Z.ltb_ge in E. exists k. split; [done|]. lia.
Qed.

Lemma Resize_chain_spec hp k chain : ∀ acc cnt,
  2 ≤ k ≤ 31 → length acc = Z.to_nat (2 ^ k) → 0 ≤ cnt < 2 ^ 32 →
  placed hp (2 ^ k) acc → chain_ok hp chain →
  ∃ acc', HT.Resize_chain hp (2 ^ k) chain acc cnt
            = Some (acc', wrap32 (cnt + Z.of_nat (length chain))) ∧
    length acc' = length acc ∧ placed hp (2 ^ k) acc' ∧
    mjoin acc' ≡ₚ chain ++ mjoin acc.
Proof.
  induction chain as [|h chain IH]; intros acc cnt Hk Hlen Hcnt Hpl Hok.
  - exists acc. simpl. rewrite Z.add_0_r, wrap32_small by done. done.
  - destruct (Hok h) as (e & He & Hke); [left|].
    simpl. rewrite He. simpl.
    pose proof (bucket_lt k (hash e) Hk) as Hb. rewrite <- Hlen in Hb.
    destruct (lookup_lt_is_Some_2 _ _ Hb) as [c Hc]. rewrite Hc. simpl.
    destruct (IH (<[HT.bucket (2 ^ k) (hash e):=h :: c]> acc) (wrap32 (cnt + 1)))
      as (acc' & Hr & Hlen' & Hpl' & Hperm); try done.
    + by rewrite length_insert.
    + apply wrap32_range.
    + apply placed_insert; [done|]. intros q [->|Hq]%elem_of_cons; [eauto|].
      by apply (Hpl _ c q Hc).
    + intros q Hq. apply Hok. by right.
    + exists acc'. rewrite Hr. split.
      { do 2 f_equal. rewrite wrap32_add_l. f_equal. lia. }
      split; [by rewrite Hlen', length_insert|]. split; [done|].
      rewrite Hperm, (join_insert_perm _ _ _ Hb), (join_lookup_perm _ _ _ Hc).
      simpl. by rewrite <- Permutation_middle.
Qed.

Lemma Resize_buckets_spec hp k buckets : ∀ acc cnt,
  2 ≤ k ≤ 31 → length acc = Z.to_nat (2 ^ k) → 0 ≤ cnt < 2 ^ 32 →
  placed hp (2 ^ k) acc → chain_ok hp (mjoin buckets) →
  ∃ acc', HT.Resize_buckets hp (2 ^ k) buckets acc cnt
            = Some (acc', wrap32 (cnt + Z.of_nat (length (mjoin buckets)))) ∧
    length acc' = length acc ∧ placed hp (2 ^ k) acc' ∧
    mjoin acc' ≡ₚ mjoin buckets ++ mjoin acc.
Proof.
  induction buckets as [|chain bs IH]; intros acc cnt Hk Hlen Hcnt Hpl Hok.
  - exists acc. simpl. rewrite Z.add_0_r, wrap32_small by done. done.
  - simpl in Hok.
    destruct (Resize_chain_spec hp k chain acc cnt) as (acc1 & Hr1 & Hl1 & Hp1 & Hperm1);
      try done.
    { intros q Hq. apply Hok, elem_of_app. by left. }
    destruct (IH acc1 (wrap32 (cnt + Z.of_nat (length chain))))
      as (acc2 & Hr2 & Hl2 & Hp2 & Hperm2); try done.
    { congruence. }
    { apply wrap32_range. }
    { intros q Hq. apply Hok, elem_of_app. by right. }
    exists acc2. simpl. rewrite Hr1. simpl. rewrite Hr2. split.
    { do 2 f_equal. rewrite wrap32_add_l, length_app. f_equal. lia. }
    split; [congruence|]. split; [done|].
    rewrite Hperm2, Hperm1. rewrite (assoc_L (++)).
    by rewrite (Permutation_app_comm (mjoin bs) chain).
Qed.

Lemma placed_replicate hp len n : placed hp len (replicate n []).
Proof.
  intros i chain p Hi Hp. apply lookup_replicate in Hi as [-> _].
  by apply elem_of_nil in Hp.
Qed.

Lemma join_replicate_nil {A} n : mjoin (replicate n ([] : list A)) = [].
Proof. induction n; simpl; done. Qed.

Lemma Resize_spec hp t :
  table_pre hp t →
  ∃ t', HT.Resize hp t = Some t' ∧ table_wf hp t' ∧
        content t' ≡ₚ content t ∧ elems_ t' = elems_ t.
Proof.
  intros [Hlen Hel Hb Hok Hnd].
  destruct (Resize_length_spec 32 2 (elems_ t)) as (k & Hr & Hk & Hle); [lia..|].
  unfold HT.Resize. change 4 with (2 ^ 2). rewrite Hr. simpl.
  rewrite Hlen, Nat2Z.id, firstn_all.
  destruct (Resize_buckets_spec hp k (list_ t) (replicate (Z.to_nat (2 ^ k)) []) 0)
    as (acc & Hrb & Hl & Hpl & Hperm); try done.
  { by rewrite length_replicate. }
  { apply placed_replicate. }
  rewrite Hrb. simpl. rewrite join_replicate_nil, app_nil_r in Hperm.
  fold (content t) in Hrb, Hperm |- *.
  rewrite Z.add_0_l, <- Hel, wrap32_small, Z.eqb_refl.
  2:{ rewrite Hel in *. lia. }
  eexists. split; [done|]. split; [|done].
  rewrite length_replicate in Hl.
  assert (0 < 2 ^ k) by (apply Z.pow_pos_nonneg; lia).
  split; simpl; unfold content; simpl; rewrite ?Hperm; try done.
  - lia.
  - eauto.
Qed.

Lemma HT_new_eq : HT.new = Some (mkTable 4 0 [[]; []; []; []]).
Proof. reflexivity. Qed.

Lemma HT_new_wf hp : table_wf hp (mkTable 4 0 [[]; []; []; []]).
Proof.
  split; simpl; try done.
  - exists 2. done.
  - intros [|[|[|[|i]]]] chain p [= <-] Hp; by apply elem_of_nil in Hp.
  - constructor.
Qed.

(** ** HandleTable::Insert *)

Lemma sig_of_entry hp h e : hp !! h = Some e → sig_of hp h = Some (hash e, key_data e).
Proof. intros H. unfold sig_of. by rewrite H. Qed.

Lemma Insert_spec hp t h e :
  table_wf hp t → hp !! h = Some e → cstr (key_data e) = key_data e →
  h ∉ content t → elems_ t < 2 ^ 31 →
  ∃ t' old, HT.Insert hp t h = Some (t', old) ∧
    HT.Lookup hp t (key e) (hash e) = Some old ∧ table_wf hp t' ∧
    match old with
    | Some o => o :: content t' ≡ₚ h :: content t
    | None => content t' ≡ₚ h :: content t
    end.
Proof.
  intros Hwf He Hk Hfresh Hbound.
  destruct (FindPointer_spec hp t (key e) (hash e) Hwf)
    as (j & chain & HF & Hc & _ & Hat).
  unfold HT.Insert, HT.Lookup, HT.load. rewrite He. simpl. rewrite HF. simpl.
  rewrite Hc. simpl.
  set (i := HT.bucket (length_ t) (hash e)) in *.
  assert (i < length (list_ t))%nat as Hi by (by eapply lookup_lt_Some).
  pose proof (sig_of_entry hp h e He) as Hsh.
  pose proof (twf_elems _ _ Hwf) as Hel.
  pose proof (twf_load _ _ Hwf) as Hload.
  pose proof (twf_nodup _ _ Hwf) as Hnd.
  unfold key in Hat. rewrite Hk in Hat.
  destruct (chain !! j) as [o|] eqn:Ej.
  - set (chain' := take j chain ++ h :: drop (S j) chain).
    set (t1 := mkTable (length_ t) (elems_ t) (<[i:=chain']> (list_ t))).
    assert (o :: content t1 ≡ₚ h :: content t) as Hperm.
    { unfold content. simpl. rewrite (join_lookup_perm _ i chain Hc).
      rewrite (join_insert_perm _ i _ Hi).
      rewrite !app_comm_cons.
      apply Permutation_app; [apply (chain_replace_perm chain j o h Ej)|done]. }
    exists t1, (Some o). split; [done|]. split; [done|]. split; [|done].
    split; simpl.
    + rewrite length_insert. apply Hwf.
    + apply Hwf.
    + apply Permutation_length in Hperm. simpl in Hperm. lia.
    + done.
    + apply placed_insert; [apply Hwf|]. intros q Hq.
      assert (q ∈ h :: chain) as [->|Hqc]%elem_of_cons.
      { rewrite <- (chain_replace_perm chain j o h Ej). right. done. }
      * eauto.
      * by apply (twf_placed _ _ Hwf i chain q Hc).
    + assert (sig_of hp <$> o :: content t1 ≡ₚ sig_of hp <$> h :: content t) as Hp2
        by (by rewrite Hperm).
      rewrite !fmap_cons, Hat, Hsh in Hp2.
      apply Permutation_cons_inv in Hp2. by rewrite Hp2.
  - destruct Hat as [-> Hnone].
    rewrite (chain_append chain _ h Ej eq_refl).
    set (t2 := mkTable (length_ t) (wrap32 (elems_ t + 1))
                 (<[i:=chain ++ [h]]> (list_ t))).
    assert (content t2 ≡ₚ h :: content t) as Hperm.
    { unfold content. simpl. rewrite (join_lookup_perm _ i chain Hc).
      rewrite (join_insert_perm _ i _ Hi).
      rewrite <- (assoc_L (++)). simpl. by rewrite <- Permutation_middle. }
    assert (wrap32 (elems_ t + 1) = elems_ t + 1) as Hw
      by (apply wrap32_small; lia).
    assert (elems_ t + 1 = Z.of_nat (length (content t2))) as Hel2.
    { rewrite Hperm. simpl length. lia. }
    assert (placed hp (length_ t) (<[i:=chain ++ [h]]> (list_ t))) as Hpl.
    { apply placed_insert; [apply Hwf|].
      intros q [Hq|Hq]%elem_of_app.
      - by apply (twf_placed _ _ Hwf i chain q Hc).
      - apply list_elem_of_singleton in Hq as ->. eauto. }
    assert (NoDup (sig_of hp <$> content t2)) as Hnd2.
    { rewrite Hperm, fmap_cons. apply NoDup_cons. split; [|done].
      intros (q & Hq & Hqc)%list_elem_of_fmap. apply (Hnone q Hqc).
      congruence. }
    simpl. rewrite Hw.
    destruct (length_ t <? elems_ t + 1) eqn:Elt.
    + destruct (Resize_spec hp t2) as (t3 & Hr & Hwf3 & Hp3 & _).
      { split; simpl; rewrite ?Hw; try done.
        - rewrite length_insert. apply Hwf.
        - lia.
        - intros q Hq. apply elem_of_join_lookup in Hq as (n & c & Hn & Hqc).
          destruct (Hpl n c q Hn Hqc) as (e' & ? & ? & ?). eauto. }
      rewrite Hr. simpl.
      exists t3, None. split; [done|]. split; [done|]. split; [done|].
      by rewrite Hp3.
    + apply Z.ltb_ge in Elt. exists t2, None.
      split; [done|]. split; [done|]. split; [|done].
      split; simpl; rewrite ?Hw; try done.
      * rewrite length_insert. apply Hwf.
      * apply Hwf.
Qed.

(** ** Counting references *)

Lemma pins_nonneg p l : 0 ≤ pins p l.
Proof. induction l as [|x l IH]; simpl; [done|]. case_decide; lia. Qed.

Lemma pins_app p l1 l2 : pins p (l1 ++ l2) = pins p l1 + pins p l2.
Proof. induction l1 as [|x l1 IH]; simpl; [done|]. lia. Qed.

Global Instance pins_perm p : Proper ((≡ₚ) ==> (=)) (pins p).
Proof.
  intros l l' H. induction H; simpl; try lia.
Qed.

Lemma pins_pos p l : 0 < pins p l ↔ p ∈ l.
Proof.
  induction l as [|x l IH]; simpl.
  - split; [lia | by intros ?%elem_of_nil].
  - pose proof (pins_nonneg p l). rewrite elem_of_cons.
    case_decide; subst; [split; [auto | lia]|].
    rewrite <- IH. split; [intros; right; lia | intros [?|?]; [done | lia]].
Qed.

Lemma pins_zero p l : pins p l = 0 ↔ p ∉ l.
Proof. rewrite <- pins_pos. pose proof (pins_nonneg p l). lia. Qed.

Lemma pins_le_length p l : pins p l ≤ Z.of_nat (length l).
Proof. induction l as [|x l IH]; simpl; [done|]. case_decide; lia. Qed.

Lemma in_cache_range l p : 0 ≤ in_cache l p ≤ 1.
Proof. unfold in_cache. case_decide; lia. Qed.

Lemma in_cache_perm l l' p : l ≡ₚ l' → in_cache l p = in_cache l' p.
Proof.
  intros H. unfold in_cache.
  destruct (decide (p ∈ l)) as [Hin|Hin], (decide (p ∈ l')) as [Hin'|Hin'];
    try done; rewrite H in Hin; done.
Qed.

Lemma in_cache_cons q l p :
  q ∉ l → in_cache (q :: l) p = (if decide (q = p) then 1 else 0) + in_cache l p.
Proof.
  intros Hq. unfold in_cache.
  destruct (decide (q = p)) as [->|Hne].
  - rewrite decide_True by left. by rewrite decide_False.
  - destruct (decide (p ∈ l)).
    + rewrite decide_True; [done | by right].
    + rewrite decide_False; [done|]. intros [?|?]%elem_of_cons; congruence.
Qed.

Lemma in_cache_1 l p : in_cache l p = 1 ↔ p ∈ l.
Proof. unfold in_cache. case_decide; split; try done; lia. Qed.

Lemma in_cache_0 l p : in_cache l p = 0 ↔ p ∉ l.
Proof. unfold in_cache. case_decide; split; try done; lia. Qed.

(** ** Unlinking from the recency list *)

Lemma unlink_spec e l :
  e ∈ l → ∃ l1 l2, l = l1 ++ (e :: l2) ∧ (e ∉ l1) ∧ Impl.unlink e l = Some (l1 ++ l2).
Proof.
  induction l as [|x l IH]; [by intros ?%elem_of_nil|].
  intros Hin. simpl. destruct (decide (x = e)) as [->|Hne].
  - exists [], l. split; [done|]. split; [apply not_elem_of_nil | done].
  - apply elem_of_cons in Hin as [?|Hin]; [congruence|].
    destruct (IH Hin) as (l1 & l2 & -> & Hl1 & ->).
    exists (x :: l1), l2. split; [done|]. split; [|done].
    intros [?|?]%elem_of_cons; congruence.
Qed.

Lemma unlink_perm e l l' : Impl.unlink e l = Some l' → l ≡ₚ e :: l'.
Proof.
  revert l'. induction l as [|x l IH]; intros l'; simpl; [done|].
  destruct (decide (x = e)) as [->|Hne]; [by intros [= ->]|].
  destruct (Impl.unlink e l) as [r|]; simpl; [|done].
  intros [= <-]. rewrite (IH r eq_refl). apply perm_swap.
Qed.

Lemma unlink_head e l : Impl.unlink e (e :: l) = Some l.
Proof. simpl. by rewrite decide_True. Qed.

(** ** The sum of charges *)

Lemma total_charge_insert hp p e :
  hp !! p = None → total_charge (<[p:=e]> hp) = charge e + total_charge hp.
Proof.
  intros H. unfold total_charge.
  rewrite map_fold_insert_L; [done| |done]. intros. lia.
Qed.

Lemma total_charge_delete hp p e :
  hp !! p = Some e → total_charge hp = charge e + total_charge (delete p hp).
Proof.
  intros H. unfold total_charge.
  rewrite (map_fold_delete_L _ _ p e hp); [done| |done]. intros. lia.
Qed.

Lemma total_charge_update hp p e e' :
  hp !! p = Some e → charge e' = charge e →
  total_charge (<[p:=e']> hp) = total_charge hp.
Proof.
  intros H Hc. rewrite <- insert_delete_eq.
  rewrite total_charge_insert by apply lookup_delete_eq.
  rewrite (total_charge_delete hp p e H). lia.
Qed.

Lemma total_charge_empty : total_charge ∅ = 0.
Proof. unfold total_charge. apply map_fold_empty. Qed.

(** ** Unref *)

Lemma agree_store hp p h r l :
  hp !! p = Some h → agree l hp (<[p:=set_refs r h]> hp).
Proof.
  intros Hp q _. unfold sig_of. destruct (decide (q = p)) as [->|Hne].
  - by rewrite lookup_insert_eq, Hp.
  - by rewrite lookup_insert_ne.
Qed.

Lemma agree_delete hp p l : p ∉ l → agree l hp (delete p hp).
Proof.
  intros Hp q Hq. unfold sig_of. rewrite lookup_delete_ne; [done|].
  intros ->. done.
Qed.

Lemma Inv_NoDup_lru m c P : Inv m c P → NoDup (lru_ c).
Proof.
  intros HI. rewrite (inv_lru _ _ _ HI).
  eapply table_wf_NoDup, (inv_table _ _ _ HI).
Qed.

Lemma Inv_lru_heap m c P p :
  Inv m c P → p ∈ lru_ c → ∃ h, heap m !! p = Some h.
Proof.
  intros HI Hp. rewrite (inv_lru _ _ _ HI) in Hp.
  destruct (placed_content _ _ p (inv_table _ _ _ HI) Hp) as (e & ? & _). eauto.
Qed.

Global Instance Inv_perm m c : Proper ((≡ₚ) ==> iff) (Inv m c).
Proof.
  assert (∀ P P', P ≡ₚ P' → Inv m c P → Inv m c P') as H.
  { intros P P' HP [H1 H2 H3 H4 H5 H6]. split; try done.
    - intros p e He. rewrite <- HP. by apply H3.
    - intros p Hp. apply H4. by rewrite HP. }
  intros P P' HP. split; apply H; done.
Qed.

(** Dropping a reference that is listed in [P]. *)
Lemma Unref_inv m c P p P' :
  Inv m c P → P ≡ₚ p :: P' →
  ∃ h m' c', heap m !! p = Some h ∧ Impl.Unref m c p = Some (m', c') ∧
    Inv m' c' P' ∧
    lru_ c' = lru_ c ∧ table_ c' = table_ c ∧ capacity_ c' = capacity_ c ∧
    brk m' = brk m ∧
    ref_dropped p h (p ∈ lru_ c) (p ∈ P') m c m' c'.
Proof.
  intros HI HP.
  apply Inv_perm with (y := p :: P') in HI; [|done]. clear P HP.
  destruct HI as [Ht Hl Hh Hp Hu [Hnd Hlog]].
  destruct (Hp p) as [h Hph]; [left|].
  destruct (Hh p h Hph) as (Hbrk & Hk & Hr & Hrefs). simpl in Hrefs.
  rewrite decide_True in Hrefs by done.
  pose proof (in_cache_range (lru_ c) p) as Hic.
  pose proof (pins_nonneg p P') as Hpn.
  exists h. unfold Impl.Unref. rewrite Hph. simpl.
  rewrite (proj2 (Z.ltb_lt 0 (refs h))) by lia.
  rewrite wrap32_small by lia.
  destruct (refs h - 1 <=? 0) eqn:E.
  - apply Z.leb_le in E. assert (refs h = 1) as Hr1 by lia.
    assert (p ∉ lru_ c) as Hnl by (apply in_cache_0; lia).
    assert (p ∉ P') as Hnp by (apply pins_zero; lia).
    eexists _, _. split; [done|]. split; [done|].
    split; [|repeat split; try done; left; done].
    split; simpl.
    + eapply table_wf_agree; [done|]. apply agree_delete. by rewrite <- Hl.
    + done.
    + intros q e Hq. apply lookup_delete_Some in Hq as [Hne Hq].
      destruct (Hh q e Hq) as (? & ? & ? & Hrq). simpl in Hrq.
      rewrite decide_False in Hrq by done. repeat split; try done; lia.
    + intros q Hq. rewrite lookup_delete_ne by (intros ->; done).
      apply Hp. by right.
    + rewrite Hu, wrap64_sub_l. f_equal.
      rewrite (total_charge_delete _ p h Hph). lia.
    + split.
      * rewrite fmap_app. simpl. apply NoDup_app. split; [done|].
        split; [|apply NoDup_singleton].
        intros x (d & -> & Hd)%list_elem_of_fmap Hx%list_elem_of_singleton.
        destruct (Hlog d Hd) as [_ Hnone]. simpl in Hx. congruence.
      * intros d [Hd|Hd]%elem_of_app.
        -- destruct (Hlog d Hd) as [? Hnone]. split; [done|].
           apply lookup_delete_None. by right.
        -- apply list_elem_of_singleton in Hd as ->. simpl.
           split; [done | apply lookup_delete_eq].
  - apply Z.leb_gt in E.
    eexists _, _. split; [done|]. split; [done|].
    split.
    2:{ repeat split; try done. right. repeat split; try done; [lia|].
        destruct (decide (p ∈ lru_ c)) as [?|Hn]; [by left|right].
        apply in_cache_0 in Hn. apply pins_pos. lia. }
    split; simpl.
    + eapply table_wf_agree; [done|]. by apply agree_store.
    + done.
    + intros q e Hq. apply lookup_insert_Some in Hq as [[<- <-]|[Hne Hq]].
      * simpl. repeat split; try done; lia.
      * destruct (Hh q e Hq) as (? & ? & ? & Hrq). simpl in Hrq.
        rewrite decide_False in Hrq by done. repeat split; try done; lia.
    + intros q Hq. apply lookup_insert_is_Some'. right. apply Hp. by right.
    + rewrite Hu. f_equal. symmetry. by apply (total_charge_update _ p h).
    + split; [done|]. intros d Hd. destruct (Hlog d Hd) as [? Hnone].
      split; [done|]. rewrite lookup_insert_ne; [done|]. congruence.
Qed.

(** Taking [p] out of the table and the recency list leaves the cache
    holding one more loose reference to it. *)
Lemma Inv_detach m c P p t' l' :
  Inv m c P → table_wf (heap m) t' →
  content (table_ c) ≡ₚ p :: content t' → lru_ c ≡ₚ p :: l' →
  Inv m (mkImpl (capacity_ c) (usage_ c) l' t') (p :: P).
Proof.
  intros HI Ht' Hc Hlp.
  pose proof (Inv_NoDup_lru _ _ _ HI) as Hnd. rewrite Hlp in Hnd.
  apply NoDup_cons in Hnd as [Hpl' _].
  destruct HI as [Ht Hl Hh Hp Hu Hlog]. split; simpl; try done.
  - apply (Permutation_cons_inv (a:=p)). by rewrite <- Hc, <- Hl.
  - intros q e Hq. destruct (Hh q e Hq) as (? & ? & ? & Hrq).
    split; [done|]. split; [done|]. split; [done|].
    rewrite Hrq, (in_cache_perm _ _ q Hlp), (in_cache_cons p l' q Hpl').
    simpl. lia.
  - intros q [->|Hq]%elem_of_cons; [|by apply Hp].
    assert (p ∈ content (table_ c)) as Hpc by (rewrite Hc; left).
    destruct (placed_content _ _ p Ht Hpc) as (e & -> & _). eauto.
Qed.

(** ** The shard operations preserve the invariant *)

Lemma Lookup_present hp t p h :
  table_wf hp t → p ∈ content t → hp !! p = Some h →
  HT.Lookup hp t (key h) (hash h) = Some (Some p).
Proof.
  intros Hwf Hp Hh.
  destruct (placed_content _ _ p Hwf Hp) as (h' & Hh' & Hk).
  assert (h' = h) by congruence. subst h'.
  pose proof (sig_of_entry hp p h Hh) as Hs.
  destruct (Lookup_spec hp t (key h) (hash h) Hwf) as (r & Hr & Hspec).
  rewrite Hr. unfold key in Hspec. rewrite Hk in Hspec.
  destruct r as [q|].
  - destruct Hspec as [Hq Hsq]. do 2 f_equal.
    by eapply (sig_inj hp t q p).
  - by destruct (Hspec p Hp).
Qed.

Lemma Lookup_absent hp t k hsh p :
  table_wf hp t → HT.Lookup hp t k hsh = Some None →
  p ∈ content t → sig_of hp p ≠ Some (hsh, cstr k).
Proof.
  intros Hwf Hl Hp. destruct (Lookup_spec hp t k hsh Hwf) as (r & Hr & Hspec).
  assert (r = None) by congruence. subst r. by apply Hspec.
Qed.

Lemma content_removed hp t t' p :
  table_wf hp t → content t ≡ₚ p :: content t' → p ∉ content t'.
Proof.
  intros Hwf Hp. pose proof (table_wf_NoDup _ _ Hwf) as Hnd.
  rewrite Hp in Hnd. by apply NoDup_cons in Hnd as [? _].
Qed.

(** One turn of the eviction loop. *)
Lemma evict_one_inv m c P old rest :
  Inv m c P → lru_ c = old :: rest →
  ∃ h m1 c1, heap m !! old = Some h ∧
    Impl.evict_one m c old = Some (m1, c1) ∧ Inv m1 c1 P ∧
    lru_ c1 = rest ∧ capacity_ c1 = capacity_ c ∧
    content (table_ c) ≡ₚ old :: content (table_ c1) ∧
    (old ∉ content (table_ c1)) ∧ (old ∉ rest) ∧ brk m1 = brk m ∧
    ref_dropped old h False (old ∈ P) m c m1 c1.
Proof.
  intros HI Hl.
  assert (old ∈ lru_ c) as Hin by (rewrite Hl; left).
  destruct (Inv_lru_heap _ _ _ old HI Hin) as [h Hh].
  pose proof (inv_table _ _ _ HI) as Ht.
  assert (old ∈ content (table_ c)) as Hc by (by rewrite <- (inv_lru _ _ _ HI)).
  destruct (Remove_spec (heap m) (table_ c) (key h) (hash h) Ht)
    as (t' & r & HR & HL & Hspec).
  rewrite (Lookup_present _ _ old h Ht Hc Hh) in HL. injection HL as <-.
  destruct Hspec as (Ht' & Hperm & _ & _ & _).
  pose proof (Inv_NoDup_lru _ _ _ HI) as Hnd. rewrite Hl in Hnd.
  apply NoDup_cons in Hnd as [Hnr _].
  assert (Inv m (mkImpl (capacity_ c) (usage_ c) rest t') (old :: P)) as HI1.
  { apply Inv_detach; try done. by rewrite Hl. }
  destruct (Unref_inv _ _ (old :: P) old P HI1 (reflexivity _))
    as (h' & m1 & c1 & Hh' & HU & HI2 & Hl1 & Ht1 & Hcap & Hb & Hd).
  assert (h' = h) by congruence. subst h'.
  exists h, m1, c1. split; [done|]. split.
  { unfold Impl.evict_one, Impl.LRU_Remove. rewrite Hl, unlink_head. simpl.
    rewrite Hh. simpl. rewrite HR. simpl. exact HU. }
  simpl in *. rewrite Ht1. split_and!; try done.
  - apply (content_removed _ _ _ _ Ht Hperm).
  - destruct Hd as [(? & ? & ? & ? & ?)|(? & Hor & ? & ?)]; [left|right].
    + repeat split; try done. tauto.
    + repeat split; try done. destruct Hor; [done|by right].
Qed.

(** The eviction loop. *)
Lemma evict_spec l : ∀ m c P,
  Inv m c P → lru_ c = l →
  ∃ ev m' c', Impl.evict l m c = Some (m', c') ∧
    evict_list ev m c = Some (m', c') ∧ l = ev ++ lru_ c' ∧
    Inv m' c' P ∧ capacity_ c' = capacity_ c ∧ brk m' = brk m ∧
    (usage_ c' ≤ capacity_ c' ∨ lru_ c' = []) ∧
    (∀ ev0 p ev1, ev = ev0 ++ p :: ev1 →
       ∃ m0 c0, evict_list ev0 m c = Some (m0, c0) ∧ Inv m0 c0 P ∧
         lru_ c0 = p :: ev1 ++ lru_ c' ∧ capacity_ c0 < usage_ c0 ∧
         capacity_ c0 = capacity_ c).
Proof.
  induction l as [|old rest IH]; intros m c P HI Hl.
  - exists [], m, c. simpl. split_and!; try done; [by right|].
    intros [|??] ?? ?; done.
  - simpl. destruct (capacity_ c <? usage_ c) eqn:E.
    + apply Z.ltb_lt in E.
      destruct (evict_one_inv m c P old rest HI Hl)
        as (h & m1 & c1 & Hh & H1 & HI1 & Hl1 & Hcap1 & _ & _ & _ & Hb1 & _).
      destruct (IH m1 c1 P HI1 Hl1)
        as (ev & m' & c' & He & Hel & Hsplit & HI' & Hcap' & Hb' & Hstop & Hg).
      exists (old :: ev), m', c'. rewrite H1. simpl. rewrite H1. simpl.
      split; [done|]. split; [done|]. split; [by rewrite Hsplit at 1|].
      split; [done|]. split; [congruence|]. split; [congruence|].
      split; [done|].
      intros [|x ev0] p ev1 Hev; simpl in Hev; injection Hev as -> ->.
      * exists m, c. simpl. split_and!; try done.
        rewrite Hl. f_equal. by rewrite Hsplit at 1.
      * destruct (Hg ev0 p ev1 eq_refl) as (m0 & c0 & H0 & HI0 & Hl0 & Hu0 & Hc0).
        exists m0, c0. simpl. rewrite H1. simpl. split_and!; try done.
        congruence.
    + apply Z.ltb_ge in E. exists [], m, c. simpl.
      split_and!; try done; [by left|]. intros [|??] ?? ?; done.
Qed.

Lemma set_table_same c : Impl.set_table (table_ c) c = c.
Proof. by destruct c. Qed.

(** [Lookup] *)
Lemma Lookup_inv m c P k hsh :
  Inv m c P → Z.of_nat (length P) < 2 ^ 32 - 2 →
  ∃ r, HT.Lookup (heap m) (table_ c) k hsh = Some r ∧
    match r with
    | None => Impl.Lookup m c k hsh = Some (m, c, None)
    | Some p => ∃ h l1 l2,
        heap m !! p = Some h ∧ lru_ c = l1 ++ (p :: l2) ∧ (p ∉ l1) ∧
        Impl.Lookup m c k hsh
          = Some (store m p (set_refs (refs h + 1) h),
                  Impl.set_lru (l1 ++ l2 ++ [p]) c, Some p) ∧
        Inv (store m p (set_refs (refs h + 1) h))
            (Impl.set_lru (l1 ++ l2 ++ [p]) c) (p :: P)
    end.
Proof.
  intros HI Hlen. pose proof (inv_table _ _ _ HI) as Ht.
  destruct (Lookup_spec (heap m) (table_ c) k hsh Ht) as (r & Hr & Hspec).
  exists r. split; [done|]. unfold Impl.Lookup. rewrite Hr. simpl.
  destruct r as [p|]; [|done]. destruct Hspec as [Hpc Hsig].
  destruct (placed_content _ _ p Ht Hpc) as (h & Hh & Hk).
  assert (p ∈ lru_ c) as Hpl by (by rewrite (inv_lru _ _ _ HI)).
  destruct (unlink_spec p (lru_ c) Hpl) as (l1 & l2 & Hl & Hl1 & Hun).
  destruct (inv_heap _ _ _ HI p h Hh) as (Hb & _ & Hr1 & Hrefs).
  pose proof (in_cache_range (lru_ c) p). pose proof (pins_le_length p P).
  assert (wrap32 (refs h + 1) = refs h + 1) as Hw by (apply wrap32_small; lia).
  exists h, l1, l2. split; [done|]. split; [done|]. split; [done|].
  rewrite Hh. simpl. unfold Impl.LRU_Remove. rewrite Hun. simpl.
  unfold Impl.LRU_Append. simpl. rewrite Hw, <- (assoc_L (++)).
  split; [done|].
  assert (l1 ++ l2 ++ [p] ≡ₚ lru_ c) as Hperm.
  { rewrite Hl, (assoc_L (++)), <- Permutation_cons_append.
    by rewrite Permutation_middle. }
  destruct HI as [_ Hlru Hheap Hpin Hu [Hnd Hlog]]. split; simpl.
  - eapply table_wf_agree; [done|]. by apply agree_store.
  - by rewrite Hperm.
  - intros q e Hq. rewrite (in_cache_perm _ _ q Hperm).
    apply lookup_insert_Some in Hq as [[<- <-]|[Hne Hq]].
    + simpl. rewrite decide_True by done. repeat split; try done; lia.
    + destruct (Hheap q e Hq) as (? & ? & ? & Hrq).
      rewrite decide_False by done. repeat split; try done; lia.
  - intros q Hq. apply lookup_insert_is_Some'.
    apply elem_of_cons in Hq as [->|Hq]; [by left | right; by apply Hpin].
  - rewrite Hu. f_equal. symmetry. by apply (total_charge_update _ p h).
  - split; [done|]. intros d Hd. destruct (Hlog d Hd) as [? Hnone].
    split; [done|]. rewrite lookup_insert_ne; [done|]. congruence.
Qed.

(** The effect of dropping a reference on what the table compares. *)
Lemma ref_dropped_agree p h A B m c m' c' l :
  heap m !! p = Some h → ref_dropped p h A B m c m' c' → p ∉ l →
  agree l (heap m) (heap m').
Proof.
  intros Hh [(_ & _ & _ & -> & _)|(_ & _ & -> & _)] Hp; simpl.
  - by apply agree_delete.
  - by apply agree_store.
Qed.

(** [Erase] *)
Lemma Erase_inv m c P k hsh :
  Inv m c P →
  ∃ r, HT.Lookup (heap m) (table_ c) k hsh = Some r ∧
    match r with
    | None => Impl.Erase m c k hsh = Some (m, c)
    | Some p => ∃ h m' c' l1 l2,
        heap m !! p = Some h ∧ Impl.Erase m c k hsh = Some (m', c') ∧
        Inv m' c' P ∧
        lru_ c = l1 ++ (p :: l2) ∧ lru_ c' = l1 ++ l2 ∧ (p ∉ lru_ c') ∧
        content (table_ c) ≡ₚ p :: content (table_ c') ∧
        (p ∉ content (table_ c')) ∧
        capacity_ c' = capacity_ c ∧ brk m' = brk m ∧
        HT.Lookup (heap m') (table_ c') k hsh = Some None ∧
        ref_dropped p h False (p ∈ P) m c m' c'
    end.
Proof.
  intros HI. pose proof (inv_table _ _ _ HI) as Ht.
  destruct (Remove_spec (heap m) (table_ c) k hsh Ht) as (t' & r & HR & HL & Hspec).
  exists r. split; [done|]. unfold Impl.Erase. rewrite HR. simpl.
  destruct r as [p|]; [|by rewrite Hspec, set_table_same].
  destruct Hspec as (Ht' & Hperm & Hsig & _ & _).
  assert (p ∈ lru_ c) as Hpl by (rewrite (inv_lru _ _ _ HI), Hperm; left).
  destruct (unlink_spec p (lru_ c) Hpl) as (l1 & l2 & Hl & Hl1 & Hun).
  pose proof (Inv_NoDup_lru _ _ _ HI) as Hnd. rewrite Hl in Hnd.
  assert (p ∉ l1 ++ l2) as Hnot.
  { rewrite <- Permutation_middle in Hnd. by apply NoDup_cons in Hnd as [? _]. }
  assert (Inv m (mkImpl (capacity_ c) (usage_ c) (l1 ++ l2) t') (p :: P)) as HI1.
  { apply Inv_detach; try done. by rewrite Hl, <- Permutation_middle. }
  destruct (Unref_inv _ _ (p :: P) p P HI1 (reflexivity _))
    as (h & m1 & c1 & Hh & HU & HI2 & Hl1' & Ht1 & Hcap & Hb & Hd).
  simpl in *.
  assert (ref_dropped p h False (p ∈ P) m c m1 c1) as Hd'.
  { destruct Hd as [(? & ? & ? & ? & ?)|(? & Hor & ? & ?)]; [left|right].
    - repeat split; try done. tauto.
    - repeat split; try done. destruct Hor; [done|by right]. }
  pose proof (content_removed _ _ _ _ Ht Hperm) as Hpc.
  exists h, m1, c1, l1, l2. split; [done|]. split.
  { unfold Impl.LRU_Remove. simpl. rewrite Hun. simpl. exact HU. }
  rewrite Hl1', Ht1. split_and!; try done.
  destruct (Lookup_spec (heap m1) (table_ c1) k hsh (inv_table _ _ _ HI2))
    as (r & Hr & Hspec).
  rewrite Ht1 in Hr, Hspec. rewrite Hr. destruct r as [q|]; [exfalso|done].
  destruct Hspec as [Hq Hsq].
  rewrite <- (ref_dropped_agree p h _ _ m c m1 c1 (content t') Hh Hd' Hpc q Hq) in Hsq.
  assert (q = p); [|congruence].
  eapply (sig_inj (heap m) (table_ c)); try done; rewrite Hperm; [by right|left].
Qed.

(** ** Insert *)

Lemma matches_cstr e k hsh : HT.matches e (cstr k) hsh = HT.matches e k hsh.
Proof.
  unfold HT.matches. f_equal.
  by rewrite (strcmp_cstr (cstr k)), (strcmp_cstr k), cstr_idem.
Qed.

Lemma chain_find_cstr hp k hsh chain :
  HT.chain_find hp (cstr k) hsh chain = HT.chain_find hp k hsh chain.
Proof.
  induction chain as [|p chain IH]; [done|]. simpl. rewrite IH.
  destruct (hp !! p); [simpl | done]. by rewrite matches_cstr.
Qed.

Lemma FindPointer_cstr hp t k hsh :
  HT.FindPointer hp t (cstr k) hsh = HT.FindPointer hp t k hsh.
Proof.
  unfold HT.FindPointer. destruct (list_ t !! _); [simpl | done].
  by rewrite chain_find_cstr.
Qed.

Lemma Lookup_cstr hp t k hsh : HT.Lookup hp t (cstr k) hsh = HT.Lookup hp t k hsh.
Proof. unfold HT.Lookup. by rewrite FindPointer_cstr. Qed.

Lemma unlink_app e l l' r :
  Impl.unlink e l = Some l' → Impl.unlink e (l ++ r) = Some (l' ++ r).
Proof.
  revert l'. induction l as [|x l IH]; intros l'; simpl; [done|].
  destruct (decide (x = e)); [by intros [= ->]|].
  destruct (Impl.unlink e l) as [l0|]; simpl; [|done].
  intros [= <-]. by rewrite (IH l0 eq_refl).
Qed.

Lemma in_cache_app X l q :
  NoDup (X ++ l) → in_cache (X ++ l) q = pins q X + in_cache l q.
Proof.
  induction X as [|x X IH]; simpl; intros Hnd; [done|].
  apply NoDup_cons in Hnd as [Hx Hnd].
  rewrite in_cache_cons by done. rewrite IH by done. lia.
Qed.

Lemma Inv_fresh m c P : Inv m c P → heap m !! brk m = None.
Proof.
  intros HI. destruct (heap m !! brk m) as [h|] eqn:E; [|done].
  destruct (inv_heap _ _ _ HI _ _ E) as [? _]. lia.
Qed.

Lemma agree_alloc hp p e l :
  (∀ q, q ∈ l → is_Some (hp !! q)) → hp !! p = None → agree l hp (<[p:=e]> hp).
Proof.
  intros Hl Hp q Hq. unfold sig_of. rewrite lookup_insert_ne; [done|].
  intros ->. destruct (Hl q Hq) as [? ?]. congruence.
Qed.

Lemma content_in_heap m c P q :
  Inv m c P → q ∈ content (table_ c) → is_Some (heap m !! q).
Proof.
  intros HI Hq. destruct (placed_content _ _ q (inv_table _ _ _ HI) Hq) as (e & -> & _).
  eauto.
Qed.

(** [int keyLen = strlen(key)] keeps the length exactly when the length is
    below 2^31. *)
Lemma int_of_fits z : 0 ≤ z → (Impl.int_of z =? z) = true ↔ z < 2 ^ 31.
Proof.
  intros Hz. unfold Impl.int_of. rewrite Z.eqb_eq. split.
  - intros H. pose proof (Z.mod_pos_bound (z + 2 ^ 31) (2 ^ 32) ltac:(done)). lia.
  - intros H. rewrite Z.mod_small by lia. lia.
Qed.

Lemma strlen_nonneg k : 0 ≤ strlen k.
Proof. unfold strlen. lia. Qed.

Lemma Insert_link_defined m c k hsh v chg del r :
  Impl.Insert_link m c k hsh v chg del = Some r → strlen k < 2 ^ 31.
Proof.
  unfold Impl.Insert_link. cbv zeta.
  destruct (Impl.int_of (strlen k) =? strlen k) eqn:E; [|done].
  intros _. by apply (int_of_fits _ (strlen_nonneg k)).
Qed.

Lemma Insert_defined m c k hsh v chg del r :
  Impl.Insert m c k hsh v chg del = Some r → strlen k < 2 ^ 31.
Proof.
  unfold Impl.Insert.
  destruct (Impl.Insert_link m c k hsh v chg del) as [r4|] eqn:E; [|done].
  intros _. by eapply Insert_link_defined.
Qed.

(** A key of 2^31 bytes or more: [Insert] has no defined result. *)
Lemma Insert_undefined m c k hsh v chg del :
  2 ^ 31 ≤ strlen k → Impl.Insert m c k hsh v chg del = None.
Proof.
  intros H. destruct (Impl.Insert m c k hsh v chg del) as [r|] eqn:E; [|done].
  apply Insert_defined in E. lia.
Qed.

(** The state once the new entry is allocated, appended and chained, with
    [X] the entry it displaced from the table, if any, already unlinked. *)
Lemma Inv_attach m c P ent t' l' X :
  Inv m c P → refs ent = 2 → cstr (key_data ent) = key_data ent →
  table_wf (<[brk m:=ent]> (heap m)) t' →
  l' ≡ₚ content t' →
  X ++ content t' ≡ₚ brk m :: content (table_ c) → brk m ∉ X →
  Inv (malloc m ent).1
      (mkImpl (capacity_ c) (wrap64 (usage_ c + charge ent)) l' t')
      (X ++ brk m :: P).
Proof.
  intros HI Hr Hk Ht' Hl' Hperm HX.
  pose proof (Inv_fresh _ _ _ HI) as Hfresh.
  pose proof (Inv_NoDup_lru _ _ _ HI) as Hnd.
  assert (brk m ∉ lru_ c) as Hel.
  { intros Hin. destruct (Inv_lru_heap _ _ _ _ HI Hin) as [? ?]. congruence. }
  assert (brk m ∉ P) as HeP.
  { intros Hin. destruct (inv_pinned _ _ _ HI _ Hin) as [? ?]. congruence. }
  assert (X ++ l' ≡ₚ brk m :: lru_ c) as Hperm'.
  { by rewrite Hl', Hperm, (inv_lru _ _ _ HI). }
  assert (NoDup (X ++ l')) as Hnd'.
  { rewrite Hperm'. by apply NoDup_cons. }
  destruct HI as [Ht Hlru Hheap Hpin Hu [Hndl Hlog]]. split; simpl.
  - done.
  - done.
  - intros q h Hq. rewrite pins_app. simpl.
    apply lookup_insert_Some in Hq as [[<- <-]|[Hne Hq]].
    + rewrite decide_True by done.
      assert (in_cache l' (brk m) = 1) as ->.
      { apply in_cache_1. rewrite Hl'.
        assert (brk m ∈ X ++ content t') as [?|?]%elem_of_app; [|done..].
        rewrite Hperm. left. }
      rewrite (proj2 (pins_zero _ X)), (proj2 (pins_zero _ P)) by done.
      split; [lia|]. split; [done|]. lia.
    + destruct (Hheap q h Hq) as (? & ? & ? & Hrq).
      rewrite decide_False by done.
      split; [lia|]. split; [done|]. split; [done|].
      rewrite Hrq.
      assert (in_cache (lru_ c) q = in_cache (brk m :: lru_ c) q) as ->.
      { rewrite in_cache_cons by done. by rewrite decide_False. }
      rewrite <- (in_cache_perm _ _ q Hperm'), in_cache_app by done. lia.
  - intros q Hq. apply lookup_insert_is_Some'.
    apply elem_of_app in Hq as [Hq|Hq].
    + assert (q ∈ brk m :: content (table_ c)) as [->|Hc]%elem_of_cons.
      { rewrite <- Hperm. apply elem_of_app. by left. }
      * by left.
      * right. destruct (placed_content _ _ q Ht Hc) as (e & -> & _). eauto.
    + apply elem_of_cons in Hq as [->|Hq]; [by left | right; by apply Hpin].
  - rewrite Hu, wrap64_add_l, total_charge_insert by done. f_equal. lia.
  - split; [done|]. intros d Hd. destruct (Hlog d Hd) as [? Hnone].
    split; [lia|]. rewrite lookup_insert_ne; [done|]. lia.
Qed.

Lemma Insert_inv m c P k hsh v chg del :
  Inv m c P → elems_ (table_ c) < 2 ^ 31 → strlen k < 2 ^ 31 →
  let e := brk m in
  let ent := mkLRUHandle v del chg (wrap64 (Impl.int_of (strlen k))) 2 hsh (cstr k) in
  ∃ old m4 c4 m5 c5,
    Impl.Insert_link m c k hsh v chg del = Some (m4, c4, e) ∧
    Impl.Insert m c k hsh v chg del = Some (m5, c5, e) ∧
    HT.Lookup (heap m) (table_ c) k hsh = Some old ∧
    heap m !! e = None ∧ (e ∉ P) ∧ (e ∉ lru_ c) ∧
    Inv m4 c4 (e :: P) ∧ heap m4 !! e = Some ent ∧
    capacity_ c4 = capacity_ c ∧ brk m4 = S (brk m) ∧
    HT.Lookup (heap m4) (table_ c4) k hsh = Some (Some e) ∧
    match old with
    | None =>
        lru_ c4 = lru_ c ++ [e] ∧ m4 = (malloc m ent).1 ∧
        usage_ c4 = wrap64 (usage_ c + chg)
    | Some o => ∃ ho l1 l2 c3,
        heap m !! o = Some ho ∧ lru_ c = l1 ++ (o :: l2) ∧
        lru_ c4 = l1 ++ l2 ++ [e] ∧
        usage_ c3 = wrap64 (usage_ c + chg) ∧
        ref_dropped o ho False (o ∈ P) (malloc m ent).1 c3 m4 c4
    end ∧
    Impl.evict (lru_ c4) m4 c4 = Some (m5, c5).
Proof.
  intros HI Hbound Hkey. cbv zeta.
  set (ent := mkLRUHandle v del chg (wrap64 (Impl.int_of (strlen k))) 2 hsh (cstr k)).
  pose proof (Inv_fresh _ _ _ HI) as Hfresh.
  pose proof (inv_table _ _ _ HI) as Ht.
  assert ((brk m) ∉ lru_ c) as Hel.
  { intros Hin. destruct (Inv_lru_heap _ _ _ _ HI Hin) as [? ?]. congruence. }
  assert ((brk m) ∉ P) as HeP.
  { intros Hin. destruct (inv_pinned _ _ _ HI _ Hin) as [? ?]. congruence. }
  assert ((brk m) ∉ content (table_ c)) as Hec by (by rewrite <- (inv_lru _ _ _ HI)).
  set (hp1 := <[(brk m):=ent]> (heap m)).
  assert (agree (content (table_ c)) (heap m) hp1) as Hag.
  { apply agree_alloc; [|done]. intros q Hq. by eapply content_in_heap. }
  assert (table_wf hp1 (table_ c)) as Ht1 by (by eapply table_wf_agree).
  assert (hp1 !! (brk m) = Some ent) as Hent by apply lookup_insert_eq.
  destruct (Insert_spec hp1 (table_ c) (brk m) ent Ht1 Hent (cstr_idem k) Hec Hbound)
    as (t' & old & HIns & HL & Ht' & Hperm).
  simpl in HL. unfold key in HL. simpl in HL.
  rewrite Lookup_cstr, <- (Lookup_agree (heap m) hp1) in HL by done.
  assert (HT.Lookup hp1 t' k hsh = Some (Some (brk m))) as HLe.
  { rewrite <- Lookup_cstr.
    apply (Lookup_present hp1 t' (brk m) ent Ht'); [|done].
    destruct old as [o|]; [|rewrite Hperm; left].
    assert (brk m ∈ o :: content t') as Hin by (rewrite Hperm; left).
    apply elem_of_cons in Hin as [Heq|?]; [exfalso|done].
    destruct (Lookup_spec (heap m) (table_ c) k hsh Ht) as (r & Hr & Hs).
    rewrite Hr in HL. injection HL as ->. destruct Hs as [Hoc _].
    apply Hec. by rewrite Heq. }
  unfold Impl.Insert, Impl.Insert_link.
  rewrite (proj2 (int_of_fits _ (strlen_nonneg k)) Hkey).
  fold ent. unfold malloc. simpl. fold hp1.
  unfold strcpy. fold ent. fold hp1. rewrite HIns. simpl.
  destruct old as [o|].
  - destruct (Lookup_spec (heap m) (table_ c) k hsh Ht) as (r & Hr & Hs).
    rewrite Hr in HL. injection HL as ->. destruct Hs as [Hoc Hsig].
    assert (o ∈ lru_ c) as Hol by (by rewrite (inv_lru _ _ _ HI)).
    destruct (unlink_spec o (lru_ c) Hol) as (l1 & l2 & Hl & Hl1 & Hun).
    destruct (Inv_lru_heap _ _ _ _ HI Hol) as [ho Hho].
    assert (o ≠ (brk m)) as Hoe by (intros ->; done).
    unfold Impl.LRU_Remove. simpl. rewrite (unlink_app _ _ _ _ Hun). simpl.
    rewrite <- (assoc_L (++)).
    pose proof (Inv_attach m c P ent t' (l1 ++ l2 ++ [(brk m)]) [o] HI eq_refl
                  (cstr_idem k) Ht') as HI3.
    simpl in HI3. unfold malloc in HI3. simpl in HI3. fold hp1 in HI3.
    assert (l1 ++ l2 ++ [brk m] ≡ₚ content t') as Hp1.
    { apply (Permutation_cons_inv (a:=o)).
      rewrite Hperm, <- (inv_lru _ _ _ HI), Hl, <- (Permutation_middle l1 l2 o).
      rewrite (perm_swap o (brk m)). f_equiv.
      rewrite (assoc_L (++)). symmetry. apply Permutation_cons_append. }
    specialize (HI3 Hp1 Hperm ltac:(by intros ?%list_elem_of_singleton)).
    destruct (Unref_inv _ _ _ o ((brk m) :: P) HI3 (reflexivity _))
      as (ho' & m4 & c4 & Hho' & HU & HI4 & Hl4 & Ht4 & Hcap4 & Hb4 & Hd).
    simpl in *.
    assert (ho' = ho).
    { unfold hp1 in Hho'. rewrite lookup_insert_ne in Hho' by done. congruence. }
    subst ho'.
    unfold Impl.set_lru, Impl.set_table, Impl.set_usage, Impl.LRU_Append. simpl.
    rewrite HU. simpl.
    destruct (evict_spec (lru_ c4) m4 c4 ((brk m) :: P) HI4 eq_refl)
      as (ev & m5 & c5 & He & _).
    rewrite He. simpl.
    exists (Some o), m4, c4, m5, c5. split_and!; try done.
    + destruct Hd as [(_ & _ & _ & -> & _)|(_ & _ & -> & _)]; simpl.
      * rewrite lookup_delete_ne by done. done.
      * rewrite lookup_insert_ne by done. done.
    + rewrite Ht4. rewrite <- HLe. symmetry. apply Lookup_agree.
      apply (ref_dropped_agree o ho _ _
               (mkMem hp1 (S (brk m)) (deleted m)) _ m4 c4 _ Hho' Hd).
      intros Hin.
      assert (NoDup (o :: content t')) as Hnd.
      { rewrite Hperm. apply NoDup_cons. split; [done|].
        by eapply table_wf_NoDup. }
      by apply NoDup_cons in Hnd as [? _].
    + exists ho, l1, l2, (mkImpl (capacity_ c) (wrap64 (usage_ c + chg))
                            (l1 ++ l2 ++ [brk m]) t').
      split; [done|]. split; [done|]. split; [done|]. split; [done|].
      destruct Hd as [(? & ? & Hnp & ? & ?)|(? & Hor & ? & ?)]; [left|right].
      * split_and!; try done; [tauto|]. intros Hin. apply Hnp. by right.
      * split_and!; try done. right. destruct Hor as [Hor|Hor].
        -- exfalso.
           pose proof (Inv_NoDup_lru _ _ _ HI) as Hnd. rewrite Hl in Hnd.
           rewrite <- Permutation_middle in Hnd. apply NoDup_cons in Hnd as [Hn _].
           rewrite (assoc_L (++)) in Hor. apply elem_of_app in Hor as [?|Hor]; [done|].
           by apply list_elem_of_singleton in Hor.
        -- apply elem_of_cons in Hor as [?|?]; done.
  - pose proof (Inv_attach m c P ent t' (lru_ c ++ [(brk m)]) [] HI eq_refl
                  (cstr_idem k) Ht') as HI3.
    simpl in HI3. unfold malloc in HI3. simpl in HI3. fold hp1 in HI3.
    assert (lru_ c ++ [brk m] ≡ₚ content t') as Hp1.
    { by rewrite Hperm, <- (inv_lru _ _ _ HI), <- Permutation_cons_append. }
    specialize (HI3 Hp1 Hperm ltac:(apply not_elem_of_nil)).
    destruct (evict_spec _ _ _ ((brk m) :: P) HI3 eq_refl) as (ev & m5 & c5 & He & _).
    simpl in He.
    unfold Impl.set_lru, Impl.set_table, Impl.set_usage, Impl.LRU_Append. simpl.
    rewrite He. simpl.
    eexists None, _, _, m5, c5. split_and!; try done.
Qed.

(** ** Properties of memory preserved by the operations *)

Lemma ref_dropped_closed Q p h A B m c m' c' :
  refs_closed Q → Q m → heap m !! p = Some h →
  ref_dropped p h A B m c m' c' → Q m'.
Proof.
  intros HQ Hm Hh [(_ & _ & _ & -> & _)|(_ & _ & -> & _)];
    destruct (HQ m p h Hm Hh) as [H1 H2]; [done | apply H2].
Qed.

Lemma evict_preserves Q l : ∀ m c P m' c',
  refs_closed Q → Inv m c P → lru_ c = l → Q m →
  Impl.evict l m c = Some (m', c') → Q m'.
Proof.
  induction l as [|old rest IH]; intros m c P m' c' HQ HI Hl Hm; simpl.
  - by intros [= <- <-].
  - destruct (capacity_ c <? usage_ c); [|by intros [= <- <-]].
    destruct (evict_one_inv m c P old rest HI Hl)
      as (h & m1 & c1 & Hh & H1 & HI1 & Hl1 & _ & _ & _ & _ & _ & Hd).
    rewrite H1. simpl. apply (IH m1 c1 P); try done.
    by eapply ref_dropped_closed.
Qed.

Lemma evict_list_app a : ∀ b m c,
  evict_list (a ++ b) m c
  = evict_list a m c ≫= (λ '(m1, c1), evict_list b m1 c1).
Proof.
  induction a as [|x a IH]; intros b m c; simpl; [done|].
  destruct (Impl.evict_one m c x) as [[m1 c1]|]; simpl; [apply IH | done].
Qed.

Lemma last_in_suffix {A} (X ev l : list A) (e : A) :
  X ++ [e] = ev ++ l → l ≠ [] → e ∈ l.
Proof.
  intros H Hne. induction l as [|x l' _] using rev_ind; [done|].
  rewrite (assoc_L (++)) in H. apply app_inj_tail in H as [_ ->].
  apply elem_of_app. right. left.
Qed.

Lemma set_refs_set_refs r r' e : set_refs r (set_refs r' e) = set_refs r e.
Proof. done. Qed.

(** ** Insert and what becomes of the new entry *)

Lemma Insert_binding m c P k hsh v chg del :
  Inv m c P → elems_ (table_ c) < 2 ^ 31 → strlen k < 2 ^ 31 →
  let ent := mkLRUHandle v del chg (wrap64 (Impl.int_of (strlen k))) 2 hsh (cstr k) in
  ∃ m5 c5 r,
    Impl.Insert m c k hsh v chg del = Some (m5, c5, brk m) ∧
    Inv m5 c5 (brk m :: P) ∧ capacity_ c5 = capacity_ c ∧ brk m5 = S (brk m) ∧
    heap m !! brk m = None ∧ (brk m ∉ P) ∧ (brk m ∉ lru_ c) ∧
    heap m5 !! brk m = Some (set_refs r ent) ∧
    (∀ Q, refs_closed Q → Q (malloc m ent).1 → Q m5) ∧
    ((usage_ c5 ≤ capacity_ c5 ∧ brk m ∈ lru_ c5 ∧ r = 2 ∧
      HT.Lookup (heap m5) (table_ c5) k hsh = Some (Some (brk m))) ∨
     (capacity_ c5 < usage_ c5 ∧ lru_ c5 = [] ∧ r = 1 ∧
      HT.Lookup (heap m5) (table_ c5) k hsh = Some None)).
Proof.
  intros HI Hbound Hkey ent.
  destruct (Insert_inv m c P k hsh v chg del HI Hbound Hkey)
    as (old & m4 & c4 & m5 & c5 & Hlink & HIns & HL & Hfresh & HeP & Hel & HI4 & Hent4 &
        Hcap4 & Hb4 & HL4 & Hold & Hev).
  fold ent in Hent4, Hold.
  destruct (evict_spec (lru_ c4) m4 c4 (brk m :: P) HI4 eq_refl)
    as (ev & m5' & c5' & He & Hel5 & Hsplit & HI5 & Hcap5 & Hb5 & Hstop & Hg).
  rewrite Hev in He. injection He as <- <-.
  assert (∀ Q, refs_closed Q → Q (malloc m ent).1 → Q m5) as HQ.
  { intros Q HQ Hm1.
    apply (evict_preserves Q (lru_ c4) m4 c4 (brk m :: P) m5 c5); try done.
    destruct old as [o|].
    - destruct Hold as (ho & l1 & l2 & c3 & Hho & _ & _ & _ & Hd).
      eapply (ref_dropped_closed Q o ho); [done|exact Hm1| |exact Hd].
      simpl. rewrite lookup_insert_ne; [done|]. intros <-. congruence.
    - by destruct Hold as (_ & -> & _). }
  assert (∃ X, lru_ c4 = X ++ [brk m]) as [X HX].
  { destruct old as [o|].
    - destruct Hold as (ho & l1 & l2 & c3 & _ & _ & -> & _).
      exists (l1 ++ l2). by rewrite (assoc_L (++)).
    - destruct Hold as (-> & _). eauto. }
  destruct (inv_pinned _ _ _ HI5 (brk m)) as [he Hhe]; [left|].
  assert (∃ r, he = set_refs r ent) as [r ->].
  { apply (HQ (λ m', ∀ e0, heap m' !! brk m = Some e0 → ∃ r, e0 = set_refs r ent));
      [|by intros e0; simpl; rewrite lookup_insert_eq; intros [= <-]; exists 2|done].
    intros m' p h Hm' Hph. split.
    - intros e0 He0. simpl in He0. apply lookup_delete_Some in He0 as [_ He0].
      by apply Hm'.
    - intros r e0 He0. simpl in He0.
      apply lookup_insert_Some in He0 as [[-> <-]|[_ He0]]; [|by apply Hm'].
      destruct (Hm' h Hph) as [r0 ->]. by exists r. }
  destruct (inv_heap _ _ _ HI5 _ _ Hhe) as (_ & _ & _ & Hrefs).
  simpl in Hrefs. rewrite decide_True in Hrefs by done.
  rewrite (proj2 (pins_zero _ P) HeP) in Hrefs.
  exists m5, c5, r. split; [done|]. split; [done|]. split; [congruence|].
  split; [congruence|]. split; [done|]. split; [done|]. split; [done|].
  split; [done|]. split; [done|].
  destruct (decide (lru_ c5 = [])) as [Hnil|Hne].
  - right.
    assert (ev = X ++ [brk m]) as Hev' by (by rewrite Hsplit, Hnil, app_nil_r in HX).
    destruct (Hg X (brk m) [] Hev') as (m0 & c0 & H0 & HI0 & Hl0 & Hu0 & Hc0).
    rewrite Hnil in Hl0. simpl in Hl0.
    destruct (evict_one_inv m0 c0 (brk m :: P) (brk m) [] HI0 Hl0)
      as (h0 & m1 & c1 & Hh0 & H1 & _ & _ & Hcap1 & _ & _ & _ & _ & Hd).
    rewrite Hev', evict_list_app, H0 in Hel5. simpl in Hel5.
    rewrite H1 in Hel5. simpl in Hel5. injection Hel5 as -> ->.
    assert (usage_ c5 = usage_ c0) as Hu.
    { destruct Hd as [(_ & _ & Hn & _)|(_ & _ & _ & ?)]; [|done].
      exfalso. apply Hn. left. }
    split; [lia|]. split; [done|]. split.
    { rewrite Hnil in Hrefs. unfold in_cache in Hrefs.
      rewrite decide_False in Hrefs by apply not_elem_of_nil. lia. }
    destruct (Lookup_spec (heap m5) (table_ c5) k hsh (inv_table _ _ _ HI5))
      as (q & Hq & Hs).
    rewrite Hq. destruct q as [q|]; [exfalso|done].
    destruct Hs as [Hin _]. rewrite <- (inv_lru _ _ _ HI5), Hnil in Hin.
    by apply elem_of_nil in Hin.
  - left. destruct Hstop as [Hle|?]; [|done].
    assert (brk m ∈ lru_ c5) as Hin.
    { apply (last_in_suffix X ev); [|done]. by rewrite <- HX. }
    split; [done|]. split; [done|]. split.
    { rewrite (proj2 (in_cache_1 _ _) Hin) in Hrefs. lia. }
    rewrite <- Lookup_cstr.
    apply (Lookup_present (heap m5) (table_ c5) (brk m) (set_refs r ent)
             (inv_table _ _ _ HI5)); [|done].
    by rewrite <- (inv_lru _ _ _ HI5).
Qed.

(** ** The client's view is preserved *)

Lemma Ghost_closed b : refs_closed (Ghost b).
Proof.
  intros m p h [Hlen Hheap Hlog Hdone] Hp. split.
  - split; simpl; [done| | |].
    + intros q e Hq. apply lookup_delete_Some in Hq as [_ Hq]. by apply Hheap.
    + intros d [Hd|Hd]%elem_of_app; [by apply Hlog|].
      apply list_elem_of_singleton in Hd as ->. simpl. by apply Hheap.
    + intros q Hq Hnone. rewrite fmap_app. apply elem_of_app.
      apply lookup_delete_None in Hnone as [<-|Hnone]; [right; simpl; left|].
      left. by apply Hdone.
  - intros r. split; simpl; [done| |done|].
    + intros q e Hq. apply lookup_insert_Some in Hq as [[-> <-]|[_ Hq]];
        [by apply (Hheap _ _ Hp) | by apply Hheap].
    + intros q Hq Hnone. apply lookup_insert_None in Hnone as [Hnone _].
      by apply Hdone.
Qed.

Lemma Ghost_malloc b m ent :
  Ghost b m → heap m !! brk m = None →
  Ghost (b ++ [(key_data ent, value ent, deleter ent)]) (malloc m ent).1.
Proof.
  intros [Hlen Hheap Hlog Hdone] Hfresh. split; simpl.
  - rewrite length_app. simpl. lia.
  - intros q e Hq. apply lookup_insert_Some in Hq as [[<- <-]|[_ Hq]].
    + rewrite <- Hlen. by rewrite list_lookup_middle.
    + rewrite lookup_app_l; [by apply Hheap|].
      eapply lookup_lt_Some. by apply Hheap.
  - intros d Hd. rewrite lookup_app_l; [by apply Hlog|].
    eapply lookup_lt_Some. by apply Hlog.
  - intros q Hq Hnone. apply lookup_insert_None in Hnone as [Hnone Hne].
    apply Hdone; [lia | done].
Qed.

Lemma init_eq capacity :
  init capacity
  = Some (mkSys Mem_empty (mkImpl capacity 0 [] (mkTable 4 0 [[]; []; []; []])) [] []).
Proof. reflexivity. Qed.

Lemma Inv_init capacity :
  Inv Mem_empty (mkImpl capacity 0 [] (mkTable 4 0 [[]; []; []; []])) [].
Proof.
  split; simpl.
  - apply HT_new_wf.
  - done.
  - intros p e Hp. by rewrite lookup_empty in Hp.
  - intros p Hp. by apply elem_of_nil in Hp.
  - by rewrite total_charge_empty.
  - split; [constructor|]. intros d Hd. by apply elem_of_nil in Hd.
Qed.

Lemma SysInv_init capacity s : init capacity = Some s → SysInv capacity s.
Proof.
  rewrite init_eq. intros [= <-]. split; simpl.
  - apply Inv_init.
  - done.
  - split; simpl; try done.
    + intros d Hd. by apply elem_of_nil in Hd.
    + intros p Hp. lia.
Qed.

Lemma held_delete_perm (l : list nat) i h : l !! i = Some h → l ≡ₚ h :: delete i l.
Proof. apply chain_delete_perm. Qed.

Lemma step_fits o s s' : step o s = Some s' → op_fits o.
Proof.
  destruct o as [k hsh v chg del|k hsh|i|k hsh]; try done. cbn [step op_fits].
  destruct (Impl.Insert (mem s) (impl s) k hsh v chg del) as [r|] eqn:E; [|done].
  intros _. by eapply Insert_defined.
Qed.

(** Every operation of the client returns, an [Insert] if its key fits, and
    keeps the invariant. *)
Lemma SysInv_step capacity o s :
  SysInv capacity s → in_range s → op_fits o →
  ∃ s', step o s = Some s' ∧ SysInv capacity s'.
Proof.
  intros [HI Hcap Hgh] [Hel Hlen] Hfit. destruct s as [m c P b]. simpl in *.
  destruct o as [k hsh v chg del|k hsh|i|k hsh]; simpl.
  - destruct (Insert_binding m c P k hsh v chg del HI Hel Hfit)
      as (m5 & c5 & r & HIns & HI5 & Hcap5 & _ & Hfresh & _ & _ & _ & HQ & _).
    rewrite HIns. simpl. eexists. split; [done|]. split; simpl; [done|congruence|].
    apply (HQ (Ghost (b ++ [(cstr k, v, del)])) (Ghost_closed _)).
    by apply (Ghost_malloc b m (mkLRUHandle v del chg _ 2 hsh (cstr k))).
  - destruct (Lookup_inv m c P k hsh HI Hlen) as (r & _ & Hr).
    destruct r as [p|].
    + destruct Hr as (h & l1 & l2 & Hh & _ & _ & -> & HI').
      simpl. eexists. split; [done|]. split; simpl; [done|done|].
      by apply (Ghost_closed b m p h).
    + rewrite Hr. simpl. eexists. split; [done|]. by split.
  - destruct (P !! i) as [h|] eqn:Ei; [|eexists; split; [done|by split]].
    destruct (Unref_inv m c P h (delete i P) HI (held_delete_perm _ _ _ Ei))
      as (hh & m' & c' & Hh & HU & HI' & _ & _ & Hcap' & _ & Hd).
    unfold Impl.Release. rewrite HU. simpl. eexists. split; [done|].
    split; simpl; [done|congruence|].
    by eapply (ref_dropped_closed (Ghost b) h hh), Hd; [apply Ghost_closed|..].
  - destruct (Erase_inv m c P k hsh HI) as (r & _ & Hr). destruct r as [p|].
    + destruct Hr as (h & m' & c' & l1 & l2 & Hh & -> & HI' & _ & _ & _ & _ & _ &
                      Hcap' & _ & _ & Hd).
      simpl. eexists. split; [done|]. split; simpl; [done|congruence|].
      by eapply (ref_dropped_closed (Ghost b) p h), Hd; [apply Ghost_closed|..].
    + rewrite Hr. simpl. eexists. split; [done|]. by split.
Qed.

Lemma reachable_SysInv capacity s : reachable capacity s → SysInv capacity s.
Proof.
  induction 1 as [s Hs|s o s' _ IH Hr Hstep].
  - by apply SysInv_init.
  - destruct (SysInv_step capacity o s IH Hr (step_fits _ _ _ Hstep))
      as (s'' & Hs'' & HI'').
    congruence.
Qed.

(** ** Stored keys fit *)

Lemma keys_fit_closed : refs_closed keys_fit.
Proof.
  intros m p h Hm Hp. split.
  - intros q e Hq. cbn [delete_and_free heap] in Hq.
    apply lookup_delete_Some in Hq as [_ Hq]. by apply (Hm q).
  - intros r q e Hq. cbn [store heap] in Hq.
    apply lookup_insert_Some in Hq as [[_ <-]|[_ Hq]]; [|by apply (Hm q)].
    exact (Hm p h Hp).
Qed.

Lemma keys_fit_malloc m ent :
  keys_fit m → Z.of_nat (length (key_data ent)) < 2 ^ 31 →
  keys_fit (malloc m ent).1.
Proof.
  intros Hm He q e Hq. cbn [malloc fst heap] in Hq.
  apply lookup_insert_Some in Hq as [[_ <-]|[_ Hq]]; [done|by apply (Hm q)].
Qed.

(** A property of memory that the changes of reference counts, the
    destructions and the allocation made by [o] preserve is preserved by
    the step. *)
Lemma step_closed (Q : Mem → Prop) capacity o s s' :
  refs_closed Q →
  (∀ k hsh v chg del, o = OInsert k hsh v chg del → strlen k < 2 ^ 31 →
     Q (malloc (mem s)
          (mkLRUHandle v del chg (wrap64 (Impl.int_of (strlen k))) 2 hsh
             (cstr k))).1) →
  SysInv capacity s → in_range s → step o s = Some s' →
  Q (mem s) → Q (mem s').
Proof.
  intros Hcl Hnew [HI Hcap Hgh] [Hel Hlen] Hstep H0.
  pose proof (step_fits _ _ _ Hstep) as Hfit. revert Hstep.
  destruct s as [m c P b]. cbn [mem impl held born] in *.
  destruct o as [k hsh v chg del|k hsh|i|k hsh]; cbn [step mem impl held born].
  - destruct (Insert_binding m c P k hsh v chg del HI Hel Hfit)
      as (m5 & c5 & r & HIns & _ & _ & _ & _ & _ & _ & _ & HQ & _).
    rewrite HIns. cbn [mbind option_bind]. intros [= <-]. cbn [mem].
    by apply (HQ Q Hcl), (Hnew k hsh v chg del).
  - destruct (Lookup_inv m c P k hsh HI Hlen) as (r & _ & Hr).
    destruct r as [p|].
    + destruct Hr as (h & l1 & l2 & Hh & _ & _ & -> & _).
      cbn [mbind option_bind]. intros [= <-]. cbn [mem].
      by apply (Hcl m p h).
    + rewrite Hr. cbn [mbind option_bind]. by intros [= <-].
  - destruct (P !! i) as [h|] eqn:Ei; [|by intros [= <-]].
    destruct (Unref_inv m c P h (delete i P) HI (held_delete_perm _ _ _ Ei))
      as (hh & m' & c' & Hh & HU & _ & _ & _ & _ & _ & Hd).
    unfold Impl.Release. rewrite HU. cbn [mbind option_bind].
    intros [= <-]. cbn [mem].
    exact (ref_dropped_closed Q h hh _ _ m c m' c' Hcl H0 Hh Hd).
  - destruct (Erase_inv m c P k hsh HI) as (r & _ & Hr). destruct r as [p|].
    + destruct Hr as (h & m' & c' & l1 & l2 & Hh & -> & _ & _ & _ & _ & _ & _ &
                      _ & _ & _ & Hd).
      cbn [mbind option_bind]. intros [= <-]. cbn [mem].
      exact (ref_dropped_closed Q p h _ _ m c m' c' Hcl H0 Hh Hd).
    + rewrite Hr. cbn [mbind option_bind]. by intros [= <-].
Qed.

Lemma reachable_keys_fit capacity s : reachable capacity s → keys_fit (mem s).
Proof.
  induction 1 as [s Hs|s o s' Hr IH Hrange Hstep].
  - rewrite init_eq in Hs. injection Hs as <-. intros p e Hp.
    cbn [mem heap Mem_empty] in Hp. by rewrite lookup_empty in Hp.
  - apply (step_closed keys_fit capacity o s s' keys_fit_closed); try done;
      [|by apply reachable_SysInv].
    intros k hsh v chg del _ Hk. apply keys_fit_malloc; [done|].
    cbn [key_data]. exact Hk.
Qed.

(** A key that [Lookup] finds is the key of a stored entry, and so fits. *)
Lemma found_key_fits capacity s k hsh o :
  reachable capacity s →
  HT.Lookup (heap (mem s)) (table_ (impl s)) k hsh = Some (Some o) →
  strlen k < 2 ^ 31.
Proof.
  intros Hr HL. pose proof (reachable_SysInv _ _ Hr) as [HI _ _].
  destruct (Lookup_spec _ _ k hsh (inv_table _ _ _ HI)) as (r & Hr' & Hs).
  rewrite HL in Hr'. injection Hr' as <-. destruct Hs as [Hin Hsig].
  unfold sig_of in Hsig.
  destruct (heap (mem s) !! o) as [eo|] eqn:Eo; [|done].
  cbn [fmap option_fmap option_map] in Hsig. injection Hsig as _ Hkey.
  unfold strlen. rewrite <- Hkey.
  exact (reachable_keys_fit _ _ Hr o eo Eo).
Qed.

Lemma single_key_reachable k hsh capacity s b :
  single_key k hsh capacity s b → reachable capacity s.
Proof.
  induction 1; [by apply reach_init | by eapply reach_step ..].
Qed.

(** ** Long runs and long keys

    The reference count and the key length leave the range of their types
    only after very many operations or on very long keys; these runs are
    described in closed form. *)

Lemma repeat_op_succ n o s :
  repeat_op (N.succ n) o s = repeat_op n o s ≫= step o.
Proof. unfold repeat_op. by rewrite N.iter_succ. Qed.

Lemma Lookup_again r :
  Impl.Lookup (mkMem (<[0%nat := set_refs r entry_a]> ∅) 1 [])
    (mkImpl 10 8 [0%nat] (mkTable 4 1 [[0%nat]; []; []; []])) [x61] 0
  = Some (mkMem (<[0%nat := set_refs (wrap32 (r + 1)) entry_a]> ∅) 1 [],
          mkImpl 10 8 [0%nat] (mkTable 4 1 [[0%nat]; []; []; []]),
          Some 0%nat).
Proof.
  unfold Impl.Lookup. cbn [heap table_].
  assert (HT.Lookup (<[0%nat := set_refs r entry_a]> ∅)
            (mkTable 4 1 [[0%nat]; []; []; []]) [x61] 0 = Some (Some 0%nat))
    as -> by reflexivity.
  cbn [mbind option_bind]. rewrite lookup_insert_eq. cbn [mbind option_bind].
  assert (Impl.LRU_Remove
            (mkImpl 10 8 [0%nat] (mkTable 4 1 [[0%nat]; []; []; []])) 0%nat
          = Some (mkImpl 10 8 [] (mkTable 4 1 [[0%nat]; []; []; []])))
    as -> by reflexivity.
  cbn [mbind option_bind]. unfold store. cbn [heap brk deleted].
  by rewrite insert_insert_eq.
Qed.

Lemma looked_up_step n :
  step (OLookup [x61] 0) (looked_up n) = Some (looked_up (N.succ n)).
Proof.
  unfold looked_up, step. cbn [mem impl held born].
  rewrite Lookup_again. cbn [mbind option_bind].
  rewrite N.iter_succ, wrap32_add_l, N2Z.inj_succ.
  by replace (2 + Z.of_N n + 1) with (2 + Z.succ (Z.of_N n)) by lia.
Qed.

Lemma looked_up_0 : looked_up 0 = one_entry.
Proof. reflexivity. Qed.

(** [n] more [Lookup]s of the key "a" in the state [one_entry]. *)
Lemma lookups_closed_form n :
  repeat_op n (OLookup [x61] 0) one_entry = Some (looked_up n).
Proof.
  induction n as [|n IH] using N.peano_ind.
  - by rewrite <- looked_up_0.
  - rewrite repeat_op_succ, IH. cbn [mbind option_bind]. apply looked_up_step.
Qed.

Lemma strlen_cons_a l : strlen (x61 :: l) = 1 + strlen l.
Proof. unfold strlen. cbn [cstr]. change (is_nul x61) with false. cbn [length]. lia. Qed.

Lemma strlen_iter n : strlen (N.iter n (cons x61) []) = Z.of_N n.
Proof.
  induction n as [|n IH] using N.peano_ind; [done|].
  rewrite N.iter_succ, strlen_cons_a, IH. lia.
Qed.

Lemma strlen_long_key : strlen long_key = 2 ^ 31.
Proof. unfold long_key. by rewrite strlen_iter. Qed.

(** After 2^32 - 2 more [Lookup]s the reference count has wrapped to 0. *)
Lemma looked_up_wrapped_0 :
  mem (looked_up (2 ^ 32 - 2)) = mkMem (<[0%nat := set_refs 0 entry_a]> ∅) 1 [] ∧
  impl (looked_up (2 ^ 32 - 2))
  = mkImpl 10 8 [0%nat] (mkTable 4 1 [[0%nat]; []; []; []]).
Proof. split; reflexivity. Qed.

(** After 2^32 - 1 more [Lookup]s it is 1, with 2^32 handles held. *)
Lemma looked_up_wrapped_1 :
  looked_up (2 ^ 32 - 1)
  = mkSys (mkMem (<[0%nat := set_refs 1 entry_a]> ∅) 1 [])
          (mkImpl 10 8 [0%nat] (mkTable 4 1 [[0%nat]; []; []; []]))
          (0%nat :: N.iter (2 ^ 32 - 2) (cons 0%nat) [0%nat]) [([x61], 101, 7)].
Proof.
  unfold looked_up.
  assert (wrap32 (2 + Z.of_N (2 ^ 32 - 1)) = 1) as -> by reflexivity.
  assert ((2 ^ 32 - 1)%N = N.succ (2 ^ 32 - 2)) as -> by reflexivity.
  by rewrite N.iter_succ.
Qed.

Lemma Release_last_handle (hs : list nat) (b : list (list byte * Z * Z)) :
  step (ORelease 0)
    (mkSys (mkMem (<[0%nat := set_refs 1 entry_a]> ∅) 1 [])
       (mkImpl 10 8 [0%nat] (mkTable 4 1 [[0%nat]; []; []; []])) (0%nat :: hs) b)
  = Some (mkSys (mkMem ∅ 1 [mkCall 0%nat 7 [x61] 101])
            (mkImpl 10 0 [0%nat] (mkTable 4 1 [[0%nat]; []; []; []])) hs b).
Proof. reflexivity. Qed.

(** * Part IV: the claims *)

(** ** Keys are C strings (C10) *)

Lemma cstr_app_nul s t : cstr (s ++ x00 :: t) = cstr s.
Proof.
  induction s as [|b s IH]; simpl; [done|].
  destruct (is_nul b); [done | by rewrite IH].
Qed.

Lemma Hash_cstr sgn k1 k2 seed :
  cstr k1 = cstr k2 →
  Hash sgn k1 (strlen k1) seed = Hash sgn k2 (strlen k2) seed.
Proof.
  intros H. unfold Hash. rewrite !cstr_take. unfold strlen. by rewrite H.
Qed.

Lemma Remove_cstr hp t k hsh : HT.Remove hp t (cstr k) hsh = HT.Remove hp t k hsh.
Proof. unfold HT.Remove. by rewrite FindPointer_cstr. Qed.

Lemma Impl_Insert_cstr m c k1 k2 hsh v chg del :
  cstr k1 = cstr k2 →
  Impl.Insert m c k1 hsh v chg del = Impl.Insert m c k2 hsh v chg del.
Proof.
  intros H. unfold Impl.Insert, Impl.Insert_link, strlen, strcpy. by rewrite H.
Qed.

Lemma Impl_Lookup_cstr m c k1 k2 hsh :
  cstr k1 = cstr k2 → Impl.Lookup m c k1 hsh = Impl.Lookup m c k2 hsh.
Proof.
  intros H. unfold Impl.Lookup.
  by rewrite <- (Lookup_cstr _ _ k1), H, Lookup_cstr.
Qed.

Lemma Impl_Erase_cstr m c k1 k2 hsh :
  cstr k1 = cstr k2 → Impl.Erase m c k1 hsh = Impl.Erase m c k2 hsh.
Proof.
  intros H. unfold Impl.Erase.
  by rewrite <- (Remove_cstr _ _ k1), H, Remove_cstr.
Qed.

(** C10.  Two keys whose bytes agree up to their first NUL byte denote the
    same C string; the hash of the key, [Insert], [Lookup] and [Erase] of
    the sharded cache then give the same result on both, from any state:
    whatever follows the first NUL byte is never read. *)
Theorem C10_keys_end_at_NUL (sgn : bool) (m : Mem) (sc : ShardedLRUCache)
    (k1 k2 : list byte) (v chg del : Z) :
  cstr k1 = cstr k2 →
  Sharded.HashSlice sgn k1 = Sharded.HashSlice sgn k2 ∧
  Sharded.Insert sgn m sc k1 v chg del = Sharded.Insert sgn m sc k2 v chg del ∧
  Sharded.Lookup sgn m sc k1 = Sharded.Lookup sgn m sc k2 ∧
  Sharded.Erase sgn m sc k1 = Sharded.Erase sgn m sc k2.
Proof.
  intros H.
  assert (Sharded.HashSlice sgn k1 = Sharded.HashSlice sgn k2) as Hh
    by (by apply Hash_cstr).
  split; [done|].
  unfold Sharded.Insert, Sharded.Lookup, Sharded.Erase. rewrite Hh.
  destruct (shard_ sc !! _) as [c|]; simpl; [|done].
  by rewrite (Impl_Insert_cstr m c k1 k2), (Impl_Lookup_cstr m c k1 k2),
    (Impl_Erase_cstr m c k1 k2).
Qed.

(** ** NewId (C8) *)

Lemma wrap64_idem z : wrap64 (wrap64 z) = wrap64 z.
Proof. unfold wrap64. apply Z.mod_mod. lia. Qed.

Lemma after_NewId_last_id n sc :
  wrap64 (last_id_ (after_NewId n sc)) = wrap64 (last_id_ sc + Z.of_N n).
Proof.
  unfold after_NewId. induction n as [|n IH] using N.peano_ind.
  - simpl. f_equal. lia.
  - rewrite N.iter_succ.
    set (s0 := N.iter n _ sc) in *. unfold Sharded.NewId. simpl.
    rewrite wrap64_idem, <- wrap64_add_l, IH, wrap64_add_l. f_equal. lia.
Qed.

Lemma id_of_call_eq sc n :
  id_of_call sc n = wrap64 (last_id_ sc + Z.of_N n + 1).
Proof.
  unfold id_of_call, Sharded.NewId. simpl.
  by rewrite <- wrap64_add_l, after_NewId_last_id, wrap64_add_l.
Qed.

Lemma New_last_id capacity sc : Sharded.New capacity = Some sc → last_id_ sc = 0.
Proof. unfold Sharded.New. simpl. by intros [= <-]. Qed.

(** C8.  On a cache made by [New] the counter starts at 0 and call number
    [n + 1] of [NewId] returns [n + 1], for every [n] below 2^64 - 1: the
    first call returns 1, every call returns more than all the calls before
    it, and the values are pairwise distinct. *)
Theorem C8_NewId_increasing (capacity : Z) (sc : ShardedLRUCache) (n : N) :
  Sharded.New capacity = Some sc → (n < 2 ^ 64 - 1)%N →
  last_id_ sc = 0 ∧ id_of_call sc 0 = 1 ∧
  id_of_call sc n = Z.of_N n + 1 ∧
  ∀ i, (i < n)%N → id_of_call sc i < id_of_call sc n ∧
                   id_of_call sc i ≠ id_of_call sc n.
Proof.
  intros HN Hn. pose proof (New_last_id _ _ HN) as H0.
  assert (∀ i, (i <= n)%N → id_of_call sc i = Z.of_N i + 1) as Hid.
  { intros i Hi. rewrite id_of_call_eq, H0. apply wrap64_small. lia. }
  split; [done|]. split; [apply (Hid 0%N); lia|]. split; [apply Hid; lia|].
  intros i Hi. rewrite (Hid i), (Hid n) by lia. lia.
Qed.

(** The counter is a 64-bit unsigned integer without wrap-around handling:
    call number 2^64 - 1 returns 2^64 - 1 and call number 2^64, which no
    run makes, would return 0. *)
Lemma id_of_call_wraps capacity sc :
  Sharded.New capacity = Some sc →
  id_of_call sc (2 ^ 64 - 2) = 2 ^ 64 - 1 ∧ id_of_call sc (2 ^ 64 - 1) = 0.
Proof.
  intros E. rewrite !id_of_call_eq, (New_last_id _ _ E). split; reflexivity.
Qed.

(** ** HandleTable::Insert (C6) *)

Lemma chain_find_first hp k hsh c1 o c2 eo :
  (∀ p, p ∈ c1 → differs hp k hsh p) →
  hp !! o = Some eo → HT.matches eo k hsh = true →
  HT.chain_find hp k hsh (c1 ++ o :: c2) = Some (length c1).
Proof.
  intros Hd Ho Hm. induction c1 as [|p c1 IH]; simpl.
  - by rewrite Ho; simpl; rewrite Hm.
  - destruct (Hd p) as (ep & -> & Hp); [left|]. simpl. rewrite Hp.
    rewrite IH; [done|]. intros q Hq. apply Hd. by right.
Qed.

Lemma chain_find_none hp k hsh chain :
  (∀ p, p ∈ chain → differs hp k hsh p) →
  HT.chain_find hp k hsh chain = Some (length chain).
Proof.
  intros Hd. induction chain as [|p c1 IH]; simpl; [done|].
  destruct (Hd p) as (ep & -> & Hp); [left|]. simpl. rewrite Hp.
  rewrite IH; [done|]. intros q Hq. apply Hd. by right.
Qed.



(** ** Erase (C7) *)

Lemma Impl_Lookup_miss m c k hsh :
  HT.Lookup (heap m) (table_ c) k hsh = Some None →
  Impl.Lookup m c k hsh = Some (m, c, None).
Proof. intros H. unfold Impl.Lookup. by rewrite H. Qed.

(** C7, as amended.  In every state the client reaches while the 32-bit
    counters are in range [Erase] returns.  If the table has no entry for
    the key, nothing changes at all: memory (hence the reference counts and
    the deleter log) and the shard (hence the usage) are the same.  If it
    has the entry [p], that entry leaves the table and the recency list,
    whose other entries keep their order, and exactly one reference to it is
    dropped.  Either way a second [Erase] changes nothing and a [Lookup] of
    the key misses. *)
Theorem C7_Erase (capacity : Z) (s : Sys) (k : list byte) (hsh : Z) :
  reachable capacity s →
  ∃ r m' c',
    HT.Lookup (heap (mem s)) (table_ (impl s)) k hsh = Some r ∧
    Impl.Erase (mem s) (impl s) k hsh = Some (m', c') ∧
    Impl.Erase m' c' k hsh = Some (m', c') ∧
    Impl.Lookup m' c' k hsh = Some (m', c', None) ∧
    match r with
    | None => m' = mem s ∧ c' = impl s
    | Some p => ∃ h l1 l2,
        heap (mem s) !! p = Some h ∧
        lru_ (impl s) = l1 ++ (p :: l2) ∧ lru_ c' = l1 ++ l2 ∧
        (p ∉ lru_ c') ∧ (p ∉ content (table_ c')) ∧
        content (table_ (impl s)) ≡ₚ p :: content (table_ c') ∧
        ref_dropped p h False (p ∈ held s) (mem s) (impl s) m' c'
    end.
Proof.
  intros Hr. pose proof (si_inv _ _ (reachable_SysInv _ _ Hr)) as HI.
  destruct (Erase_inv _ _ _ k hsh HI) as (r & HL & Hspec).
  destruct r as [p|].
  - destruct Hspec as (h & m' & c' & l1 & l2 & Hh & HE & HI' & Hl & Hl' & Hnl &
                       Hperm & Hnc & _ & _ & HL' & Hd).
    exists (Some p), m', c'. split; [done|]. split; [done|].
    destruct (Erase_inv _ _ _ k hsh HI') as (r' & HL'' & Hspec').
    rewrite HL' in HL''. injection HL'' as <-.
    split; [done|]. split; [by apply Impl_Lookup_miss|].
    exists h, l1, l2. done.
  - exists None, (mem s), (impl s). split; [done|]. split; [done|].
    split; [done|]. split; [by apply Impl_Lookup_miss | done].
Qed.

(** C7 as stated fails in a state reached with the reference count out of
    range: after an [Insert] of the key "a" and 2^32 - 2 [Lookup]s of it,
    every handle kept, the 32-bit count of the entry has wrapped to 0.  The
    key is present, but [Erase] fails the assertion [e->refs > 0] of [Unref]
    and has no defined result. *)
Lemma C7_counterexample :
  init 10 = Some fresh10 ∧
  step (OInsert [x61] 0 101 8 7) fresh10 = Some one_entry ∧
  repeat_op (2 ^ 32 - 2) (OLookup [x61] 0) one_entry
  = Some (looked_up (2 ^ 32 - 2)) ∧
  HT.Lookup (heap (mem (looked_up (2 ^ 32 - 2))))
    (table_ (impl (looked_up (2 ^ 32 - 2)))) [x61] 0 = Some (Some 0%nat) ∧
  refs <$> heap (mem (looked_up (2 ^ 32 - 2))) !! 0%nat = Some 0 ∧
  Impl.Erase (mem (looked_up (2 ^ 32 - 2))) (impl (looked_up (2 ^ 32 - 2)))
    [x61] 0 = None.
Proof.
  split; [reflexivity|]. split; [vm_compute; reflexivity|].
  split; [apply lookups_closed_form|].
  destruct looked_up_wrapped_0 as [-> ->].
  split_and!; vm_compute; reflexivity.
Qed.

(** ** An Insert that evicts its own entry (C9) *)

Lemma Unref_last m c e h :
  heap m !! e = Some h → refs h = 1 →
  Impl.Unref m c e
  = Some (delete_and_free m e h, Impl.set_usage (wrap64 (usage_ c - charge h)) c).
Proof. intros Hh Hr. unfold Impl.Unref. rewrite Hh. simpl. by rewrite Hr. Qed.

(** C9, as amended.  In every reachable state whose 32-bit counters are in
    range, [Insert] of a key shorter than 2^31 bytes returns a handle [e]
    that is allocated and whose value is the one inserted.  The new entry is
    off the recency list afterwards exactly when the usage still exceeds the
    capacity, that is when evicting every older entry did not make room; the
    eviction loop has then emptied the list and removed the new entry from
    the table, a [Lookup] of the key misses, and the handle holds the only
    reference: one [Release] calls the deleter with the stored key and the
    value, and frees the entry. *)
Theorem C9_Insert_may_evict_itself (capacity : Z) (s : Sys)
    (k : list byte) (hsh v chg del : Z) :
  reachable capacity s → in_range s → strlen k < 2 ^ 31 →
  ∃ s' h, step (OInsert k hsh v chg del) s = Some s' ∧
    held s' = brk (mem s) :: held s ∧
    heap (mem s') !! brk (mem s) = Some h ∧
    Sharded.Value (mem s') (brk (mem s)) = Some v ∧
    (capacity_ (impl s') < usage_ (impl s') ↔ brk (mem s) ∉ lru_ (impl s')) ∧
    (capacity_ (impl s') < usage_ (impl s') →
       lru_ (impl s') = [] ∧ (brk (mem s) ∉ content (table_ (impl s'))) ∧
       Impl.Lookup (mem s') (impl s') k hsh = Some (mem s', impl s', None) ∧
       refs h = 1 ∧
       Impl.Release (mem s') (impl s') (brk (mem s))
       = Some (mkMem (delete (brk (mem s)) (heap (mem s'))) (brk (mem s'))
                 (deleted (mem s') ++ [mkCall (brk (mem s)) del (cstr k) v]),
               Impl.set_usage (wrap64 (usage_ (impl s') - chg)) (impl s'))).
Proof.
  intros Hr [Hel _] Hkey.
  pose proof (si_inv _ _ (reachable_SysInv _ _ Hr)) as HI.
  destruct (Insert_binding _ _ _ k hsh v chg del HI Hel Hkey)
    as (m5 & c5 & r & HIns & HI5 & _ & _ & _ & _ & _ & Hent & _ & Hcase).
  simpl. rewrite HIns. simpl. eexists _, _. split; [done|]. simpl.
  split; [done|]. split; [exact Hent|].
  split; [unfold Sharded.Value; by rewrite Hent|].
  destruct Hcase as [(Hle & Hin & -> & HL)|(Hgt & Hnil & -> & HL)].
  - split; [split; [lia | done] | lia].
  - split; [split; [intros _; rewrite Hnil; apply not_elem_of_nil | done]|].
    intros _. split; [done|]. split.
    { rewrite <- (inv_lru _ _ _ HI5), Hnil. apply not_elem_of_nil. }
    split; [by apply Impl_Lookup_miss|]. split; [done|].
    unfold Impl.Release. by rewrite (Unref_last _ _ _ _ Hent eq_refl).
Qed.

(** C9 as stated fails for a key of 2^31 bytes, whose length does not fit
    the [int] that sizes the new entry: on a fresh shard of capacity 10 an
    [Insert] of such a key with charge 11 has no defined result, and returns
    no handle.  It fails as well with the reference count out of range:
    after an [Insert] of the key "a" and 2^32 - 2 [Lookup]s of it the count
    of that entry is 0, and an [Insert] of the key "b" with charge 11, whose
    eviction loop has to evict the entry, fails the assertion of [Unref]. *)
Lemma C9_counterexample :
  init 10 = Some fresh10 ∧
  step (OInsert long_key 0 101 11 7) fresh10 = None ∧
  step (OInsert [x61] 0 101 8 7) fresh10 = Some one_entry ∧
  repeat_op (2 ^ 32 - 2) (OLookup [x61] 0) one_entry
  = Some (looked_up (2 ^ 32 - 2)) ∧
  capacity_ (impl (looked_up (2 ^ 32 - 2))) = 10 ∧
  usage_ (impl (looked_up (2 ^ 32 - 2))) = 8 ∧
  Impl.Insert (mem (looked_up (2 ^ 32 - 2))) (impl (looked_up (2 ^ 32 - 2)))
    [x62] 1 102 11 7 = None.
Proof.
  split; [reflexivity|]. split.
  { cbn [step]. rewrite Insert_undefined; [done|].
    rewrite strlen_long_key. lia. }
  split; [vm_compute; reflexivity|].
  split; [apply lookups_closed_form|].
  destruct looked_up_wrapped_0 as [-> ->].
  split_and!; vm_compute; reflexivity.
Qed.

(** ** The usage counter (C1) *)

(** C1, as amended.  In every reachable state the usage counter is the sum,
    modulo 2^64, of the charges of all entries not yet destroyed, and these
    are the entries on the recency list together with the entries a handle
    still pins: an entry that was evicted, overwritten or erased keeps
    counting until its last handle is released.  An [Insert] of a key
    shorter than 2^31 bytes, made while the 32-bit counters are in range,
    returns with the usage at most the capacity, or with the recency list
    empty. *)
Theorem C1_usage (capacity : Z) (s : Sys) :
  reachable capacity s →
  usage_ (impl s) = wrap64 (total_charge (heap (mem s))) ∧
  (∀ p, is_Some (heap (mem s) !! p) ↔ p ∈ lru_ (impl s) ∨ p ∈ held s) ∧
  (∀ k hsh v chg del, in_range s → strlen k < 2 ^ 31 →
     ∃ s', step (OInsert k hsh v chg del) s = Some s' ∧
       (usage_ (impl s') ≤ capacity_ (impl s') ∨ lru_ (impl s') = [])).
Proof.
  intros Hr. pose proof (si_inv _ _ (reachable_SysInv _ _ Hr)) as HI.
  split; [apply HI|]. split.
  - intros p. split.
    + intros [e He]. destruct (inv_heap _ _ _ HI p e He) as (_ & _ & Hrf & Hrefs).
      destruct (decide (p ∈ lru_ (impl s))) as [?|Hn]; [by left|right].
      apply in_cache_0 in Hn. apply pins_pos. lia.
    + intros [Hp|Hp]; [by eapply Inv_lru_heap | by eapply inv_pinned].
  - intros k hsh v chg del [Hel _] Hkey.
    destruct (Insert_binding _ _ _ k hsh v chg del HI Hel Hkey)
      as (m5 & c5 & r & HIns & _ & _ & _ & _ & _ & _ & _ & _ & Hcase).
    simpl. rewrite HIns. simpl. eexists. split; [done|]. simpl.
    destruct Hcase as [(Hle & _)|(_ & Hnil & _)]; [by left | by right].
Qed.

(** C1 as stated fails: with capacity 10, insert key "a" with charge 8 and
    keep the handle, then insert key "a" again with charge 1.  The first
    entry is overwritten but still pinned; the usage counter is 9 while the
    entries on the recency list, the second entry alone, have charge 1. *)
Lemma C1_counterexample :
  (s0 ← init 10;
   s1 ← step (OInsert [x61] 0 101 8 7) s0;
   s2 ← step (OInsert [x61] 0 102 1 7) s1;
   Some (usage_ (impl s2), cached_charge (mem s2) (impl s2), lru_ (impl s2),
         held s2))
  = Some (9, 1, [1%nat], [1%nat; 0%nat]).
Proof. vm_compute. reflexivity. Qed.

(** ** The eviction loop (C2) *)



(** ** Lookup after operations on a single key (C3) *)

Lemma ref_dropped_lookup m c P p h B m' c' k hsh :
  Inv m c P → heap m !! p = Some h →
  ref_dropped p h (p ∈ lru_ c) B m c m' c' →
  HT.Lookup (heap m') (table_ c) k hsh = HT.Lookup (heap m) (table_ c) k hsh ∧
  ∀ e, e ∈ content (table_ c) → Sharded.Value m' e = Sharded.Value m e.
Proof.
  intros HI Hh Hd. unfold Sharded.Value.
  destruct Hd as [(_ & Hn & _ & -> & _)|(_ & _ & -> & _)]; simpl.
  - rewrite (inv_lru _ _ _ HI) in Hn. split.
    + symmetry. by apply Lookup_agree, agree_delete.
    + intros e He. rewrite lookup_delete_ne; [done|]. by intros ->.
  - split.
    + symmetry. by apply Lookup_agree, agree_store.
    + intros e He. destruct (decide (e = p)) as [->|Hne].
      * by rewrite lookup_insert_eq, Hh.
      * by rewrite lookup_insert_ne.
Qed.

Lemma store_lookup m c p h r k hsh :
  heap m !! p = Some h →
  HT.Lookup (heap (store m p (set_refs r h))) (table_ c) k hsh
  = HT.Lookup (heap m) (table_ c) k hsh ∧
  ∀ e, Sharded.Value (store m p (set_refs r h)) e = Sharded.Value m e.
Proof.
  intros Hh. unfold Sharded.Value. simpl. split.
  - symmetry. by apply Lookup_agree, agree_store.
  - intros e. destruct (decide (e = p)) as [->|Hne].
    + by rewrite lookup_insert_eq, Hh.
    + by rewrite lookup_insert_ne.
Qed.

Lemma bind_Value_content m m' (t : HandleTable) hp k hsh r :
  table_wf hp t → HT.Lookup hp t k hsh = Some r →
  (∀ e, e ∈ content t → Sharded.Value m' e = Sharded.Value m e) →
  r ≫= Sharded.Value m' = r ≫= Sharded.Value m.
Proof.
  intros Hwf HL Hv. destruct r as [e|]; [simpl|done]. apply Hv.
  destruct (Lookup_spec hp t k hsh Hwf) as (r & Hr & Hs).
  rewrite Hr in HL. injection HL as ->. by destruct Hs.
Qed.

Lemma single_key_binding k hsh capacity s b :
  single_key k hsh capacity s b →
  ∃ r, HT.Lookup (heap (mem s)) (table_ (impl s)) k hsh = Some r ∧
       r ≫= Sharded.Value (mem s) = b.
Proof.
  induction 1 as [s Hs|s b v chg del s' Hsk IH [Hel Hlen] Hst|
                  s b s' Hsk IH [Hel Hlen] Hst|s b i s' Hsk IH [Hel Hlen] Hst|
                  s b s' Hsk IH [Hel Hlen] Hst].
  - rewrite init_eq in Hs. injection Hs as <-. simpl.
    destruct (Lookup_spec ∅ (mkTable 4 0 [[]; []; []; []]) k hsh (HT_new_wf ∅))
      as (r & Hr & Hspec).
    exists r. split; [done|]. destruct r as [p|]; [|done].
    destruct Hspec as [Hp _]. by apply elem_of_nil in Hp.
  - pose proof (si_inv _ _ (reachable_SysInv _ _ (single_key_reachable _ _ _ _ _ Hsk)))
      as HI.
    destruct (Insert_binding _ _ _ k hsh v chg del HI Hel (step_fits _ _ _ Hst))
      as (m5 & c5 & r & HIns & _ & _ & _ & _ & _ & _ & Hent & _ & Hcase).
    simpl in Hst. rewrite HIns in Hst. simpl in Hst. injection Hst as <-. simpl.
    destruct Hcase as [(Hle & _ & _ & HL)|(Hgt & _ & _ & HL)].
    + rewrite (proj2 (Z.leb_le _ _) Hle). eexists. split; [exact HL|]. simpl.
      unfold Sharded.Value. by rewrite Hent.
    + rewrite (proj2 (Z.leb_gt _ _) Hgt). eexists. split; [exact HL|]. done.
  - pose proof (si_inv _ _ (reachable_SysInv _ _ (single_key_reachable _ _ _ _ _ Hsk)))
      as HI.
    destruct IH as (r0 & HL0 & Hb).
    destruct (Lookup_inv _ _ _ k hsh HI Hlen) as (r & HL & Hr).
    rewrite HL0 in HL. injection HL as <-.
    simpl in Hst. destruct r0 as [p|].
    + destruct Hr as (h & l1 & l2 & Hh & _ & _ & HLk & _).
      rewrite HLk in Hst. simpl in Hst. injection Hst as <-. cbn [mem impl].
      unfold Impl.set_lru. cbn [table_].
      destruct (store_lookup (mem s) (impl s) p h (refs h + 1) k hsh Hh) as [E1 E2].
      exists (Some p). split; [by rewrite E1|]. cbn [mbind option_bind].
      by rewrite E2.
    + rewrite Hr in Hst. simpl in Hst. injection Hst as <-. simpl.
      by exists None.
  - pose proof (si_inv _ _ (reachable_SysInv _ _ (single_key_reachable _ _ _ _ _ Hsk)))
      as HI.
    destruct IH as (r0 & HL0 & Hb).
    simpl in Hst. destruct (held s !! i) as [hd|] eqn:Ei.
    + destruct (Unref_inv _ _ _ hd (delete i (held s)) HI (held_delete_perm _ _ _ Ei))
        as (hh & m' & c' & Hh & HU & _ & _ & Ht & _ & _ & Hd).
      unfold Impl.Release in Hst. rewrite HU in Hst. simpl in Hst.
      injection Hst as <-. cbn [mem impl].
      destruct (ref_dropped_lookup _ _ _ hd hh _ m' c' k hsh HI Hh Hd) as [E1 E2].
      exists r0. rewrite Ht, E1. split; [done|]. rewrite <- Hb.
      by eapply bind_Value_content; [apply (inv_table _ _ _ HI)|..].
    + injection Hst as <-. by exists r0.
  - pose proof (si_inv _ _ (reachable_SysInv _ _ (single_key_reachable _ _ _ _ _ Hsk)))
      as HI.
    destruct IH as (r0 & HL0 & Hb).
    destruct (Erase_inv _ _ _ k hsh HI) as (r & HL & Hr).
    rewrite HL0 in HL. injection HL as <-.
    simpl in Hst. destruct r0 as [p|].
    + destruct Hr as (h & m' & c' & l1 & l2 & _ & HE & _ & _ & _ & _ & _ & _ & _ & _ & HL' & _).
      rewrite HE in Hst. simpl in Hst. injection Hst as <-. simpl.
      by exists None.
    + rewrite Hr in Hst. simpl in Hst. injection Hst as <-. simpl.
      by exists None.
Qed.

(** C3, as amended.  After any sequence of [Insert], [Lookup], [Release]
    and [Erase] on a single key, applied to a fresh shard while the 32-bit
    counters are in range, a [Lookup] of the key returns, and it returns a
    handle to the value of the most recent [Insert] provided that this
    [Insert] has not been followed by an [Erase] and left the usage counter
    within the capacity (otherwise its own eviction loop removed the entry
    it had just inserted); if there is no such [Insert] it misses. *)
Theorem C3_Lookup_single_key (k : list byte) (hsh capacity : Z) (s : Sys)
    (b : option Z) :
  single_key k hsh capacity s b → in_range s →
  ∃ m' c' r, Impl.Lookup (mem s) (impl s) k hsh = Some (m', c', r) ∧
             r ≫= Sharded.Value m' = b.
Proof.
  intros Hsk [_ Hlen].
  pose proof (si_inv _ _ (reachable_SysInv _ _ (single_key_reachable _ _ _ _ _ Hsk)))
    as HI.
  destruct (single_key_binding _ _ _ _ _ Hsk) as (r0 & HL0 & Hb).
  destruct (Lookup_inv _ _ _ k hsh HI Hlen) as (r & HL & Hr).
  rewrite HL0 in HL. injection HL as <-. destruct r0 as [p|].
  - destruct Hr as (h & l1 & l2 & Hh & _ & _ & HLk & _).
    eexists _, _, _. split; [exact HLk|]. simpl. simpl in Hb. rewrite <- Hb.
    by destruct (store_lookup (mem s) (impl s) p h (refs h + 1) k hsh Hh) as [_ ->].
  - eexists _, _, _. split; [exact Hr|]. done.
Qed.

(** C3 as stated fails: with capacity 10, insert the key "a" with charge 11
    and look it up.  The [Insert] has been neither superseded nor erased,
    but its eviction loop removed the entry and the [Lookup] misses. *)
Lemma C3_counterexample :
  (s0 ← init 10;
   s1 ← step (OInsert [x61] 0 101 11 7) s0;
   '(_, _, r) ← Impl.Lookup (mem s1) (impl s1) [x61] 0;
   Some r)
  = Some None.
Proof. vm_compute. reflexivity. Qed.

(** ** The deleter (C4) *)

Lemma filter_none {A} (P : A → Prop) `{∀ x, Decision (P x)} (l : list A) :
  (∀ x, x ∈ l → ¬ P x) → filter P l = [].
Proof.
  induction l as [|x l IH]; intros Hl; [done|].
  rewrite filter_cons, decide_False by (apply Hl; left).
  apply IH. intros y Hy. apply Hl. by right.
Qed.

Lemma filter_unique {A B} `{EqDecision B} (f : A → B) (l : list A) (d : A) :
  NoDup (f <$> l) → d ∈ l → filter (λ x, f x = f d) l = [d].
Proof.
  induction l as [|x l IH]; intros Hnd Hd; [by apply elem_of_nil in Hd|].
  rewrite fmap_cons in Hnd. apply NoDup_cons in Hnd as [Hx Hnd].
  rewrite filter_cons. apply elem_of_cons in Hd as [<-|Hd].
  - rewrite decide_True by done. f_equal. apply filter_none.
    intros y Hy Heq. apply Hx. rewrite <- Heq. by apply list_elem_of_fmap_2.
  - rewrite decide_False; [by apply IH|].
    intros Heq. apply Hx. rewrite Heq. by apply list_elem_of_fmap_2.
Qed.

Lemma log_grows_closed m0 :
  refs_closed (λ m', ∃ new, deleted m' = deleted m0 ++ new).
Proof.
  intros m p h [new Hnew] _. split; [|intros r; by exists new].
  exists (new ++ [call_deleter_of p h]). simpl. by rewrite Hnew, (assoc_L (++)).
Qed.

Lemma step_log capacity o s s' :
  SysInv capacity s → in_range s → step o s = Some s' →
  ∃ new, deleted (mem s') = deleted (mem s) ++ new.
Proof.
  intros [HI Hcap Hgh] [Hel Hlen] Hstep.
  pose proof (step_fits _ _ _ Hstep) as Hfit. revert Hstep.
  destruct s as [m c P b]. simpl in *.
  pose proof (log_grows_closed m) as Hcl.
  assert (∃ new, deleted m = deleted m ++ new) as H0
    by (exists []; by rewrite app_nil_r).
  destruct o as [k hsh v chg del|k hsh|i|k hsh]; simpl.
  - destruct (Insert_binding m c P k hsh v chg del HI Hel Hfit)
      as (m5 & c5 & r & HIns & _ & _ & _ & _ & _ & _ & _ & HQ & _).
    rewrite HIns. simpl. intros [= <-]. simpl. by apply (HQ _ Hcl).
  - destruct (Lookup_inv m c P k hsh HI Hlen) as (r & _ & Hr).
    destruct r as [p|].
    + destruct Hr as (h & l1 & l2 & Hh & _ & _ & -> & _).
      simpl. by intros [= <-].
    + rewrite Hr. simpl. by intros [= <-].
  - destruct (P !! i) as [h|] eqn:Ei; [|by intros [= <-]].
    destruct (Unref_inv m c P h (delete i P) HI (held_delete_perm _ _ _ Ei))
      as (hh & m' & c' & Hh & HU & _ & _ & _ & _ & _ & Hd).
    unfold Impl.Release. rewrite HU. simpl. intros [= <-]. simpl.
    apply (ref_dropped_closed (λ m', ∃ new, deleted m' = deleted m ++ new)
             h hh _ _ m c m' c' Hcl H0 Hh Hd).
  - destruct (Erase_inv m c P k hsh HI) as (r & _ & Hr). destruct r as [p|].
    + destruct Hr as (h & m' & c' & l1 & l2 & Hh & -> & _ & _ & _ & _ & _ & _ &
                      _ & _ & _ & Hd).
      simpl. intros [= <-]. simpl.
      apply (ref_dropped_closed (λ m', ∃ new, deleted m' = deleted m ++ new)
               p h _ _ m c m' c' Hcl H0 Hh Hd).
    + rewrite Hr. simpl. by intros [= <-].
Qed.

(** C4, as amended.  In every state the client reaches while the 32-bit
    counters are in range, and for every entry [p] ever allocated, with the
    key, value and deleter it was inserted with: as long as [p] is
    referenced, by the cache (it is on the recency list) or by a handle the
    client holds, it is allocated with these fields and its deleter has not
    been called, also when it has been evicted, overwritten or erased; once
    it is referenced by neither, it has been freed and the log holds exactly
    one call for it, made with its key and value.  Every operation made
    while the counters are in range and, for an [Insert], with a key shorter
    than 2^31 bytes, returns and only appends to the log, so the call is
    made by the operation that drops the last reference. *)
Theorem C4_deleter_exactly_once (capacity : Z) (s : Sys) :
  reachable capacity s →
  (∀ p, (p < brk (mem s))%nat →
     ∃ k v d, born s !! p = Some (k, v, d) ∧
       (((p ∈ lru_ (impl s) ∨ p ∈ held s) ∧
         (∃ e, heap (mem s) !! p = Some e ∧
               key e = k ∧ value e = v ∧ deleter e = d) ∧
         calls_to p (deleted (mem s)) = [])
        ∨
        ((p ∉ lru_ (impl s)) ∧ (p ∉ held s) ∧ heap (mem s) !! p = None ∧
         calls_to p (deleted (mem s)) = [mkCall p d k v]))) ∧
  (∀ o, in_range s → op_fits o →
     ∃ s' new, step o s = Some s' ∧
       deleted (mem s') = deleted (mem s) ++ new).
Proof.
  intros Hr. pose proof (reachable_SysInv _ _ Hr) as HS.
  destruct HS as [HI Hcap Hgh]. split.
  - intros p Hp.
    destruct (lookup_lt_is_Some_2 (born s) p) as [[[k v] d] Hb].
    { by rewrite (gh_len _ _ Hgh). }
    exists k, v, d. split; [done|].
    destruct (heap (mem s) !! p) as [e|] eqn:He.
    + left. pose proof (gh_heap _ _ Hgh p e He) as Hf.
      rewrite Hb in Hf. injection Hf as -> -> ->.
      destruct (inv_heap _ _ _ HI p e He) as (_ & _ & Hrf & Hrefs).
      split; [|split].
      * destruct (decide (p ∈ lru_ (impl s))) as [?|Hn]; [by left|right].
        apply in_cache_0 in Hn. apply pins_pos. lia.
      * by exists e.
      * apply filter_none. intros x Hx Heq.
        destruct (proj2 (inv_log _ _ _ HI) x Hx) as [_ Hnone]. congruence.
    + right. split; [|split; [|split; [done|]]].
      * intros Hin. destruct (Inv_lru_heap _ _ _ _ HI Hin) as [? ?]. congruence.
      * intros Hin. destruct (inv_pinned _ _ _ HI _ Hin) as [? ?]. congruence.
      * destruct (proj1 (list_elem_of_fmap _ _ _) (gh_done _ _ Hgh p Hp He))
          as (x & Hpx & Hx).
        pose proof (gh_log _ _ Hgh x Hx) as Hf.
        rewrite <- Hpx, Hb in Hf. injection Hf as -> -> ->.
        unfold calls_to. rewrite Hpx.
        rewrite (filter_unique call_entry _ x (proj1 (inv_log _ _ _ HI)) Hx).
        by destruct x.
  - intros o Hrange Hfit.
    destruct (SysInv_step capacity o s (mk_SysInv _ _ HI Hcap Hgh) Hrange Hfit)
      as (s' & Hst & _).
    destruct (step_log capacity o s s' (mk_SysInv _ _ HI Hcap Hgh) Hrange Hst)
      as [new Hnew].
    by exists s', new.
Qed.

(** C4 as stated fails with the reference count out of range.  After an
    [Insert] of the key "a" and 2^32 - 1 [Lookup]s of it, every handle kept,
    the 32-bit count of the entry, which stands for 2^32 + 1 references, has
    wrapped to 1.  One [Release] then calls the deleter and frees the entry
    while it is on the recency list and in the table, and while the client
    holds 2^32 - 1 more handles to it. *)
Lemma C4_counterexample :
  init 10 = Some fresh10 ∧
  step (OInsert [x61] 0 101 8 7) fresh10 = Some one_entry ∧
  repeat_op (2 ^ 32 - 1) (OLookup [x61] 0) one_entry
  = Some (looked_up (2 ^ 32 - 1)) ∧
  refs <$> heap (mem (looked_up (2 ^ 32 - 1))) !! 0%nat = Some 1 ∧
  step (ORelease 0) (looked_up (2 ^ 32 - 1)) = Some freed_while_cached ∧
  lru_ (impl freed_while_cached) = [0%nat] ∧
  content (table_ (impl freed_while_cached)) = [0%nat] ∧
  held freed_while_cached = N.iter (2 ^ 32 - 2) (cons 0%nat) [0%nat] ∧
  (0%nat ∈ held freed_while_cached) ∧
  heap (mem freed_while_cached) !! 0%nat = None ∧
  deleted (mem freed_while_cached) = [mkCall 0%nat 7 [x61] 101].
Proof.
  split; [reflexivity|]. split; [vm_compute; reflexivity|].
  split; [apply lookups_closed_form|].
  rewrite looked_up_wrapped_1. split; [reflexivity|].
  split; [apply Release_last_handle|].
  unfold freed_while_cached. cbn [mem impl held heap deleted lru_ table_].
  split; [done|]. split; [done|]. split; [done|]. split; [|done].
  assert ((2 ^ 32 - 2)%N = N.succ (2 ^ 32 - 3)) as -> by reflexivity.
  rewrite N.iter_succ. left.
Qed.

(** * Part V: the theorems applied to concrete states *)




Lemma fresh10_reachable : reachable 10 fresh10.
Proof. apply reach_init. reflexivity. Defined.

Lemma fresh10_in_range : in_range fresh10.
Proof. split; vm_compute; reflexivity. Defined.

Lemma one_entry_step : step (OInsert [x61] 0 101 8 7) fresh10 = Some one_entry.
Proof. vm_compute. reflexivity. Defined.

Lemma one_entry_reachable : reachable 10 one_entry.
Proof.
  exact (reach_step 10 fresh10 _ one_entry fresh10_reachable fresh10_in_range
           one_entry_step).
Defined.

Lemma one_entry_in_range : in_range one_entry.
Proof. split; vm_compute; reflexivity. Defined.

Lemma C10_witness :
  cstr [x61; x62; x00; x63] = cstr [x61; x62; x00] ∧
  Sharded.HashSlice true [x61; x62; x00; x63]
  = Sharded.HashSlice true [x61; x62; x00] ∧
  Sharded.Lookup true (mem one_entry) (mkSharded [impl one_entry] 0)
    [x61; x62; x00; x63]
  = Sharded.Lookup true (mem one_entry) (mkSharded [impl one_entry] 0)
      [x61; x62; x00].
Proof.
  split; [reflexivity|].
  destruct (C10_keys_end_at_NUL true (mem one_entry)
              (mkSharded [impl one_entry] 0)
              [x61; x62; x00; x63] [x61; x62; x00] 0 0 0 eq_refl)
    as (H1 & _ & H3 & _).
  exact (conj H1 H3).
Defined.


Lemma C8_witness :
  Sharded.New 1000 = Some cache1000 ∧ (5 < 2 ^ 64 - 1)%N ∧
  id_of_call cache1000 5 = 6.
Proof.
  split; [reflexivity|]. split; [reflexivity|].
  destruct (C8_NewId_increasing 1000 cache1000 5 eq_refl eq_refl)
    as (_ & _ & H & _).
  exact H.
Defined.


Lemma C7_witness :
  reachable 10 one_entry ∧
  ∃ m' c', Impl.Erase (mem one_entry) (impl one_entry) [x61] 0 = Some (m', c') ∧
           Impl.Lookup m' c' [x61] 0 = Some (m', c', None).
Proof.
  split; [exact one_entry_reachable|].
  destruct (C7_Erase 10 one_entry [x61] 0 one_entry_reachable)
    as (r & m' & c' & _ & HE & _ & HL & _).
  exists m', c'. exact (conj HE HL).
Defined.

Lemma C9_witness :
  reachable 10 one_entry ∧ in_range one_entry ∧ strlen [x62] < 2 ^ 31 ∧
  ∃ s', step (OInsert [x62] 1 102 11 7) one_entry = Some s' ∧
        Sharded.Value (mem s') 1%nat = Some 102 ∧
        capacity_ (impl s') < usage_ (impl s') ∧
        lru_ (impl s') = [] ∧
        Impl.Lookup (mem s') (impl s') [x62] 1 = Some (mem s', impl s', None).
Proof.
  assert (strlen [x62] < 2 ^ 31) as Hk by reflexivity.
  split; [exact one_entry_reachable|]. split; [exact one_entry_in_range|].
  split; [exact Hk|].
  destruct (C9_Insert_may_evict_itself 10 one_entry [x62] 1 102 11 7
              one_entry_reachable one_entry_in_range Hk)
    as (s' & h & Hs & _ & _ & Hv & _ & Hev).
  assert (capacity_ (impl s') < usage_ (impl s')) as Hgt.
  { vm_compute in Hs. injection Hs as <-. reflexivity. }
  destruct (Hev Hgt) as (Hnil & _ & HL & _).
  exists s'. exact (conj Hs (conj Hv (conj Hgt (conj Hnil HL)))).
Defined.

Lemma overwritten_step :
  step (OInsert [x61] 0 102 1 7) one_entry = Some overwritten.
Proof. vm_compute. reflexivity. Defined.

Lemma overwritten_reachable : reachable 10 overwritten.
Proof.
  exact (reach_step 10 one_entry _ overwritten one_entry_reachable
           one_entry_in_range overwritten_step).
Defined.

Lemma overwritten_in_range : in_range overwritten.
Proof. split; vm_compute; reflexivity. Defined.

Lemma C1_witness :
  reachable 10 overwritten ∧ in_range overwritten ∧ strlen [x62] < 2 ^ 31 ∧
  usage_ (impl overwritten) = wrap64 (total_charge (heap (mem overwritten))) ∧
  (is_Some (heap (mem overwritten) !! 0%nat)
   ↔ 0%nat ∈ lru_ (impl overwritten) ∨ 0%nat ∈ held overwritten) ∧
  ∃ s', step (OInsert [x62] 1 103 5 7) overwritten = Some s' ∧
        (usage_ (impl s') ≤ capacity_ (impl s') ∨ lru_ (impl s') = []).
Proof.
  assert (strlen [x62] < 2 ^ 31) as Hk by reflexivity.
  split; [exact overwritten_reachable|]. split; [exact overwritten_in_range|].
  split; [exact Hk|].
  destruct (C1_usage 10 overwritten overwritten_reachable) as (Hu & Hp & HI).
  split; [exact Hu|]. split; [exact (Hp 0%nat)|].
  exact (HI [x62] 1 103 5 7 overwritten_in_range Hk).
Defined.


Lemma one_entry_single_key : single_key [x61] 0 10 one_entry (Some 101).
Proof.
  exact (sk_insert [x61] 0 10 fresh10 None 101 8 7 one_entry
           (sk_init [x61] 0 10 fresh10 eq_refl) fresh10_in_range one_entry_step).
Defined.

Lemma C3_witness :
  single_key [x61] 0 10 one_entry (Some 101) ∧ in_range one_entry ∧
  ∃ m' c' r, Impl.Lookup (mem one_entry) (impl one_entry) [x61] 0
             = Some (m', c', r) ∧
             r ≫= Sharded.Value m' = Some 101.
Proof.
  split; [exact one_entry_single_key|]. split; [exact one_entry_in_range|].
  exact (C3_Lookup_single_key [x61] 0 10 one_entry (Some 101)
           one_entry_single_key one_entry_in_range).
Defined.

Lemma erased_step : step (OErase [x61] 0) one_entry = Some erased.
Proof. vm_compute. reflexivity. Defined.

Lemma erased_reachable : reachable 10 erased.
Proof.
  exact (reach_step 10 one_entry _ erased one_entry_reachable
           one_entry_in_range erased_step).
Defined.

Lemma erased_in_range : in_range erased.
Proof. split; vm_compute; reflexivity. Defined.

Lemma destroyed_step : step (ORelease 0) erased = Some destroyed.
Proof. vm_compute. reflexivity. Defined.

Lemma destroyed_reachable : reachable 10 destroyed.
Proof.
  exact (reach_step 10 erased _ destroyed erased_reachable erased_in_range
           destroyed_step).
Defined.

Lemma C4_witness :
  reachable 10 erased ∧ reachable 10 destroyed ∧
  (heap (mem erased) !! 0%nat = Some (set_refs 1 entry_a) ∧
   calls_to 0%nat (deleted (mem erased)) = []) ∧
  (heap (mem destroyed) !! 0%nat = None ∧
   calls_to 0%nat (deleted (mem destroyed)) = [mkCall 0%nat 7 [x61] 101]) ∧
  ∃ k v d, born destroyed !! 0%nat = Some (k, v, d) ∧
    (((0%nat ∈ lru_ (impl destroyed) ∨ 0%nat ∈ held destroyed) ∧
      (∃ e, heap (mem destroyed) !! 0%nat = Some e ∧
            key e = k ∧ value e = v ∧ deleter e = d) ∧
      calls_to 0%nat (deleted (mem destroyed)) = [])
     ∨
     ((0%nat ∉ lru_ (impl destroyed)) ∧ (0%nat ∉ held destroyed) ∧
      heap (mem destroyed) !! 0%nat = None ∧
      calls_to 0%nat (deleted (mem destroyed)) = [mkCall 0%nat d k v])).
Proof.
  split; [exact erased_reachable|]. split; [exact destroyed_reachable|].
  split; [split; reflexivity|]. split; [split; reflexivity|].
  apply (proj1 (C4_deleter_exactly_once 10 destroyed destroyed_reachable) 0%nat).
  vm_compute. constructor.
Defined.

(** * Part VI: further properties of the code *)

(** ** Hash, Shard and the constructor of the sharded cache *)

Lemma lxor_range32 a b :
  0 ≤ a < 2 ^ 32 → 0 ≤ b < 2 ^ 32 → 0 ≤ Z.lxor a b < 2 ^ 32.
Proof.
  intros [Ha1 Ha2] [Hb1 Hb2].
  assert (0 ≤ Z.lxor a b) as H0 by (by apply Z.lxor_nonneg).
  split; [done|].
  destruct (Z.eq_dec (Z.lxor a b) 0) as [->|Hne]; [done|].
  apply Z.log2_lt_pow2; [lia|].
  pose proof (Z.log2_lxor a b Ha1 Hb1) as Hl.
  assert (∀ x, 0 ≤ x < 2 ^ 32 → Z.log2 x < 32) as Hlog.
  { intros x [Hx1 Hx2]. destruct (Z.eq_dec x 0) as [->|Hx]; [done|].
    apply Z.log2_lt_pow2; lia. }
  pose proof (Hlog a (conj Ha1 Ha2)). pose proof (Hlog b (conj Hb1 Hb2)). lia.
Qed.

Lemma shiftr_range32 h n : 0 ≤ n → 0 ≤ h < 2 ^ 32 → 0 ≤ Z.shiftr h n < 2 ^ 32.
Proof.
  intros Hn [H1 H2]. rewrite Z.shiftr_div_pow2 by done.
  assert (0 < 2 ^ n) by (by apply Z.pow_pos_nonneg).
  split; [by apply Z.div_pos|].
  apply Z.le_lt_trans with h; [|done]. apply Z.div_le_upper_bound; [done|]. nia.
Qed.

Lemma fold_shift_range h n :
  0 ≤ n → 0 ≤ Z.lxor (wrap32 h) (Z.shiftr (wrap32 h) n) < 2 ^ 32.
Proof.
  intros Hn. pose proof (wrap32_range h).
  apply lxor_range32; [done|]. by apply shiftr_range32.
Qed.

Lemma mix_word_fold_range ws : ∀ h,
  0 ≤ h < 2 ^ 32 → 0 ≤ fold_left (mix_word 16) ws h < 2 ^ 32.
Proof.
  induction ws as [|w ws IH]; intros h Hh; [done|].
  simpl. apply IH. unfold mix_word. by apply fold_shift_range.
Qed.

Lemma Hash_switch_range sgn rest h :
  0 ≤ h < 2 ^ 32 → 0 ≤ Hash_switch sgn rest h < 2 ^ 32.
Proof.
  intros Hh.
  destruct rest as [|c0 [|c1 [|c2 [|c3 rest]]]]; try done;
    unfold Hash_switch, Hash_case3, Hash_case2, Hash_case1, Hash_r; cbv zeta;
    by apply fold_shift_range.
Qed.

Lemma Hash_range sgn data n seed : 0 ≤ Hash sgn data n seed < 2 ^ 32.
Proof.
  unfold Hash.
  rewrite (Hash_loop_fold_le (length (take (Z.to_nat n) data))) by lia.
  apply Hash_switch_range, mix_word_fold_range, wrap32_range.
Qed.

Lemma Shard_lt hsh :
  0 ≤ hsh < 2 ^ 32 → (Sharded.Shard hsh < Z.to_nat kNumShards)%nat.
Proof.
  intros [H1 H2]. unfold Sharded.Shard, kNumShards, kNumShardBits.
  change (Z.shiftl 1 4) with 16. change (32 - 4) with 28.
  rewrite Z.shiftr_div_pow2 by done.
  assert (0 ≤ hsh / 2 ^ 28 < 16); [|lia].
  split; [by apply Z.div_pos|]. apply Z.div_lt_upper_bound; [done|]. lia.
Qed.

Lemma New_eq capacity :
  Sharded.New capacity
  = Some (mkSharded
            (replicate 16 (mkImpl (wrap64 (capacity + 15) / 16) 0 []
                             (mkTable 4 0 [[]; []; []; []]))) 0).
Proof. unfold Sharded.New, Impl.new. rewrite HT_new_eq. reflexivity. Qed.

(** X1.  The value [Hash] returns is a 32-bit unsigned integer, whatever the
    bytes, the length and the seed, and whether [char] is signed or not:
    the additions, the multiplications and the sign-extended tail bytes
    never leave the range. *)
Theorem X1_Hash_range (sgn : bool) (data : list byte) (n seed : Z) :
  0 ≤ Hash sgn data n seed < 2 ^ 32.
Proof. apply Hash_range. Qed.

(** X2.  Every key is routed to one of the sixteen shards: the shard index
    computed from the hash of a key is below [kNumShards], so on a cache
    made by [New] the shard that [Insert], [Lookup] and [Erase] index
    exists. *)
Theorem X2_key_has_a_shard (sgn : bool) (capacity : Z) (sc : ShardedLRUCache)
    (k : list byte) :
  Sharded.New capacity = Some sc →
  (Sharded.Shard (Sharded.HashSlice sgn k) < Z.to_nat kNumShards)%nat ∧
  Sharded.Shard (Sharded.HashSlice sgn k)
  = Z.to_nat (Sharded.HashSlice sgn k / 2 ^ 28) ∧
  is_Some (shard_ sc !! Sharded.Shard (Sharded.HashSlice sgn k)).
Proof.
  intros HN. pose proof (Hash_range sgn k (strlen k) 0) as Hr.
  pose proof (Shard_lt _ Hr) as Hlt. fold (Sharded.HashSlice sgn k) in Hr.
  split; [done|]. split.
  { unfold Sharded.Shard. by rewrite Z.shiftr_div_pow2. }
  rewrite New_eq in HN.
  assert (length (shard_ sc) = 16%nat) as Hlen by (by injection HN as <-).
  apply lookup_lt_is_Some. rewrite Hlen. exact Hlt.
Qed.

Lemma X2_witness :
  Sharded.New 1000 = Some cache1000 ∧
  is_Some (shard_ cache1000 !! Sharded.Shard (Sharded.HashSlice true [x61])).
Proof.
  split; [reflexivity|].
  exact (proj2 (proj2 (X2_key_has_a_shard true 1000 cache1000 [x61] eq_refl))).
Defined.

(** X3.  For a capacity that does not overflow [size_t] when 15 is added,
    the constructor makes sixteen empty shards whose common capacity is the
    requested capacity divided by sixteen and rounded up: together they hold
    at least the requested capacity and less than sixteen more.  Each shard
    starts consistent, with no entry, usage 0 and a table of four empty
    buckets, and the id counter starts at 0. *)
Theorem X3_New_shards (capacity : Z) :
  0 ≤ capacity ≤ 2 ^ 64 - 16 →
  ∃ sc, Sharded.New capacity = Some sc ∧
    length (shard_ sc) = Z.to_nat kNumShards ∧ last_id_ sc = 0 ∧
    ∀ i c, shard_ sc !! i = Some c →
      capacity ≤ kNumShards * capacity_ c < capacity + kNumShards ∧
      usage_ c = 0 ∧ lru_ c = [] ∧ content (table_ c) = [] ∧
      length_ (table_ c) = 4 ∧ Inv Mem_empty c [].
Proof.
  intros Hc. rewrite New_eq. eexists. split; [done|]. cbn [shard_ last_id_].
  split; [by rewrite length_replicate|]. split; [done|].
  intros i c [-> _]%lookup_replicate. cbn [capacity_ usage_ lru_ table_ length_].
  rewrite wrap64_small by lia. change kNumShards with 16.
  split; [|split_and!; try done; apply Inv_init].
  pose proof (Z.div_mod (capacity + 15) 16 ltac:(done)).
  pose proof (Z.mod_pos_bound (capacity + 15) 16 ltac:(done)). lia.
Qed.

Lemma X3_witness :
  0 ≤ 1000 ≤ 2 ^ 64 - 16 ∧
  ∃ sc, Sharded.New 1000 = Some sc ∧ length (shard_ sc) = Z.to_nat kNumShards.
Proof.
  assert (0 ≤ 1000 ≤ 2 ^ 64 - 16) as H by (vm_compute; split; discriminate).
  split; [exact H|].
  destruct (X3_New_shards 1000 H) as (sc & H1 & H2 & _).
  exists sc. exact (conj H1 H2).
Defined.

(** X4.  For a capacity above 2^64 - 16 the sum [capacity + 15] wraps around
    in [size_t]: the constructor then gives every shard the capacity 0, not
    a sixteenth of the capacity asked for. *)
Theorem X4_New_capacity_wraps (capacity : Z) (sc : ShardedLRUCache)
    (c : LRUCacheImpl) :
  2 ^ 64 - 16 < capacity < 2 ^ 64 →
  Sharded.New capacity = Some sc → c ∈ shard_ sc →
  capacity_ c = 0.
Proof.
  intros Hc HN Hin. rewrite New_eq in HN. apply (inj Some) in HN. subst sc.
  cbn [shard_] in Hin. apply elem_of_replicate in Hin as [-> _].
  cbn [capacity_]. unfold wrap64.
  replace (capacity + 15) with (capacity + 15 - 2 ^ 64 + 1 * 2 ^ 64) by lia.
  rewrite Z.mod_add by done. rewrite Z.mod_small by lia.
  apply Z.div_small. lia.
Qed.

Lemma X4_witness :
  2 ^ 64 - 16 < 2 ^ 64 - 1 < 2 ^ 64 ∧
  match Sharded.New (2 ^ 64 - 1) with
  | Some sc => capacity_ <$> shard_ sc !! 0%nat = Some 0
  | None => False
  end.
Proof.
  assert (2 ^ 64 - 16 < 2 ^ 64 - 1 < 2 ^ 64) as H by (split; reflexivity).
  split; [exact H|].
  destruct (Sharded.New (2 ^ 64 - 1)) as [sc|] eqn:E; [|discriminate E].
  destruct (shard_ sc !! 0%nat) as [c|] eqn:Ec.
  - simpl. f_equal.
    exact (X4_New_capacity_wraps (2 ^ 64 - 1) sc c H E
             (list_elem_of_lookup_2 _ _ _ Ec)).
  - exfalso. rewrite New_eq in E. apply (inj Some) in E. subst sc.
    discriminate Ec.
Defined.

(** ** HandleTable *)

(** What [Lookup] returns depends only on which entry with the hash and the
    key looked up is chained in the table. *)
Lemma Lookup_by_content hp t t' k hsh :
  table_wf hp t → table_wf hp t' →
  (∀ p, sig_of hp p = Some (hsh, cstr k) →
     (p ∈ content t ↔ p ∈ content t')) →
  HT.Lookup hp t k hsh = HT.Lookup hp t' k hsh.
Proof.
  intros Hwf Hwf' Hiff.
  destruct (Lookup_spec hp t k hsh Hwf) as (r & -> & Hr).
  destruct (Lookup_spec hp t' k hsh Hwf') as (r' & -> & Hr').
  destruct r as [p|], r' as [p'|]; try done.
  - destruct Hr as [Hp Hs], Hr' as [Hp' Hs'].
    do 2 f_equal.
    apply (sig_inj hp t' p p' (hsh, cstr k) Hwf'); try done. by apply Hiff.
  - destruct Hr as [Hp Hs]. destruct (Hr' p); [by apply Hiff|done].
  - destruct Hr' as [Hp' Hs']. destruct (Hr p'); [by apply Hiff|done].
Qed.


Lemma table_wf_pre hp t : table_wf hp t → table_pre hp t.
Proof.
  intros Hwf. destruct (twf_pow _ _ Hwf) as (k & Hk & Hlen).
  pose proof (twf_load _ _ Hwf).
  assert (2 ^ k ≤ 2 ^ 31) by (apply Z.pow_le_mono_r; lia).
  split; try apply Hwf; [lia|].
  intros p Hp. by apply (placed_content hp t).
Qed.

(** The doubling loop stops at the first length that is not below the
    number of elements. *)
Lemma Resize_length_min fuel : ∀ nl elems r,
  0 ≤ nl → HT.Resize_length fuel nl elems = Some r →
  elems ≤ r ∧ (r = nl ∨ r < 2 * elems).
Proof.
  induction fuel as [|fuel IH]; intros nl elems r Hnl; simpl;
    destruct (nl <? elems) eqn:E; try done.
  - intros [= <-]. apply Z.ltb_ge in E. lia.
  - intros Hr. apply Z.ltb_lt in E.
    pose proof (wrap32_range (nl * 2)) as Hw.
    destruct (IH _ _ _ (proj1 Hw) Hr) as [H1 [->|H2]]; split; try done; try lia.
    right. unfold wrap32.
    pose proof (Z.mod_le (nl * 2) (2 ^ 32) ltac:(lia) ltac:(done)). lia.
  - intros [= <-]. apply Z.ltb_ge in E. lia.
Qed.

Lemma Resize_length_of hp t t' :
  HT.Resize hp t = Some t' →
  HT.Resize_length 32 4 (elems_ t) = Some (length_ t') ∧ elems_ t' = elems_ t.
Proof.
  unfold HT.Resize. intros H.
  destruct (HT.Resize_length 32 4 (elems_ t)) as [nl|]; [|done]. simpl in H.
  destruct (HT.Resize_buckets _ _ _ _ _) as [[nl' cnt]|]; [|done]. simpl in H.
  destruct (elems_ t =? cnt); [|done]. by injection H as <-.
Qed.

(** With more than 2^31 elements no power of two that fits 32 bits is large
    enough: the length doubles up to 2^31, wraps to 0 and stays there. *)
Lemma Resize_length_diverges fuel : ∀ nl elems,
  2 ^ 31 < elems → nl = 0 ∨ (∃ k, 2 ≤ k ≤ 31 ∧ nl = 2 ^ k) →
  HT.Resize_length fuel nl elems = None.
Proof.
  assert (∀ nl elems, 2 ^ 31 < elems →
            nl = 0 ∨ (∃ k, 2 ≤ k ≤ 31 ∧ nl = 2 ^ k) →
            (nl <? elems) = true) as Hlt.
  { intros nl elems He [->|(k & Hk & ->)]; apply Z.ltb_lt; [lia|].
    assert (2 ^ k ≤ 2 ^ 31) by (apply Z.pow_le_mono_r; lia). lia. }
  induction fuel as [|fuel IH]; intros nl elems He Hnl; simpl;
    rewrite (Hlt nl elems He Hnl); [done|].
  - apply IH; [done|].
    destruct Hnl as [->|(k & Hk & ->)]; [by left|].
    destruct (Z.eq_dec k 31) as [->|Hne]; [by left|].
    right. exists (k + 1). split; [lia|].
    rewrite Z.pow_add_r by lia. change (2 ^ 1) with 2.
    apply wrap32_small.
    assert (2 ^ k ≤ 2 ^ 30) by (apply Z.pow_le_mono_r; lia). lia.
Qed.

(** When the key is not in the table, [Insert] appends to the chain, counts
    the element and resizes if the count exceeds the length. *)
Lemma Insert_absent_eq hp t h e :
  table_wf hp t → hp !! h = Some e → elems_ t < 2 ^ 31 →
  HT.Lookup hp t (key e) (hash e) = Some None →
  ∃ chain, list_ t !! HT.bucket (length_ t) (hash e) = Some chain ∧
    HT.Insert hp t h
    = let t2 := mkTable (length_ t) (elems_ t + 1)
                  (<[HT.bucket (length_ t) (hash e) := chain ++ [h]]> (list_ t)) in
      if length_ t <? elems_ t + 1
      then t3 ← HT.Resize hp t2; Some (t3, None)
      else Some (t2, None).
Proof.
  intros Hwf He Hb HL.
  destruct (FindPointer_spec hp t (key e) (hash e) Hwf)
    as (j & chain & HF & Hc & _ & Hat).
  unfold HT.Lookup, HT.load in HL. rewrite HF in HL. simpl in HL.
  rewrite Hc in HL. simpl in HL. injection HL as HL. rewrite HL in Hat.
  destruct Hat as [-> _].
  exists chain. split; [done|].
  unfold HT.Insert. rewrite He. simpl. rewrite HF. simpl. rewrite Hc. simpl.
  rewrite HL. simpl.
  rewrite (chain_append chain _ h HL eq_refl).
  pose proof (twf_elems _ _ Hwf).
  by rewrite wrap32_small by lia.
Qed.

Lemma pow2_next k k' :
  2 ≤ k → 2 ≤ k' → 2 ^ k < 2 ^ k' → 2 ^ k' < 2 * (2 ^ k + 1) →
  2 ^ k' = 2 * 2 ^ k.
Proof.
  intros Hk Hk' Hlt Hub.
  assert (k < k') by (apply (Z.pow_lt_mono_r_iff 2); lia).
  destruct (Z.eq_dec k' (k + 1)) as [->|Hne].
  { rewrite Z.pow_add_r by lia. change (2 ^ 1) with 2. lia. }
  assert (2 ^ (k + 2) ≤ 2 ^ k') by (apply Z.pow_le_mono_r; lia).
  rewrite Z.pow_add_r in * by lia. change (2 ^ 2) with 4 in *.
  assert (2 ^ 2 ≤ 2 ^ k) by (apply Z.pow_le_mono_r; lia).
  change (2 ^ 2) with 4 in *. lia.
Qed.

(** X5.  Round trip through the table.  After an entry has been inserted in
    a well-formed table, a [Lookup] of its key and hash returns that entry,
    whether it was appended or took the place of an older entry with the
    same key; a [Lookup] of any other key or hash returns what it returned
    before. *)
Theorem X5_table_Insert_Lookup (hp : gmap ptr LRUHandle) (t : HandleTable)
    (h : ptr) (e : LRUHandle) :
  table_wf hp t → hp !! h = Some e → cstr (key_data e) = key_data e →
  h ∉ content t → elems_ t < 2 ^ 31 →
  ∃ t' old, HT.Insert hp t h = Some (t', old) ∧
    HT.Lookup hp t' (key e) (hash e) = Some (Some h) ∧
    ∀ k hsh, (hsh, cstr k) ≠ (hash e, key_data e) →
      HT.Lookup hp t' k hsh = HT.Lookup hp t k hsh.
Proof.
  intros Hwf He Hk Hfresh Hb.
  destruct (Insert_spec hp t h e Hwf He Hk Hfresh Hb)
    as (t' & old & HI & HL & Hwf' & Hperm).
  exists t', old. split; [done|].
  assert (h ∈ content t') as Hin.
  { destruct old as [o|].
    - assert (h ∈ o :: content t') as [->|]%elem_of_cons;
        [rewrite Hperm; left| |done].
      destruct (Lookup_spec hp t (key e) (hash e) Hwf) as (r & Hr & Hs).
      rewrite HL in Hr. injection Hr as <-. by destruct Hs.
    - rewrite Hperm. by left. }
  split; [by apply Lookup_present|].
  intros k hsh Hne. symmetry. apply Lookup_by_content; try done.
  intros p Hs.
  assert (p ≠ h) as Hph.
  { intros ->. rewrite (sig_of_entry hp h e He) in Hs. congruence. }
  destruct old as [o|].
  - assert (p ≠ o) as Hpo.
    { intros ->. destruct (Lookup_spec hp t (key e) (hash e) Hwf) as (r & Hr & Ho).
      rewrite HL in Hr. injection Hr as <-. destruct Ho as [_ Ho].
      unfold key in Ho. rewrite Hk in Ho. congruence. }
    split; intros Hp.
    + assert (p ∈ o :: content t') as [?|?]%elem_of_cons; try done.
      rewrite Hperm. by right.
    + assert (p ∈ h :: content t) as [?|?]%elem_of_cons; try done.
      rewrite <- Hperm. by right.
  - rewrite Hperm, elem_of_cons. split; [by right|by intros [?|?]].
Qed.

Lemma X5_witness :
  ∃ t' old,
    HT.Insert (heap (mem one_entry)) (mkTable 4 0 [[]; []; []; []]) 0%nat
    = Some (t', old) ∧
    HT.Lookup (heap (mem one_entry)) t' [x61] 0 = Some (Some 0%nat).
Proof.
  assert (heap (mem one_entry) !! 0%nat = Some entry_a) as H1 by reflexivity.
  assert (cstr (key_data entry_a) = key_data entry_a) as H2 by reflexivity.
  assert (0%nat ∉ content (mkTable 4 0 [[]; []; []; []])) as H3
    by (apply not_elem_of_nil).
  assert (elems_ (mkTable 4 0 [[]; []; []; []]) < 2 ^ 31) as H4 by reflexivity.
  destruct (X5_table_Insert_Lookup (heap (mem one_entry))
              (mkTable 4 0 [[]; []; []; []]) 0%nat entry_a
              (HT_new_wf _) H1 H2 H3 H4) as (t' & old & HI & HL & _).
  exists t', old. exact (conj HI HL).
Defined.

(** X6.  [Remove] on a well-formed table returns what a [Lookup] of the key
    returns and leaves a well-formed table of the same length in which the
    key is no longer found, while every other key or hash is found as
    before.  The element count drops by one when an entry was removed; when
    there was none the table is unchanged. *)
Theorem X6_table_Remove (hp : gmap ptr LRUHandle) (t : HandleTable)
    (k : list byte) (hsh : Z) :
  table_wf hp t →
  ∃ t' r, HT.Remove hp t k hsh = Some (t', r) ∧
    HT.Lookup hp t k hsh = Some r ∧ table_wf hp t' ∧
    HT.Lookup hp t' k hsh = Some None ∧
    (∀ k' hsh', (hsh', cstr k') ≠ (hsh, cstr k) →
       HT.Lookup hp t' k' hsh' = HT.Lookup hp t k' hsh') ∧
    length_ t' = length_ t ∧
    elems_ t' = elems_ t - match r with Some _ => 1 | None => 0 end ∧
    (r = None → t' = t).
Proof.
  intros Hwf.
  destruct (Remove_spec hp t k hsh Hwf) as (t' & r & HR & HL & Hr).
  exists t', r. split; [done|]. split; [done|].
  destruct r as [p|]; [|subst t'; split_and!; try done; lia].
  destruct Hr as (Hwf' & Hperm & Hs & Hlen & Hel).
  pose proof (content_removed hp t t' p Hwf Hperm) as Hnp.
  split; [done|]. split_and!; try done.
  - destruct (Lookup_spec hp t' k hsh Hwf') as (r' & Hr' & Hs').
    rewrite Hr'. destruct r' as [q|]; [|done]. destruct Hs' as [Hq Hsq].
    assert (q = p); [|by subst].
    apply (sig_inj hp t q p (hsh, cstr k) Hwf); try done; rewrite Hperm;
      [by right|by left].
  - intros k' hsh' Hne. symmetry. apply Lookup_by_content; try done.
    intros q Hsq. rewrite Hperm, elem_of_cons.
    assert (q ≠ p) by (intros ->; congruence).
    split; [by intros [?|?]|by right].
Qed.

Lemma X6_witness :
  ∃ t' r,
    HT.Remove (heap (mem one_entry)) (table_ (impl one_entry)) [x61] 0
    = Some (t', r) ∧
    HT.Lookup (heap (mem one_entry)) t' [x61] 0 = Some None.
Proof.
  destruct (X6_table_Remove (heap (mem one_entry)) (table_ (impl one_entry))
              [x61] 0
              (inv_table _ _ _
                 (si_inv _ _ (reachable_SysInv 10 one_entry one_entry_reachable))))
    as (t' & r & HR & _ & _ & HL & _).
  exists t', r. exact (conj HR HL).
Defined.

(** X7.  [Resize] rebuilds a table whose chains hold [elems_] entries with
    distinct keys, at most 2^31 of them: it returns, so the loops end and
    the assertion that the entries counted are [elems_] holds; no entry is
    lost or duplicated; the new table is well formed, with a number of
    buckets that is the first of 4, 8, 16, ... to reach the element count;
    and every entry is found again under its own key and hash. *)
Theorem X7_Resize_keeps_entries (hp : gmap ptr LRUHandle) (t : HandleTable) :
  table_pre hp t →
  ∃ t', HT.Resize hp t = Some t' ∧ table_wf hp t' ∧
    content t' ≡ₚ content t ∧ elems_ t' = elems_ t ∧
    elems_ t' ≤ length_ t' ∧ (length_ t' = 4 ∨ length_ t' < 2 * elems_ t) ∧
    ∀ p e, p ∈ content t → hp !! p = Some e →
      HT.Lookup hp t' (key e) (hash e) = Some (Some p).
Proof.
  intros Hpre.
  destruct (Resize_spec hp t Hpre) as (t' & HR & Hwf' & Hperm & Hel).
  exists t'. split_and!; try done.
  - apply Hwf'.
  - destruct (Resize_length_of hp t t' HR) as [HL _].
    by destruct (Resize_length_min 32 4 _ _ ltac:(done) HL) as [_ ?].
  - intros p e Hp He. apply Lookup_present; try done. by rewrite Hperm.
Qed.

Lemma X7_witness :
  ∃ t', HT.Resize (heap (mem one_entry)) (table_ (impl one_entry)) = Some t' ∧
        content t' ≡ₚ [0%nat].
Proof.
  destruct (X7_Resize_keeps_entries (heap (mem one_entry))
              (table_ (impl one_entry))
              (table_wf_pre _ _
                 (inv_table _ _ _
                    (si_inv _ _
                       (reachable_SysInv 10 one_entry one_entry_reachable)))))
    as (t' & HR & _ & Hp & _).
  exists t'. exact (conj HR Hp).
Defined.

(** X8.  With more than 2^31 elements [Resize] does not return: the 32-bit
    length is doubled from 4 up to 2^31, becomes 0 at the next doubling and
    stays 0, so the loop that looks for a length not below [elems_] never
    ends, however many turns it is given. *)
Theorem X8_Resize_never_ends (hp : gmap ptr LRUHandle) (t : HandleTable) :
  2 ^ 31 < elems_ t →
  (∀ fuel, HT.Resize_length fuel 4 (elems_ t) = None) ∧
  HT.Resize hp t = None.
Proof.
  intros He.
  assert (∀ fuel, HT.Resize_length fuel 4 (elems_ t) = None) as H.
  { intros fuel. apply Resize_length_diverges; [done|].
    right. exists 2. split; [lia|done]. }
  split; [done|]. unfold HT.Resize. by rewrite H.
Qed.

Lemma X8_witness :
  2 ^ 31 < elems_ (mkTable 4 (2 ^ 31 + 1) [[]; []; []; []]) ∧
  HT.Resize ∅ (mkTable 4 (2 ^ 31 + 1) [[]; []; []; []]) = None.
Proof.
  assert (2 ^ 31 < elems_ (mkTable 4 (2 ^ 31 + 1) [[]; []; []; []])) as H
    by reflexivity.
  split; [exact H|].
  exact (proj2 (X8_Resize_never_ends ∅ _ H)).
Defined.



(** ** One shard: Lookup and Release *)

Lemma set_refs_same e : set_refs (refs e) e = e.
Proof. by destruct e. Qed.

Lemma store_store_back m p h r :
  heap m !! p = Some h →
  store (store m p (set_refs r h)) p h = m.
Proof.
  intros Hp. destruct m as [hp b d]. unfold store. simpl in *.
  by rewrite insert_insert_eq, insert_id.
Qed.

Lemma NoDup_middle_notin {A} (l1 l2 : list A) p :
  NoDup (l1 ++ p :: l2) → p ∉ l1 ++ l2.
Proof.
  intros Hnd Hin.
  assert (l1 ++ p :: l2 ≡ₚ p :: (l1 ++ l2)) as Hp
    by (by rewrite Permutation_middle).
  rewrite Hp in Hnd. apply NoDup_cons in Hnd as [Hn _]. done.
Qed.







(** ** One shard: what holds in every reachable state *)





(** ** One shard: Insert and Erase *)

Lemma evict_within l m c :
  usage_ c ≤ capacity_ c → Impl.evict l m c = Some (m, c).
Proof.
  intros H. destruct l as [|old rest]; simpl; [done|].
  by assert ((capacity_ c <? usage_ c) = false) as -> by (apply Z.ltb_ge; lia).
Qed.

Lemma filter_all {A} (P : A → Prop) `{∀ x, Decision (P x)} (l : list A) :
  (∀ x, x ∈ l → P x) → filter P l = l.
Proof.
  induction l as [|x l IH]; intros Hl; [done|].
  rewrite filter_cons_True by (apply Hl; left).
  f_equal. apply IH. intros y Hy. apply Hl. by right.
Qed.

Lemma agree_sym l hp hp' : agree l hp hp' → agree l hp' hp.
Proof. intros H p Hp. symmetry. by apply H. Qed.

(** X15.  [Insert] of a key that is shorter than 2^31 bytes and is not in
    the shard, in a reachable state whose counters are in range.  Up to its
    eviction loop the call
    allocates one entry with the key, the value, the charge and the deleter
    given and two references, appends it at the newest end of the recency
    list, adds the charge to the usage and chains the entry in the table: a
    [Lookup] of the key then finds the new entry and every other key is
    found as before; no deleter is called.  If the new usage does not exceed
    the capacity the loop evicts nothing and this is the state [Insert]
    returns with. *)
Theorem X15_Insert_new_key (capacity : Z) (s : Sys) (k : list byte)
    (hsh v chg del : Z) :
  reachable capacity s → in_range s → strlen k < 2 ^ 31 →
  HT.Lookup (heap (mem s)) (table_ (impl s)) k hsh = Some None →
  let e := brk (mem s) in
  let ent := mkLRUHandle v del chg (wrap64 (Impl.int_of (strlen k))) 2 hsh (cstr k) in
  let m4 := mkMem (<[e := ent]> (heap (mem s))) (S e) (deleted (mem s)) in
  ∃ c4,
    Impl.Insert_link (mem s) (impl s) k hsh v chg del = Some (m4, c4, e) ∧
    heap (mem s) !! e = None ∧
    lru_ c4 = lru_ (impl s) ++ [e] ∧
    usage_ c4 = wrap64 (usage_ (impl s) + chg) ∧
    capacity_ c4 = capacity_ (impl s) ∧
    content (table_ c4) ≡ₚ e :: content (table_ (impl s)) ∧
    HT.Lookup (heap m4) (table_ c4) k hsh = Some (Some e) ∧
    (∀ k' hsh', (hsh', cstr k') ≠ (hsh, cstr k) →
       HT.Lookup (heap m4) (table_ c4) k' hsh'
       = HT.Lookup (heap (mem s)) (table_ (impl s)) k' hsh') ∧
    (wrap64 (usage_ (impl s) + chg) ≤ capacity_ (impl s) →
     Impl.Insert (mem s) (impl s) k hsh v chg del = Some (m4, c4, e)).
Proof.
  intros Hr [Hel Hheld] Hkey HL e ent m4.
  pose proof (reachable_SysInv _ _ Hr) as [HI _ _].
  destruct (Insert_inv _ _ _ k hsh v chg del HI Hel Hkey)
    as (old & m4' & c4 & m5 & c5 & Hlink & HIns & HL' & Hfresh & HeP & Hnl & HI4 &
        Hent4 & Hcap4 & Hb4 & HL4 & Hold & Hev).
  rewrite HL in HL'. injection HL' as <-.
  destruct Hold as (Hl4 & Hm4 & Hu4).
  assert (m4' = m4) as -> by done.
  pose proof (inv_table _ _ _ HI) as Hwf.
  pose proof (inv_table _ _ _ HI4) as Hwf4.
  assert (content (table_ c4) ≡ₚ e :: content (table_ (impl s))) as Hperm.
  { rewrite <- (inv_lru _ _ _ HI4), Hl4, <- (inv_lru _ _ _ HI).
    symmetry. apply Permutation_cons_append. }
  assert (agree (content (table_ (impl s))) (heap (mem s)) (heap m4)) as Hag.
  { apply agree_alloc; [|done]. intros q Hq. by eapply content_in_heap. }
  exists c4. split_and!; try done.
  - intros k' hsh' Hne.
    rewrite (Lookup_agree _ _ _ k' hsh' Hag).
    apply Lookup_by_content; [done|by eapply table_wf_agree|].
    intros p Hs. rewrite Hperm, elem_of_cons.
    assert (sig_of (heap m4) e = Some (hsh, cstr k)) as Hse
      by (by apply (sig_of_entry _ _ ent)).
    assert (p ≠ e) as Hpe by (intros ->; congruence).
    split; [by intros [?|?]|by right].
  - intros Hfit. rewrite HIns. rewrite evict_within in Hev by lia.
    by injection Hev as <- <-.
Qed.

Lemma X15_witness :
  reachable 10 one_entry ∧ in_range one_entry ∧ strlen [x62] < 2 ^ 31 ∧
  HT.Lookup (heap (mem one_entry)) (table_ (impl one_entry)) [x62] 1
  = Some None ∧
  ∃ m4 c4, Impl.Insert_link (mem one_entry) (impl one_entry) [x62] 1 102 1 7
           = Some (m4, c4, 1%nat) ∧
           lru_ c4 = [0%nat; 1%nat] ∧ usage_ c4 = 9 ∧
           HT.Lookup (heap m4) (table_ c4) [x62] 1 = Some (Some 1%nat) ∧
           HT.Lookup (heap m4) (table_ c4) [x61] 0 = Some (Some 0%nat) ∧
           Impl.Insert (mem one_entry) (impl one_entry) [x62] 1 102 1 7
           = Some (m4, c4, 1%nat).
Proof.
  assert (strlen [x62] < 2 ^ 31) as Hk by reflexivity.
  assert ((0, cstr [x61]) ≠ (1, cstr [x62])) as Hne by discriminate.
  split; [exact one_entry_reachable|]. split; [exact one_entry_in_range|].
  split; [exact Hk|]. split; [reflexivity|].
  destruct (X15_Insert_new_key 10 one_entry [x62] 1 102 1 7
              one_entry_reachable one_entry_in_range Hk eq_refl)
    as (c4 & H1 & _ & H2 & H3 & _ & _ & H4 & H5 & H6).
  eexists _, c4. split; [exact H1|]. split; [exact H2|]. split; [exact H3|].
  split; [exact H4|]. split; [|apply H6; vm_compute; discriminate].
  rewrite (H5 [x61] 0 Hne). reflexivity.
Defined.



(** X17.  Round trip through a shard.  When an [Insert] made in a reachable
    state returns with the usage within the capacity, a [Lookup] of the key
    right after it returns the handle [Insert] returned, whose value is the
    one inserted; the entry then has three references, one of the cache and
    two of the client, and is the newest on the recency list. *)
Theorem X17_Insert_then_Lookup (capacity : Z) (s s' : Sys) (k : list byte)
    (hsh v chg del : Z) :
  reachable capacity s → in_range s →
  step (OInsert k hsh v chg del) s = Some s' → in_range s' →
  usage_ (impl s') ≤ capacity_ (impl s') →
  ∃ m2 c2 h,
    Impl.Lookup (mem s') (impl s') k hsh = Some (m2, c2, Some (brk (mem s))) ∧
    held s' = brk (mem s) :: held s ∧
    Sharded.Value m2 (brk (mem s)) = Some v ∧
    heap m2 !! brk (mem s) = Some h ∧ refs h = 3 ∧
    last (lru_ c2) = Some (brk (mem s)).
Proof.
  intros Hr [Hel Hheld] Hstep [_ Hheld'] Hfit.
  pose proof (reachable_SysInv _ _ Hr) as [HI _ _].
  destruct (Insert_binding _ _ _ k hsh v chg del HI Hel (step_fits _ _ _ Hstep))
    as (m5 & c5 & r & HIns & HI5 & _ & _ & _ & _ & _ & Hh5 & _ & Hcase).
  unfold step in Hstep. rewrite HIns in Hstep. simpl in Hstep.
  injection Hstep as <-. cbn [mem impl held] in *.
  destruct Hcase as [(_ & _ & -> & HL)|(Hgt & _)]; [|lia].
  destruct (Lookup_inv _ _ _ k hsh HI5 Hheld') as (r & HL' & Hres).
  rewrite HL in HL'. injection HL' as <-.
  destruct Hres as (h & l1 & l2 & Hh & Hl & _ & HLk & _).
  rewrite Hh5 in Hh. injection Hh as <-.
  eexists _, _, _. split; [exact HLk|]. split; [done|].
  unfold Sharded.Value. cbn [store heap].
  rewrite lookup_insert_eq. split_and!; try done.
  cbn [Impl.set_lru lru_]. by rewrite !(assoc_L (++)), last_snoc.
Qed.

Lemma X17_witness :
  reachable 10 fresh10 ∧ in_range fresh10 ∧
  step (OInsert [x61] 0 101 8 7) fresh10 = Some one_entry ∧
  in_range one_entry ∧ usage_ (impl one_entry) ≤ capacity_ (impl one_entry) ∧
  ∃ m2 c2, Impl.Lookup (mem one_entry) (impl one_entry) [x61] 0
           = Some (m2, c2, Some 0%nat) ∧
           Sharded.Value m2 0%nat = Some 101.
Proof.
  assert (usage_ (impl one_entry) ≤ capacity_ (impl one_entry)) as H
    by (vm_compute; discriminate).
  split; [exact fresh10_reachable|]. split; [exact fresh10_in_range|].
  split; [exact one_entry_step|]. split; [exact one_entry_in_range|].
  split; [exact H|].
  destruct (X17_Insert_then_Lookup 10 fresh10 one_entry [x61] 0 101 8 7
              fresh10_reachable fresh10_in_range one_entry_step
              one_entry_in_range H)
    as (m2 & c2 & h & H1 & _ & H2 & _).
  exists m2, c2. exact (conj H1 H2).
Defined.

(** X18.  [Erase] of one key leaves every other key alone.  In a reachable
    state, after [Erase] of a key a [Lookup] of any other key or hash finds
    the entry it found before, with the same value; the order of the
    remaining entries on the recency list and the capacity are unchanged. *)
Theorem X18_Erase_other_keys (capacity : Z) (s : Sys) (k k' : list byte)
    (hsh hsh' : Z) :
  reachable capacity s → (hsh', cstr k') ≠ (hsh, cstr k) →
  ∃ m' c' q r,
    Impl.Erase (mem s) (impl s) k hsh = Some (m', c') ∧
    HT.Lookup (heap (mem s)) (table_ (impl s)) k hsh = Some q ∧
    HT.Lookup (heap (mem s)) (table_ (impl s)) k' hsh' = Some r ∧
    HT.Lookup (heap m') (table_ c') k' hsh' = Some r ∧
    r ≫= Sharded.Value m' = r ≫= Sharded.Value (mem s) ∧
    capacity_ c' = capacity_ (impl s) ∧
    lru_ c' = filter (λ p, Some p ≠ q) (lru_ (impl s)).
Proof.
  intros Hr Hne. pose proof (reachable_SysInv _ _ Hr) as [HI _ _].
  pose proof (inv_table _ _ _ HI) as Hwf.
  destruct (Lookup_spec _ _ k' hsh' Hwf) as (r & HLr & Hsr).
  destruct (Erase_inv _ _ _ k hsh HI) as (q & HLq & Hres).
  destruct q as [p|].
  - destruct Hres as (h & m' & c' & l1 & l2 & Hh & HE & HI' & Hl & Hl' & Hnl &
                      Hperm & Hnc & Hcap & _ & _ & Hd).
    pose proof (inv_table _ _ _ HI') as Hwf'.
    destruct (Lookup_spec _ _ k hsh Hwf) as (q & HLq' & Hsq).
    rewrite HLq in HLq'. injection HLq' as <-. destruct Hsq as [Hpc Hsp].
    assert (agree (content (table_ c')) (heap (mem s)) (heap m')) as Hag
      by (by eapply ref_dropped_agree).
    assert (HT.Lookup (heap m') (table_ c') k' hsh' = Some r) as HL'.
    { rewrite <- (Lookup_agree _ _ _ k' hsh' Hag), <- HLr.
      apply Lookup_by_content; [|done|].
      - apply (table_wf_agree (heap m') _ _ Hwf'). by apply agree_sym.
      - intros x Hx. rewrite Hperm, elem_of_cons.
        assert (x ≠ p) by (intros ->; congruence).
        split; [by right|by intros [?|?]]. }
    exists m', c', (Some p), r. split_and!; try done.
    + destruct r as [x|]; [simpl|done]. destruct Hsr as [Hxc Hsx].
      assert (x ≠ p) as Hxp by (intros ->; congruence).
      unfold Sharded.Value.
      destruct Hd as [(_ & _ & _ & -> & _)|(_ & _ & -> & _)]; simpl.
      * by rewrite lookup_delete_ne.
      * by rewrite lookup_insert_ne.
    + rewrite Hl', Hl.
      assert (NoDup (l1 ++ p :: l2)) as Hnd
        by (rewrite <- Hl; by eapply Inv_NoDup_lru).
      pose proof (NoDup_middle_notin _ _ _ Hnd) as Hnotin.
      rewrite filter_app, filter_cons_False by (intros H; by apply H).
      rewrite !filter_all; [done| |].
      * intros x Hx [= ->]. apply Hnotin. apply elem_of_app. by right.
      * intros x Hx [= ->]. apply Hnotin. apply elem_of_app. by left.
  - exists (mem s), (impl s), None, r. split_and!; try done.
    symmetry. by apply filter_all.
Qed.

Lemma X18_witness :
  reachable 10 one_entry ∧ (1, cstr [x62]) ≠ (0, cstr [x61]) ∧
  ∃ m' c' r,
    Impl.Erase (mem one_entry) (impl one_entry) [x61] 0 = Some (m', c') ∧
    HT.Lookup (heap m') (table_ c') [x62] 1 = Some r.
Proof.
  assert ((1, cstr [x62]) ≠ (0, cstr [x61])) as H by discriminate.
  split; [exact one_entry_reachable|]. split; [exact H|].
  destruct (X18_Erase_other_keys 10 one_entry [x61] [x62] 0 1
              one_entry_reachable H) as (m' & c' & q & r & H1 & _ & _ & H2 & _).
  exists m', c', r. exact (conj H1 H2).
Defined.

(** ** One shard: the destructor *)

Lemma calls_for_ext hp hp' l :
  (∀ p, p ∈ l → hp !! p = hp' !! p) → calls_for hp l = calls_for hp' l.
Proof.
  induction l as [|x l IH]; intros H; [done|].
  simpl. rewrite (H x) by left.
  rewrite IH; [done|]. intros p Hp. apply H. by right.
Qed.

Lemma destructor_loop_ok l : ∀ m c,
  NoDup l → (∀ p, p ∈ l → ∃ h, heap m !! p = Some h ∧ refs h = 1) →
  ∃ m', destructor_loop l m c = Some m' ∧ brk m' = brk m ∧
    (∀ q, heap m' !! q = if decide (q ∈ l) then None else heap m !! q) ∧
    deleted m' = deleted m ++ calls_for (heap m) l.
Proof.
  induction l as [|p l IH]; intros m c Hnd Hl.
  - exists m. split_and!; [done|done| |by rewrite app_nil_r].
    intros q. by rewrite decide_False by apply not_elem_of_nil.
  - apply NoDup_cons in Hnd as [Hp Hnd].
    destruct (Hl p) as (h & Hh & Hr); [left|].
    assert (∀ q, q ∈ l → heap (delete_and_free m p h) !! q = heap m !! q) as Hsame.
    { intros q Hq. simpl. apply lookup_delete_ne. by intros ->. }
    destruct (IH (delete_and_free m p h)
                (Impl.set_usage (wrap64 (usage_ c - charge h)) c) Hnd)
      as (m' & Hd & Hb & Hheap & Hlog).
    { intros q Hq. rewrite (Hsame q Hq). apply Hl. by right. }
    exists m'. split_and!.
    + simpl. rewrite Hh. simpl. rewrite Hr. simpl.
      rewrite (Unref_last m c p h Hh Hr). simpl. exact Hd.
    + by rewrite Hb.
    + intros q. rewrite Hheap. destruct (decide (q = p)) as [->|Hne].
      * rewrite decide_False by done. rewrite decide_True by left.
        simpl. apply lookup_delete_eq.
      * destruct (decide (q ∈ l)) as [Hq|Hq].
        -- rewrite decide_True by (by right). done.
        -- rewrite decide_False by (by intros [?|?]%elem_of_cons).
           simpl. by apply lookup_delete_ne.
    + rewrite Hlog. simpl. rewrite <- (assoc_L (++)). f_equal.
      rewrite Hh. simpl. f_equal. by apply calls_for_ext.
Qed.

Lemma destructor_loop_fails l : ∀ m c p h,
  p ∈ l → heap m !! p = Some h → refs h ≠ 1 → destructor_loop l m c = None.
Proof.
  induction l as [|q l IH]; intros m c p h Hp Hh Hr.
  - by apply elem_of_nil in Hp.
  - simpl. destruct (decide (q = p)) as [->|Hne].
    + rewrite Hh. simpl.
      by assert ((refs h =? 1) = false) as -> by (by apply Z.eqb_neq).
    + apply elem_of_cons in Hp as [->|Hp]; [done|].
      destruct (heap m !! q) as [hq|] eqn:Hq; [simpl|done].
      destruct (refs hq =? 1) eqn:E; [|done]. apply Z.eqb_eq in E.
      rewrite (Unref_last m c q hq Hq E). simpl.
      apply (IH _ _ p h); try done. simpl. by rewrite lookup_delete_ne.
Qed.


Lemma one_released_reachable : reachable 10 one_released.
Proof.
  assert (step (ORelease 0) one_entry = Some one_released) as Hs
    by reflexivity.
  exact (reach_step 10 one_entry _ _ one_entry_reachable one_entry_in_range Hs).
Defined.




(** ** Entries outside a shard

    The operations of a shard read and write the entries chained in its
    table and the entry they are given: on a memory that holds further
    entries they do the same, and leave those entries alone. *)

Lemma chain_find_mono hp hp' k hsh chain : ∀ j,
  hp ⊆ hp' → HT.chain_find hp k hsh chain = Some j →
  HT.chain_find hp' k hsh chain = Some j.
Proof.
  induction chain as [|p chain IH]; intros j Hsub; simpl; [done|].
  destruct (hp !! p) as [e|] eqn:He; [|done].
  rewrite (lookup_weaken _ _ _ _ He Hsub). simpl.
  destruct (HT.matches e k hsh); [done|].
  destruct (HT.chain_find hp k hsh chain) as [j'|]; [|done].
  by rewrite (IH j' Hsub eq_refl).
Qed.

Lemma FindPointer_mono hp hp' t k hsh slot :
  hp ⊆ hp' → HT.FindPointer hp t k hsh = Some slot →
  HT.FindPointer hp' t k hsh = Some slot.
Proof.
  intros Hsub. unfold HT.FindPointer.
  destruct (list_ t !! _) as [chain|]; [simpl|done].
  destruct (HT.chain_find hp k hsh chain) as [j|] eqn:E; [|done].
  by rewrite (chain_find_mono _ _ _ _ _ _ Hsub E).
Qed.

Lemma HT_Lookup_mono hp hp' t k hsh r :
  hp ⊆ hp' → HT.Lookup hp t k hsh = Some r → HT.Lookup hp' t k hsh = Some r.
Proof.
  intros Hsub. unfold HT.Lookup.
  destruct (HT.FindPointer hp t k hsh) as [slot|] eqn:E; [|done].
  by rewrite (FindPointer_mono _ _ _ _ _ _ Hsub E).
Qed.

Lemma HT_Remove_mono hp hp' t k hsh r :
  hp ⊆ hp' → HT.Remove hp t k hsh = Some r → HT.Remove hp' t k hsh = Some r.
Proof.
  intros Hsub. unfold HT.Remove.
  destruct (HT.FindPointer hp t k hsh) as [slot|] eqn:E; [|done].
  by rewrite (FindPointer_mono _ _ _ _ _ _ Hsub E).
Qed.

Lemma Resize_chain_mono hp hp' len chain : ∀ acc cnt r,
  hp ⊆ hp' → HT.Resize_chain hp len chain acc cnt = Some r →
  HT.Resize_chain hp' len chain acc cnt = Some r.
Proof.
  induction chain as [|h chain IH]; intros acc cnt r Hsub; simpl; [done|].
  destruct (hp !! h) as [e|] eqn:He; [|done].
  rewrite (lookup_weaken _ _ _ _ He Hsub). simpl.
  destruct (acc !! _) as [c|]; [simpl|done]. by apply IH.
Qed.

Lemma Resize_buckets_mono hp hp' len buckets : ∀ acc cnt r,
  hp ⊆ hp' → HT.Resize_buckets hp len buckets acc cnt = Some r →
  HT.Resize_buckets hp' len buckets acc cnt = Some r.
Proof.
  induction buckets as [|chain bs IH]; intros acc cnt r Hsub; simpl; [done|].
  destruct (HT.Resize_chain hp len chain acc cnt) as [[nl c]|] eqn:E; [|done].
  rewrite (Resize_chain_mono _ _ _ _ _ _ _ Hsub E). simpl. by apply IH.
Qed.

Lemma Resize_mono hp hp' t t' :
  hp ⊆ hp' → HT.Resize hp t = Some t' → HT.Resize hp' t = Some t'.
Proof.
  intros Hsub. unfold HT.Resize.
  destruct (HT.Resize_length 32 4 (elems_ t)) as [nl|]; [simpl|done].
  destruct (HT.Resize_buckets hp nl _ _ _) as [[l c]|] eqn:E; [|done].
  by rewrite (Resize_buckets_mono _ _ _ _ _ _ _ Hsub E).
Qed.

Lemma HT_Insert_mono hp hp' t h r :
  hp ⊆ hp' → HT.Insert hp t h = Some r → HT.Insert hp' t h = Some r.
Proof.
  intros Hsub. unfold HT.Insert.
  destruct (hp !! h) as [e|] eqn:He; [|done].
  rewrite (lookup_weaken _ _ _ _ He Hsub). simpl.
  destruct (HT.FindPointer hp t (key e) (hash e)) as [slot|] eqn:E; [|done].
  rewrite (FindPointer_mono _ _ _ _ _ _ Hsub E). simpl.
  destruct (list_ t !! slot.1) as [chain|]; [simpl|done].
  destruct (chain !! slot.2); [done|].
  destruct (_ <? _); [|done].
  destruct (HT.Resize hp _) as [t3|] eqn:ER; [|done].
  by rewrite (Resize_mono _ _ _ _ Hsub ER).
Qed.

Lemma sub_union (F hp : gmap ptr LRUHandle) : hp ⊆ hp ∪ F.
Proof. apply map_union_subseteq_l. Qed.

Lemma store_extend F m p x : store (extend F m) p x = extend F (store m p x).
Proof. unfold store, extend. simpl. by rewrite insert_union_l. Qed.

Lemma delete_and_free_extend F m p h :
  F !! p = None →
  delete_and_free (extend F m) p h = extend F (delete_and_free m p h).
Proof.
  intros Hp. unfold delete_and_free, extend. simpl.
  by rewrite delete_union, (delete_id F).
Qed.

Lemma Unref_frame F m c e m' c' :
  heap m ##ₘ F → Impl.Unref m c e = Some (m', c') →
  Impl.Unref (extend F m) c e = Some (extend F m', c') ∧ heap m' ##ₘ F.
Proof.
  intros Hd. unfold Impl.Unref. cbn [extend heap].
  destruct (heap m !! e) as [h|] eqn:He; [|done].
  rewrite (lookup_weaken _ _ _ _ He (sub_union F _)). simpl.
  pose proof (map_disjoint_Some_l _ _ _ _ Hd He) as HF.
  destruct (0 <? refs h); [|done]. destruct (_ <=? 0); intros [= <- <-].
  - rewrite delete_and_free_extend by done. split; [done|].
    simpl. by apply map_disjoint_delete_l.
  - rewrite store_extend. split; [done|].
    simpl. by apply map_disjoint_insert_l.
Qed.

Lemma Impl_Lookup_frame F m c k hsh m' c' r :
  heap m ##ₘ F → Impl.Lookup m c k hsh = Some (m', c', r) →
  Impl.Lookup (extend F m) c k hsh = Some (extend F m', c', r) ∧
  heap m' ##ₘ F.
Proof.
  intros Hd. unfold Impl.Lookup. cbn [extend heap].
  destruct (HT.Lookup (heap m) (table_ c) k hsh) as [q|] eqn:E; [|done].
  rewrite (HT_Lookup_mono _ _ _ _ _ _ (sub_union F _) E). simpl.
  destruct q as [e|]; [|by intros [= <- <- <-]].
  destruct (heap m !! e) as [h|] eqn:He; [|done].
  rewrite (lookup_weaken _ _ _ _ He (sub_union F _)). simpl.
  destruct (Impl.LRU_Remove c e) as [c1|]; [simpl|done].
  intros [= <- <- <-]. rewrite store_extend. split; [done|].
  simpl. apply map_disjoint_insert_l. split; [|done].
  by eapply map_disjoint_Some_l.
Qed.

Lemma evict_one_frame F m c old m' c' :
  heap m ##ₘ F → Impl.evict_one m c old = Some (m', c') →
  Impl.evict_one (extend F m) c old = Some (extend F m', c') ∧ heap m' ##ₘ F.
Proof.
  intros Hd. unfold Impl.evict_one. cbn [extend heap].
  destruct (Impl.LRU_Remove c old) as [c1|]; [simpl|done].
  destruct (heap m !! old) as [h|] eqn:He; [|done].
  rewrite (lookup_weaken _ _ _ _ He (sub_union F _)). simpl.
  destruct (HT.Remove (heap m) _ _ _) as [[t q]|] eqn:E; [|done].
  rewrite (HT_Remove_mono _ _ _ _ _ _ (sub_union F _) E). simpl.
  by apply Unref_frame.
Qed.

Lemma evict_frame F l : ∀ m c m' c',
  heap m ##ₘ F → Impl.evict l m c = Some (m', c') →
  Impl.evict l (extend F m) c = Some (extend F m', c') ∧ heap m' ##ₘ F.
Proof.
  induction l as [|old l IH]; intros m c m' c' Hd; simpl.
  { by intros [= <- <-]. }
  destruct (capacity_ c <? usage_ c); [|by intros [= <- <-]].
  destruct (Impl.evict_one m c old) as [[m1 c1]|] eqn:E; [|done].
  destruct (evict_one_frame F _ _ _ _ _ Hd E) as [-> Hd1]. simpl.
  by apply IH.
Qed.

Lemma Insert_link_frame F m c k hsh v chg del m' c' e :
  heap m ##ₘ F → F !! brk m = None →
  Impl.Insert_link m c k hsh v chg del = Some (m', c', e) →
  Impl.Insert_link (extend F m) c k hsh v chg del = Some (extend F m', c', e) ∧
  heap m' ##ₘ F.
Proof.
  intros Hd Hb. unfold Impl.Insert_link, malloc. cbv zeta.
  destruct (Impl.int_of (strlen k) =? strlen k); [|done].
  cbn [brk extend heap deleted].
  set (ent := mkLRUHandle _ _ _ _ _ _ _).
  set (m1 := mkMem (<[brk m:=ent]> (heap m)) (S (brk m)) (deleted m)).
  assert (mkMem (<[brk m:=ent]> (heap m ∪ F)) (S (brk m)) (deleted m)
          = extend F m1) as -> by (unfold extend; simpl; by rewrite insert_union_l).
  assert (heap m1 ##ₘ F) as Hd1 by (by apply map_disjoint_insert_l).
  destruct (HT.Insert (<[brk m:=ent]> (heap m)) _ _) as [[t old]|] eqn:E;
    [|done].
  rewrite insert_union_l.
  rewrite (HT_Insert_mono _ _ _ _ _ (sub_union F _) E). simpl.
  destruct old as [o|].
  - destruct (Impl.LRU_Remove _ o) as [c2|]; [simpl|done].
    destruct (Impl.Unref m1 c2 o) as [[m4 c4]|] eqn:EU; [|done].
    destruct (Unref_frame F _ _ _ _ _ Hd1 EU) as [-> Hd4]. simpl.
    by intros [= <- <- <-].
  - by intros [= <- <- <-].
Qed.

Lemma Impl_Insert_frame F m c k hsh v chg del m' c' e :
  heap m ##ₘ F → F !! brk m = None →
  Impl.Insert m c k hsh v chg del = Some (m', c', e) →
  Impl.Insert (extend F m) c k hsh v chg del = Some (extend F m', c', e) ∧
  heap m' ##ₘ F.
Proof.
  intros Hd Hb. unfold Impl.Insert.
  destruct (Impl.Insert_link m c k hsh v chg del) as [[[m4 c4] e4]|] eqn:E;
    [|done].
  destruct (Insert_link_frame F _ _ _ _ _ _ _ _ _ _ Hd Hb E) as [-> Hd4]. simpl.
  destruct (Impl.evict (lru_ c4) m4 c4) as [[m5 c5]|] eqn:EE; [|done].
  destruct (evict_frame F _ _ _ _ _ Hd4 EE) as [-> Hd5]. simpl.
  by intros [= <- <- <-].
Qed.

Lemma Impl_Erase_frame F m c k hsh m' c' :
  heap m ##ₘ F → Impl.Erase m c k hsh = Some (m', c') →
  Impl.Erase (extend F m) c k hsh = Some (extend F m', c') ∧ heap m' ##ₘ F.
Proof.
  intros Hd. unfold Impl.Erase. cbn [extend heap].
  destruct (HT.Remove (heap m) _ _ _) as [[t q]|] eqn:E; [|done].
  rewrite (HT_Remove_mono _ _ _ _ _ _ (sub_union F _) E). simpl.
  destruct q as [e|]; [|by intros [= <- <-]].
  destruct (Impl.LRU_Remove _ e) as [c2|]; [simpl|done].
  by apply Unref_frame.
Qed.

(** ** The sharded cache: every shard with its own entries *)

Lemma part_lookup i hp p e :
  part i hp !! p = Some e ↔ hp !! p = Some e ∧ owner e = i.
Proof. unfold part. by rewrite map_lookup_filter_Some. Qed.

Lemma rest_lookup i hp p e :
  rest i hp !! p = Some e ↔ hp !! p = Some e ∧ owner e ≠ i.
Proof. unfold rest. by rewrite map_lookup_filter_Some. Qed.

Lemma part_rest_disjoint i hp : part i hp ##ₘ rest i hp.
Proof.
  apply map_disjoint_spec.
  intros p x y [H1 Hx]%part_lookup [H2 Hy]%rest_lookup.
  rewrite H1 in H2. by injection H2 as <-.
Qed.

Lemma part_rest_lookup i hp p :
  (part i hp ∪ rest i hp) !! p = hp !! p.
Proof.
  apply option_eq. intros e.
  rewrite (lookup_union_Some _ _ _ _ (part_rest_disjoint i hp)).
  rewrite part_lookup, rest_lookup.
  destruct (decide (owner e = i)) as [Ho|Ho].
  - split; [by intros [[? _]|[? _]]|intros He; by left].
  - split; [by intros [[? _]|[? _]]|intros He; by right].
Qed.

Lemma extend_view i m : extend (rest i (heap m)) (view i m) = m.
Proof.
  destruct m as [hp b d]. unfold extend, view. simpl. f_equal.
  apply map_eq. intros p. apply part_rest_lookup.
Qed.

Lemma owned_disjoint i F m : owned i F m → heap m ##ₘ F.
Proof.
  intros [H _]. apply map_disjoint_spec. intros p x y Hx Hy.
  destruct (H p x Hx) as (_ & _ & HF). congruence.
Qed.

Lemma owned_closed i F : refs_closed (owned i F).
Proof.
  intros m p h [Hh Hl] Hp. destruct (Hh p h Hp) as (Ho & Hr & HF). split.
  - split; simpl.
    + intros q e [_ Hq]%lookup_delete_Some. by apply Hh.
    + intros d [Hd|Hd]%elem_of_app; [by apply Hl|].
      by apply list_elem_of_singleton in Hd as ->.
  - intros r. split; simpl; [|done].
    intros q e [[<- <-]|[_ Hq]]%lookup_insert_Some; [done|by apply Hh].
Qed.

Lemma filter_ext_in {A} (P1 P2 : A → Prop) `{∀ x, Decision (P1 x)}
    `{∀ x, Decision (P2 x)} (l : list A) :
  (∀ x, x ∈ l → P1 x ↔ P2 x) → filter P1 l = filter P2 l.
Proof.
  induction l as [|x l IH]; intros Hl; [done|].
  rewrite !filter_cons.
  assert (P1 x ↔ P2 x) as Hx by (apply Hl; left).
  rewrite IH by (intros y Hy; apply Hl; by right).
  destruct (decide (P1 x)), (decide (P2 x)); tauto.
Qed.

Lemma pins_filter (f : ptr → Prop) `{∀ x, Decision (f x)} p l :
  f p → pins p (filter f l) = pins p l.
Proof.
  intros Hp. induction l as [|x l IH]; [done|].
  rewrite filter_cons. destruct (decide (f x)) as [Hx|Hx]; simpl.
  - by rewrite IH.
  - rewrite IH. destruct (decide (x = p)) as [->|]; [done|lia].
Qed.

Section SInvFacts.
Context (m : Mem) (sc : ShardedLRUCache) (P : list ptr).
Hypothesis HS : SInv m sc P.

Lemma SInv_owner p e :
  heap m !! p = Some e →
  ∃ c, shard_ sc !! owner e = Some c ∧
       Inv (view (owner e) m) c (handles_of (owner e) (heap m) P) ∧
       heap (view (owner e) m) !! p = Some e.
Proof.
  intros He. pose proof (Shard_lt _ (sinv_hash _ _ _ HS p e He)) as Hlt.
  fold (owner e) in Hlt. rewrite <- (sinv_len _ _ _ HS) in Hlt.
  destruct (lookup_lt_is_Some_2 _ _ Hlt) as [c Hc].
  exists c. split; [done|]. split; [by apply (sinv_shard _ _ _ HS)|].
  simpl. by apply part_lookup.
Qed.

Lemma SInv_below p e : heap m !! p = Some e → (p < brk m)%nat.
Proof.
  intros He. destruct (SInv_owner p e He) as (c & _ & HI & Hv).
  by destruct (inv_heap _ _ _ HI p e Hv) as [? _].
Qed.

Lemma SInv_log d : d ∈ deleted m → heap m !! call_entry d = None.
Proof.
  intros Hd. destruct (heap m !! call_entry d) as [e|] eqn:He; [|done].
  destruct (SInv_owner _ e He) as (c & _ & HI & Hv).
  destruct (proj2 (inv_log _ _ _ HI) d Hd) as [_ Hn]. congruence.
Qed.

Lemma SInv_owned i : owned i (rest i (heap m)) (view i m).
Proof.
  split.
  - intros p e [He Ho]%part_lookup. split; [done|].
    split; [by apply (sinv_hash _ _ _ HS p e)|].
    apply eq_None_not_Some. intros [e' [He' Ho']%rest_lookup]. congruence.
  - intros d Hd. apply eq_None_not_Some.
    intros [e' [He' _]%rest_lookup]. rewrite (SInv_log d Hd) in He'. done.
Qed.

Lemma SInv_fresh i : rest i (heap m) !! brk m = None.
Proof.
  apply eq_None_not_Some. intros [e [He _]%rest_lookup].
  pose proof (SInv_below _ _ He). lia.
Qed.

End SInvFacts.

Lemma Inv_frame m m' c P :
  Inv m c P → heap m' = heap m → (brk m ≤ brk m')%nat →
  NoDup (call_entry <$> deleted m') →
  (∀ d, d ∈ deleted m' →
     (call_entry d < brk m')%nat ∧ heap m !! call_entry d = None) →
  Inv m' c P.
Proof.
  intros HI Hh Hb Hnd Hlog. split.
  - rewrite Hh. apply HI.
  - apply HI.
  - intros p e. rewrite Hh. intros He.
    destruct (inv_heap _ _ _ HI p e He) as (H1 & H2 & H3 & H4).
    split; [lia|done].
  - intros p Hp. rewrite Hh. by apply (inv_pinned _ _ _ HI).
  - rewrite Hh. apply HI.
  - split; [done|]. intros d Hd. rewrite Hh. by apply Hlog.
Qed.

Lemma handles_of_other j hp p P :
  owner <$> hp !! p ≠ Some j → handles_of j hp (p :: P) = handles_of j hp P.
Proof. intros H. unfold handles_of. by rewrite filter_cons_False. Qed.

Lemma handles_of_own i hp p P :
  owner <$> hp !! p = Some i → handles_of i hp (p :: P) = p :: handles_of i hp P.
Proof. intros H. unfold handles_of. by rewrite filter_cons_True. Qed.

Lemma handles_of_perm i hp : Proper ((≡ₚ) ==> (≡ₚ)) (handles_of i hp).
Proof. intros l l' Hl. unfold handles_of. by rewrite Hl. Qed.

Lemma view_extend i m m1 :
  owned i (rest i (heap m)) m1 → view i (extend (rest i (heap m)) m1) = m1.
Proof.
  intros Hown. pose proof (owned_disjoint _ _ _ Hown) as Hd.
  destruct m1 as [hp1 b1 d1]. unfold view, extend. simpl in *. f_equal.
  apply map_eq. intros p. apply option_eq. intros e.
  rewrite part_lookup, (lookup_union_Some _ _ _ _ Hd). split.
  - intros [[He|[He Ho]%rest_lookup] Ho']; done.
  - intros He. split; [by left|]. by destruct (proj1 Hown p e He).
Qed.

Lemma extend_other i m m1 p e :
  owned i (rest i (heap m)) m1 → owner e ≠ i →
  heap (extend (rest i (heap m)) m1) !! p = Some e ↔ heap m !! p = Some e.
Proof.
  intros Hown Ho. pose proof (owned_disjoint _ _ _ Hown) as Hd. simpl.
  rewrite (lookup_union_Some _ _ _ _ Hd), rest_lookup. split.
  - intros [He|[He _]]; [|done]. by destruct (proj1 Hown p e He).
  - intros He. by right.
Qed.

(** Re-establishing the invariant after shard [i] has worked on its own
    entries: [m1], [c1] and [P1] are the memory, the shard and the handles
    as the shard-level reasoning gives them; [N] are the handles to entries
    allocated by the operation and [P0] the other handles held. *)
Lemma SInv_update m sc P i c m1 c1 P1 N P0 :
  SInv m sc P → shard_ sc !! i = Some c →
  Inv m1 c1 P1 → owned i (rest i (heap m)) m1 → (brk m ≤ brk m1)%nat →
  P1 ≡ₚ N ++ handles_of i (heap m) P0 →
  (∀ n, n ∈ N → heap m !! n = None) →
  (∀ q, q ∈ P0 → is_Some (heap m !! q)) →
  (∀ j, j ≠ i → handles_of j (heap m) P0 ≡ₚ handles_of j (heap m) P) →
  SInv (extend (rest i (heap m)) m1) (Sharded.set_shard i c1 sc) (N ++ P0).
Proof.
  intros HS Hc HI1 Hown Hb HP1 HN HP0 HPj.
  set (F := rest i (heap m)) in *.
  pose proof (owned_disjoint _ _ _ Hown) as Hd.
  assert (i < length (shard_ sc))%nat as Hi by (by eapply lookup_lt_Some).
  assert (∀ p e, heap m1 !! p = Some e → owner e = i) as Hmine
    by (intros p e He; by destruct (proj1 Hown p e He)).
  assert (∀ p, p ∈ P1 → is_Some (heap m1 !! p)) as Hpin
    by apply (inv_pinned _ _ _ HI1).
  assert (∀ q, q ∈ P0 → is_Some (heap m1 !! q) ↔
                         owner <$> heap m !! q = Some i) as HP0i.
  { intros q Hq. destruct (HP0 q Hq) as [e0 He0]. rewrite He0. simpl. split.
    - intros [e' He']. f_equal.
      destruct (decide (owner e0 = i)) as [|Hne]; [done|].
      destruct (proj1 Hown q e' He') as (_ & _ & HF).
      assert (F !! q = Some e0) by (by apply rest_lookup). congruence.
    - intros Ho. apply Hpin. rewrite HP1. apply elem_of_app. right.
      apply list_elem_of_filter. split; [|done]. by rewrite He0. }
  split.
  - simpl. by rewrite length_insert, (sinv_len _ _ _ HS).
  - intros p e. simpl. rewrite (lookup_union_Some _ _ _ _ Hd).
    intros [He|[He _]%rest_lookup].
    + by destruct (proj1 Hown p e He) as (_ & ? & _).
    + by apply (sinv_hash _ _ _ HS p e).
  - intros p [Hp|Hp]%elem_of_app; simpl.
    + destruct (Hpin p) as [e He].
      { rewrite HP1. apply elem_of_app. by left. }
      exists e. by apply lookup_union_Some_l.
    + destruct (HP0 p Hp) as [e0 He0].
      destruct (decide (owner e0 = i)) as [Ho|Ho].
      * destruct (proj2 (HP0i p Hp)) as [e He]; [by rewrite He0; simpl; f_equal|].
        exists e. by apply lookup_union_Some_l.
      * exists e0. apply (lookup_union_Some _ _ _ _ Hd). right.
        by apply rest_lookup.
  - intros j cj Hcj. simpl in Hcj.
    destruct (decide (j = i)) as [->|Hne].
    + rewrite list_lookup_insert_eq in Hcj by done. injection Hcj as <-.
      unfold F. rewrite (view_extend i m m1 Hown). fold F.
      assert (handles_of i (heap (extend F m1)) (N ++ P0) ≡ₚ P1) as ->; [|done].
      rewrite HP1. unfold handles_of at 1. rewrite filter_app.
      f_equiv.
      * rewrite filter_all; [done|]. intros n Hn.
        destruct (Hpin n) as [e He]; [rewrite HP1; apply elem_of_app; by left|].
        simpl. rewrite (lookup_union_Some_l _ _ _ _ He). simpl. f_equal.
        by eapply Hmine.
      * unfold handles_of. erewrite filter_ext_in; [done|].
        intros q Hq. rewrite <- (HP0i q Hq). simpl. split.
        -- destruct (heap m1 !! q) as [e|] eqn:He; [by eauto|].
           rewrite (lookup_union_r _ _ _ He).
           destruct (F !! q) as [e|] eqn:HF; [|done]. simpl.
           apply rest_lookup in HF as [_ Ho]. congruence.
        -- intros [e He]. rewrite (lookup_union_Some_l _ _ _ _ He). simpl.
           f_equal. by eapply Hmine.
    + rewrite list_lookup_insert_ne in Hcj by done.
      pose proof (sinv_shard _ _ _ HS j cj Hcj) as HIj.
      assert (part j (heap m1 ∪ F) = part j (heap m)) as Hpart.
      { apply map_eq. intros p. apply option_eq. intros e.
        rewrite !part_lookup, (lookup_union_Some _ _ _ _ Hd). split.
        - intros [[He|[He Ho]%rest_lookup] Ho']; [|done].
          apply Hmine in He. congruence.
        - intros [He Ho]. split; [|done]. right. apply rest_lookup.
          split; [done|congruence]. }
      assert (handles_of j (heap (extend F m1)) (N ++ P0)
              ≡ₚ handles_of j (heap m) P) as ->.
      { rewrite <- (HPj j Hne). unfold handles_of. rewrite filter_app.
        rewrite (filter_none _ N).
        - simpl. erewrite filter_ext_in; [done|]. intros q Hq. simpl.
          destruct (HP0 q Hq) as [e0 He0]. rewrite He0. simpl.
          destruct (decide (owner e0 = i)) as [Ho|Ho].
          + destruct (proj2 (HP0i q Hq)) as [e He];
              [by rewrite He0; simpl; f_equal|].
            rewrite (lookup_union_Some_l _ _ _ _ He). simpl.
            apply Hmine in He. split; intros [= H']; congruence.
          + assert (F !! q = Some e0) as HF by (by apply rest_lookup).
            assert ((heap m1 ∪ F) !! q = Some e0) as ->; [|done].
            apply (lookup_union_Some _ _ _ _ Hd). by right.
        - intros n Hn. simpl.
          destruct (Hpin n) as [e He]; [rewrite HP1; apply elem_of_app; by left|].
          rewrite (lookup_union_Some_l _ _ _ _ He). simpl.
          apply Hmine in He. intros [= H']. congruence. }
      apply (Inv_frame (view j m)); try done.
      * apply (inv_log _ _ _ HI1).
      * intros d Hd'. simpl in Hd'.
        split; [by apply (proj2 (inv_log _ _ _ HI1) d Hd')|].
        simpl. apply eq_None_not_Some. intros [e [He Ho]%part_lookup].
        assert (F !! call_entry d = Some e) as HF
          by (apply rest_lookup; split; [done|congruence]).
        rewrite (proj2 Hown d Hd') in HF. done.
Qed.

(** ** The operations of the sharded cache *)

Lemma SInv_shard_of_hash m sc P hsh :
  SInv m sc P → 0 ≤ hsh < 2 ^ 32 →
  ∃ c, shard_ sc !! Sharded.Shard hsh = Some c ∧
       Inv (view (Sharded.Shard hsh) m) c
         (handles_of (Sharded.Shard hsh) (heap m) P).
Proof.
  intros HS Hh. pose proof (Shard_lt _ Hh) as Hlt.
  rewrite <- (sinv_len _ _ _ HS) in Hlt.
  destruct (lookup_lt_is_Some_2 _ _ Hlt) as [c Hc].
  exists c. split; [done|]. by apply (sinv_shard _ _ _ HS).
Qed.

Lemma view_disjoint i m : heap (view i m) ##ₘ rest i (heap m).
Proof. apply part_rest_disjoint. Qed.

Lemma set_shard_same i c sc :
  shard_ sc !! i = Some c → Sharded.set_shard i c sc = sc.
Proof.
  intros H. destruct sc as [l id]. unfold Sharded.set_shard. simpl in *.
  by rewrite list_insert_id.
Qed.

Lemma length_handles_of i hp P :
  Z.of_nat (length (handles_of i hp P)) ≤ Z.of_nat (length P).
Proof. unfold handles_of. pose proof (length_filter (λ p, owner <$> hp !! p = Some i) P). lia. Qed.

Lemma Sharded_Insert_lift sgn m sc P k v chg del :
  SInv m sc P → (∀ c, c ∈ shard_ sc → elems_ (table_ c) < 2 ^ 31) →
  strlen k < 2 ^ 31 →
  let hsh := Sharded.HashSlice sgn k in
  let i := Sharded.Shard hsh in
  let ent := mkLRUHandle v del chg (wrap64 (Impl.int_of (strlen k))) 2 hsh (cstr k) in
  ∃ c m5 c5 r,
    shard_ sc !! i = Some c ∧
    Sharded.Insert sgn m sc k v chg del
    = Some (extend (rest i (heap m)) m5, Sharded.set_shard i c5 sc, brk m) ∧
    SInv (extend (rest i (heap m)) m5) (Sharded.set_shard i c5 sc) (brk m :: P) ∧
    Inv m5 c5 (brk m :: handles_of i (heap m) P) ∧
    owned i (rest i (heap m)) m5 ∧
    (∀ Q, refs_closed Q → Q (malloc (view i m) ent).1 → Q m5) ∧
    capacity_ c5 = capacity_ c ∧
    heap m !! brk m = None ∧
    heap m5 !! brk m = Some (set_refs r ent) ∧
    ((usage_ c5 ≤ capacity_ c5 ∧ brk m ∈ lru_ c5 ∧ r = 2 ∧
      HT.Lookup (heap m5) (table_ c5) k hsh = Some (Some (brk m))) ∨
     (capacity_ c5 < usage_ c5 ∧ lru_ c5 = [] ∧ r = 1 ∧
      HT.Lookup (heap m5) (table_ c5) k hsh = Some None)).
Proof.
  intros HS Hel Hkey hsh i ent.
  assert (0 ≤ hsh < 2 ^ 32) as Hh by apply Hash_range.
  destruct (SInv_shard_of_hash _ _ _ hsh HS Hh) as (c & Hc & HI).
  fold i in Hc, HI. set (F := rest i (heap m)).
  assert (heap m !! brk m = None) as Hfresh.
  { destruct (heap m !! brk m) as [e|] eqn:He; [|done].
    pose proof (SInv_below _ _ _ HS _ _ He). lia. }
  destruct (Insert_binding _ _ _ k hsh v chg del HI)
    as (m5 & c5 & r & HIns & HI5 & Hcap & Hb5 & _ & _ & _ & Hh5 & HQ & Hcase).
  { apply Hel. by eapply list_elem_of_lookup_2. }
  { exact Hkey. }
  fold ent in Hh5, HQ. cbn [view brk] in HIns, HI5, Hb5, Hh5.
  assert (owned i F m5) as Hown.
  { apply HQ; [apply owned_closed|]. destruct (SInv_owned _ _ _ HS i) as [H1 H2].
    split; [|done]. intros p e. simpl.
    intros [[<- <-]|[_ He]]%lookup_insert_Some; [|by apply H1].
    split; [done|]. split; [done|]. by apply SInv_fresh with sc P. }
  destruct (Impl_Insert_frame F (view i m) _ _ _ _ _ _ _ _ _
              (view_disjoint i m) (SInv_fresh _ _ _ HS i) HIns) as [HIns' _].
  unfold F in HIns'. rewrite extend_view in HIns'.
  exists c, m5, c5, r. split_and!; try done.
  - unfold Sharded.Insert. fold hsh. fold i. rewrite Hc. simpl.
    by rewrite HIns'.
  - apply (SInv_update m sc P i c m5 c5 (brk m :: handles_of i (heap m) P)
             [brk m] P); try done.
    + lia.
    + by intros n ->%list_elem_of_singleton.
    + apply (sinv_held _ _ _ HS).
Qed.

Lemma Sharded_Lookup_lift sgn m sc P k :
  SInv m sc P → Z.of_nat (length P) < 2 ^ 32 - 2 →
  let hsh := Sharded.HashSlice sgn k in
  let i := Sharded.Shard hsh in
  ∃ c r,
    shard_ sc !! i = Some c ∧
    HT.Lookup (heap (view i m)) (table_ c) k hsh = Some r ∧
    match r with
    | None => Sharded.Lookup sgn m sc k = Some (m, sc, None)
    | Some p => ∃ h l1 l2,
        heap m !! p = Some h ∧ owner h = i ∧ lru_ c = l1 ++ p :: l2 ∧
        Sharded.Lookup sgn m sc k
        = Some (store m p (set_refs (refs h + 1) h),
                Sharded.set_shard i (Impl.set_lru (l1 ++ l2 ++ [p]) c) sc,
                Some p) ∧
        SInv (store m p (set_refs (refs h + 1) h))
          (Sharded.set_shard i (Impl.set_lru (l1 ++ l2 ++ [p]) c) sc)
          (p :: P)
    end.
Proof.
  intros HS Hlen hsh i.
  assert (0 ≤ hsh < 2 ^ 32) as Hh by apply Hash_range.
  destruct (SInv_shard_of_hash _ _ _ hsh HS Hh) as (c & Hc & HI).
  fold i in Hc, HI. set (F := rest i (heap m)).
  pose proof (length_handles_of i (heap m) P) as Hle.
  destruct (Lookup_inv _ _ _ k hsh HI ltac:(lia)) as (r & HL & Hres).
  exists c, r. split; [done|]. split; [done|].
  pose proof (view_disjoint i m) as Hd.
  destruct r as [p|].
  - destruct Hres as (h & l1 & l2 & Hp & Hl & _ & HLk & HI').
    apply part_lookup in Hp as [Hp Ho].
    destruct (Impl_Lookup_frame F (view i m) _ _ _ _ _ _ Hd HLk) as [HLk' _].
    unfold F in HLk'. rewrite extend_view in HLk'.
    assert (extend F (store (view i m) p (set_refs (refs h + 1) h))
            = store m p (set_refs (refs h + 1) h)) as Hm.
    { rewrite <- store_extend. unfold F. by rewrite extend_view. }
    fold F in HLk'. rewrite Hm in HLk'.
    exists h, l1, l2. split_and!; try done.
    + unfold Sharded.Lookup. fold hsh. fold i. rewrite Hc. simpl.
      by rewrite HLk'.
    + rewrite <- Hm.
      apply (SInv_update m sc P i c _ _ (p :: handles_of i (heap m) P)
               [] (p :: P)); try done.
      * apply (proj2 (owned_closed i F _ p h (SInv_owned _ _ _ HS i)
                        ltac:(by apply part_lookup))).
      * simpl. rewrite handles_of_own; [done|]. by rewrite Hp; simpl; f_equal.
      * by intros n Hn%elem_of_nil.
      * intros q [->|Hq]%elem_of_cons; [by eauto|].
        by apply (sinv_held _ _ _ HS).
      * intros j Hne. rewrite handles_of_other; [done|].
        rewrite Hp. simpl. congruence.
  - destruct (Impl_Lookup_frame F (view i m) _ _ _ _ _ _ Hd Hres) as [HLk' _].
    unfold F in HLk'. rewrite extend_view in HLk'.
    unfold Sharded.Lookup. fold hsh. fold i. rewrite Hc. simpl.
    rewrite HLk'. simpl. by rewrite set_shard_same.
Qed.

Lemma Sharded_Release_lift m sc P idx p :
  SInv m sc P → P !! idx = Some p →
  ∃ h c m1 c1,
    heap m !! p = Some h ∧ shard_ sc !! owner h = Some c ∧
    Inv (view (owner h) m) c (handles_of (owner h) (heap m) P) ∧
    Impl.Unref (view (owner h) m) c p = Some (m1, c1) ∧
    Sharded.Release m sc p
    = Some (extend (rest (owner h) (heap m)) m1,
            Sharded.set_shard (owner h) c1 sc) ∧
    SInv (extend (rest (owner h) (heap m)) m1)
      (Sharded.set_shard (owner h) c1 sc) (delete idx P) ∧
    owned (owner h) (rest (owner h) (heap m)) m1 ∧
    lru_ c1 = lru_ c ∧ table_ c1 = table_ c ∧ capacity_ c1 = capacity_ c ∧
    ref_dropped p h (p ∈ lru_ c) (p ∈ delete idx P) (view (owner h) m) c m1 c1.
Proof.
  intros HS Hidx.
  destruct (sinv_held _ _ _ HS p) as [h Hp]; [by eapply list_elem_of_lookup_2|].
  destruct (SInv_owner _ _ _ HS p h Hp) as (c & Hc & HI & Hv).
  set (i := owner h) in *. set (F := rest i (heap m)).
  pose proof (held_delete_perm _ _ _ Hidx) as Hperm.
  assert (owner <$> heap m !! p = Some i) as Hop by (by rewrite Hp).
  assert (handles_of i (heap m) P ≡ₚ p :: handles_of i (heap m) (delete idx P))
    as Hperm_i.
  { rewrite <- handles_of_own by done. by apply handles_of_perm. }
  destruct (Unref_inv _ _ _ p _ HI Hperm_i)
    as (h' & m1 & c1 & Hh' & HU & HI1 & Hl & Ht & Hcap & Hb & Hd).
  rewrite Hv in Hh'. injection Hh' as <-.
  destruct (Unref_frame F (view i m) _ _ _ _ (view_disjoint i m) HU) as [HU' _].
  unfold F in HU'. rewrite extend_view in HU'.
  assert (∀ q, q ∈ delete idx P → q ∈ P) as Hsub.
  { intros q Hq. rewrite Hperm. by right. }
  assert (owned i F m1) as Hown.
  { eapply ref_dropped_closed; [apply owned_closed| |exact Hv|exact Hd].
    by apply SInv_owned with sc P. }
  exists h, c, m1, c1. split_and!; try done.
  - unfold Sharded.Release. rewrite Hp. cbn [mbind option_bind].
    fold (owner h). fold i. rewrite Hc. cbn [mbind option_bind].
    unfold Impl.Release. by rewrite HU'.
  - apply (SInv_update m sc P i c m1 c1
             (handles_of i (heap m) (delete idx P)) [] (delete idx P));
      try done.
    + cbn [view brk] in Hb. lia.
    + by intros n Hn%elem_of_nil.
    + intros q Hq. by apply (sinv_held _ _ _ HS), Hsub.
    + intros j Hne. rewrite (handles_of_perm j (heap m) _ _ Hperm).
      rewrite handles_of_other; [done|]. rewrite Hp. simpl.
      intros [= <-]. by apply Hne.
  - destruct Hd as [(H1 & H2 & H3 & H4 & H5)|(H1 & H2 & H3 & H4)].
    + left. split_and!; try done. intros Hin. apply H3.
      apply list_elem_of_filter. by split.
    + right. split_and!; try done. destruct H2 as [?|Hin]; [by left|right].
      by apply list_elem_of_filter in Hin as [_ ?].
Qed.

Lemma Sharded_Erase_lift sgn m sc P k :
  SInv m sc P →
  let hsh := Sharded.HashSlice sgn k in
  let i := Sharded.Shard hsh in
  ∃ c m1 c1,
    shard_ sc !! i = Some c ∧
    Inv (view i m) c (handles_of i (heap m) P) ∧
    Impl.Erase (view i m) c k hsh = Some (m1, c1) ∧
    Sharded.Erase sgn m sc k
    = Some (extend (rest i (heap m)) m1, Sharded.set_shard i c1 sc) ∧
    SInv (extend (rest i (heap m)) m1) (Sharded.set_shard i c1 sc) P ∧
    owned i (rest i (heap m)) m1 ∧ capacity_ c1 = capacity_ c ∧
    (∀ Q, refs_closed Q → Q (view i m) → Q m1).
Proof.
  intros HS hsh i.
  assert (0 ≤ hsh < 2 ^ 32) as Hh by apply Hash_range.
  destruct (SInv_shard_of_hash _ _ _ hsh HS Hh) as (c & Hc & HI).
  fold i in Hc, HI. set (F := rest i (heap m)).
  assert (∃ m1 c1, Impl.Erase (view i m) c k hsh = Some (m1, c1) ∧
            Inv m1 c1 (handles_of i (heap m) P) ∧
            (∀ Q, refs_closed Q → Q (view i m) → Q m1) ∧
            brk m1 = brk m ∧ capacity_ c1 = capacity_ c)
    as (m1 & c1 & HE & HI1 & HQ & Hb & Hcap).
  { destruct (Erase_inv _ _ _ k hsh HI) as (r & HL & Hres).
    destruct r as [p|].
    - destruct Hres as (h & m1 & c1 & l1 & l2 & Hp & HE & HI1 & _ & _ & _ & _ &
                        _ & Hcap & Hb & _ & Hd).
      exists m1, c1. split_and!; try done.
      intros Q HQ Hm. by eapply ref_dropped_closed.
    - exists (view i m), c. split_and!; try done. }
  assert (owned i F m1) as Hown.
  { apply HQ; [apply owned_closed|]. by apply SInv_owned with sc P. }
  destruct (Impl_Erase_frame F (view i m) _ _ _ _ _ (view_disjoint i m) HE)
    as [HE' _].
  unfold F in HE'. rewrite extend_view in HE'.
  exists c, m1, c1. split_and!; try done.
  - unfold Sharded.Erase. fold hsh. fold i. rewrite Hc. simpl. by rewrite HE'.
  - apply (SInv_update m sc P i c m1 c1 (handles_of i (heap m) P) [] P);
      try done.
    + cbn [view brk] in Hb. lia.
    + by intros n Hn%elem_of_nil.
    + apply (sinv_held _ _ _ HS).
Qed.

Lemma SInv_NewId m sc P : SInv m sc P → SInv m (Sharded.NewId sc).1 P.
Proof. intros [H1 H2 H3 H4]. by split. Qed.

Lemma part_empty i : part i ∅ = ∅.
Proof. apply map_filter_empty. Qed.

Lemma SInv_init capacity s :
  sinit capacity = Some s → SInv (smem s) (cache s) (sheld s).
Proof.
  unfold sinit. rewrite New_eq. cbn [mbind option_bind].
  intros Hs%(inj Some). subst s.
  split; cbn [smem cache sheld shard_].
  - by rewrite length_replicate.
  - intros p e Hp. unfold Mem_empty in Hp. cbn [heap] in Hp.
    by rewrite lookup_empty in Hp.
  - intros p Hp. by apply elem_of_nil in Hp.
  - intros i c [-> _]%lookup_replicate. unfold view, Mem_empty.
    cbn [heap brk deleted]. rewrite part_empty. apply Inv_init.
Qed.

Lemma sstep_fits sgn o s s' : sstep sgn o s = Some s' → sop_fits o.
Proof.
  destruct o as [k v chg del|k|idx|k|]; try done.
  cbn [sstep sop_fits]. unfold Sharded.Insert.
  destruct (shard_ (cache s) !! _) as [c|]; [|done]. cbn [mbind option_bind].
  destruct (Impl.Insert (smem s) c k _ v chg del) as [r|] eqn:E; [|done].
  intros _. by eapply Insert_defined.
Qed.

Lemma SInv_step sgn o s :
  SInv (smem s) (cache s) (sheld s) → s_in_range s → sop_fits o →
  ∃ s', sstep sgn o s = Some s' ∧ SInv (smem s') (cache s') (sheld s').
Proof.
  intros HS [Hel Hheld] Hfit. destruct o as [k v chg del|k|idx|k|]; simpl.
  - destruct (Sharded_Insert_lift sgn _ _ _ k v chg del HS Hel Hfit)
      as (c & m5 & c5 & r & _ & -> & HS' & _). simpl. eauto.
  - destruct (Sharded_Lookup_lift sgn _ _ _ k HS Hheld) as (c & r & _ & _ & Hres).
    destruct r as [p|].
    + destruct Hres as (h & l1 & l2 & _ & _ & _ & -> & HS'). simpl. eauto.
    + rewrite Hres. simpl. destruct s. eauto.
  - destruct (sheld s !! idx) as [p|] eqn:Hidx; [|by eauto].
    destruct (Sharded_Release_lift _ _ _ idx p HS Hidx)
      as (h & c & m1 & c1 & _ & _ & _ & _ & -> & HS' & _). simpl. eauto.
  - destruct (Sharded_Erase_lift sgn _ _ _ k HS)
      as (c & m1 & c1 & _ & _ & _ & -> & HS' & _). simpl. eauto.
  - eexists. split; [done|]. simpl. by apply SInv_NewId.
Qed.

Lemma sreachable_SInv sgn capacity s :
  sreachable sgn capacity s → SInv (smem s) (cache s) (sheld s).
Proof.
  induction 1 as [s Hi|s o s' _ IH Hr Hs].
  - by eapply SInv_init.
  - destruct (SInv_step sgn o s IH Hr (sstep_fits _ _ _ _ Hs))
      as (s'' & Hs'' & HS').
    rewrite Hs in Hs''. by injection Hs'' as <-.
Qed.

(** ** The sharded cache: what holds in every reachable state *)

Lemma sfresh_reachable : sreachable true 1000 sfresh.
Proof. apply sreach_init. reflexivity. Defined.

Lemma sfresh_in_range : s_in_range sfresh.
Proof.
  split; [|reflexivity]. intros c Hc.
  apply elem_of_replicate in Hc as [-> _]. reflexivity.
Defined.

Lemma sone_step : sstep true (SInsert [x61] 101 8 7) sfresh = Some sone.
Proof. vm_compute. reflexivity. Defined.

Lemma sone_in_range : s_in_range sone.
Proof.
  split; [|reflexivity]. intros c Hc.
  apply list_elem_of_lookup in Hc as [j Hj].
  assert (j < 16)%nat as Hlt by (by apply lookup_lt_Some in Hj).
  do 16 (destruct j as [|j]; [injection Hj as <-; reflexivity|]).
  exfalso. clear -Hlt. do 16 (apply Nat.succ_lt_mono in Hlt).
  by apply Nat.nlt_0_r in Hlt.
Defined.

Lemma sone_reachable : sreachable true 1000 sone.
Proof.
  exact (sreach_step true 1000 sfresh _ sone sfresh_reachable sfresh_in_range
           sone_step).
Defined.

Lemma sreachable_capacity sgn capacity s c :
  sreachable sgn capacity s → c ∈ shard_ (cache s) →
  capacity_ c = wrap64 (capacity + 15) / 16.
Proof.
  intros Hr. revert c. induction Hr as [s Hi|s o s' Hr IH Hrange Hs]; intros c Hc.
  - unfold sinit in Hi. rewrite New_eq in Hi. cbn [mbind option_bind] in Hi.
    apply (inj Some) in Hi. subst s. cbn [cache shard_] in Hc.
    by apply elem_of_replicate in Hc as [-> _].
  - pose proof (sreachable_SInv _ _ _ Hr) as HS. destruct Hrange as [Hel Hheld].
    assert (∀ i c0 c1, shard_ (cache s) !! i = Some c0 →
              capacity_ c1 = capacity_ c0 →
              c ∈ shard_ (Sharded.set_shard i c1 (cache s)) →
              capacity_ c = wrap64 (capacity + 15) / 16) as Hset.
    { intros i c0 c1 Hc0 Hcap Hin. simpl in Hin.
      apply list_elem_of_lookup in Hin as [j Hj].
      destruct (decide (j = i)) as [->|Hne].
      - rewrite list_lookup_insert_eq in Hj by (by eapply lookup_lt_Some).
        injection Hj as <-. rewrite Hcap. apply IH.
        by eapply list_elem_of_lookup_2.
      - rewrite list_lookup_insert_ne in Hj by done. apply IH.
        by eapply list_elem_of_lookup_2. }
    pose proof (sstep_fits _ _ _ _ Hs) as Hfit.
    destruct o as [k v chg del|k|idx|k|]; cbn [sstep] in Hs.
    + destruct (Sharded_Insert_lift sgn _ _ _ k v chg del HS Hel Hfit)
        as (c0 & m5 & c5 & r & Hc0 & HIns & _ & _ & _ & _ & Hcap & _).
      rewrite HIns in Hs. cbn [mbind option_bind] in Hs.
      apply (inj Some) in Hs. subst s'. by eapply Hset.
    + destruct (Sharded_Lookup_lift sgn _ _ _ k HS Hheld)
        as (c0 & r & Hc0 & _ & Hres).
      destruct r as [p|].
      * destruct Hres as (h & l1 & l2 & _ & _ & _ & HLk & _).
        rewrite HLk in Hs. cbn [mbind option_bind] in Hs.
        apply (inj Some) in Hs. subst s'.
        exact (Hset _ c0 (Impl.set_lru (l1 ++ l2 ++ [p]) c0) Hc0 eq_refl Hc).
      * rewrite Hres in Hs. cbn [mbind option_bind] in Hs.
        apply (inj Some) in Hs. subst s'. by apply IH.
    + destruct (sheld s !! idx) as [p|] eqn:Hidx.
      * destruct (Sharded_Release_lift _ _ _ idx p HS Hidx)
          as (h & c0 & m1 & c1 & _ & Hc0 & _ & _ & HR & _ & _ & _ & _ & Hcap & _).
        rewrite HR in Hs. cbn [mbind option_bind] in Hs.
        apply (inj Some) in Hs. subst s'. by eapply Hset.
      * apply (inj Some) in Hs. subst s'. by apply IH.
    + destruct (Sharded_Erase_lift sgn _ _ _ k HS)
        as (c0 & m1 & c1 & Hc0 & _ & _ & HE & _ & _ & Hcap & _).
      rewrite HE in Hs. cbn [mbind option_bind] in Hs.
      apply (inj Some) in Hs. subst s'. by eapply Hset.
    + apply (inj Some) in Hs. subst s'. by apply IH.
Qed.



(** X22.  Every call of the public interface returns, but for an [Insert]
    of a key of 2^31 bytes or more.  From a state a client can reach, and
    while the 32-bit counters are in range, [Insert] of a key shorter than
    2^31 bytes, [Lookup], [Erase] and [NewId] with any arguments and
    [Release] of any handle the client holds are defined: no assertion
    fails and no freed entry is read.  The state they lead to is again one
    where every shard is consistent with its own entries.  An [Insert] of a
    longer key has no defined result. *)
Theorem X22_public_calls_return (sgn : bool) (capacity : Z) (s : SSys)
    (o : sop) :
  sreachable sgn capacity s → s_in_range s →
  (sop_fits o →
     ∃ s', sstep sgn o s = Some s' ∧ SInv (smem s') (cache s') (sheld s')) ∧
  (¬ sop_fits o → sstep sgn o s = None).
Proof.
  intros Hr Hrange. pose proof (sreachable_SInv _ _ _ Hr) as HS. split.
  - intros Hfit. by apply SInv_step.
  - intros Hno. destruct (sstep sgn o s) as [s'|] eqn:E; [|done].
    destruct Hno. by eapply sstep_fits.
Qed.

Lemma X22_witness :
  sreachable true 1000 sone ∧ s_in_range sone ∧
  sop_fits (SInsert [x62] 102 60 7) ∧
  ∃ s', sstep true (SInsert [x62] 102 60 7) sone = Some s' ∧
        SInv (smem s') (cache s') (sheld s').
Proof.
  assert (sop_fits (SInsert [x62] 102 60 7)) as Hk by reflexivity.
  split; [exact sone_reachable|]. split; [exact sone_in_range|].
  split; [exact Hk|].
  exact (proj1 (X22_public_calls_return true 1000 sone (SInsert [x62] 102 60 7)
                  sone_reachable sone_in_range) Hk).
Defined.

(** ** The sharded cache: the public operations *)

(** X23.  Round trip through the public interface.  After an [Insert] made
    in a reachable state the handle returned refers to the value inserted.
    If the shard of the key is left with its usage within its capacity, a
    [Lookup] of the key returns the same handle, whose value is the one
    inserted; if the usage exceeds the capacity, the entry has been evicted
    by its own [Insert] and the [Lookup] misses and changes nothing. *)
Theorem X23_sharded_Insert_then_Lookup (sgn : bool) (capacity : Z)
    (s s' : SSys) (k : list byte) (v chg del : Z) :
  sreachable sgn capacity s → s_in_range s →
  sstep sgn (SInsert k v chg del) s = Some s' → s_in_range s' →
  ∃ c,
    shard_ (cache s') !! Sharded.Shard (Sharded.HashSlice sgn k) = Some c ∧
    sheld s' = brk (smem s) :: sheld s ∧
    Sharded.Value (smem s') (brk (smem s)) = Some v ∧
    (usage_ c ≤ capacity_ c →
       ∃ m2 sc2,
         Sharded.Lookup sgn (smem s') (cache s') k
         = Some (m2, sc2, Some (brk (smem s))) ∧
         Sharded.Value m2 (brk (smem s)) = Some v) ∧
    (capacity_ c < usage_ c →
       Sharded.Lookup sgn (smem s') (cache s') k
       = Some (smem s', cache s', None)).
Proof.
  intros Hr [Hel Hheld] Hs [_ Hheld'].
  pose proof (sreachable_SInv _ _ _ Hr) as HS.
  pose proof (sstep_fits _ _ _ _ Hs) as Hfit.
  destruct (Sharded_Insert_lift sgn _ _ _ k v chg del HS Hel Hfit)
    as (c & m5 & c5 & r & Hc & HIns & HS' & HI5 & Hown & _ & Hcap & Hfresh &
        Hh5 & Hcase).
  cbn [sstep] in Hs. rewrite HIns in Hs. cbn [mbind option_bind] in Hs.
  apply (inj Some) in Hs. subst s'. cbn [smem cache sheld] in *.
  set (hsh := Sharded.HashSlice sgn k) in *.
  set (i := Sharded.Shard hsh) in *.
  set (e := brk (smem s)) in *.
  assert (shard_ (Sharded.set_shard i c5 (cache s)) !! i = Some c5) as Hc5.
  { cbn [Sharded.set_shard shard_]. apply list_lookup_insert_eq.
    by eapply lookup_lt_Some. }
  pose proof (owned_disjoint _ _ _ Hown) as Hd.
  assert (heap (extend (rest i (heap (smem s))) m5) !! e
          = Some (set_refs r (mkLRUHandle v del chg
                     (wrap64 (Impl.int_of (strlen k))) 2 hsh (cstr k)))) as He
    by (by apply lookup_union_Some_l).
  exists c5. split; [done|]. split; [done|].
  split; [unfold Sharded.Value; by rewrite He|].
  destruct (Sharded_Lookup_lift sgn _ _ _ k HS' Hheld') as (c' & q & Hc' & HL & Hres).
  fold hsh in Hc', HL, Hres. fold i in Hc', HL, Hres.
  rewrite Hc5 in Hc'. injection Hc' as <-.
  rewrite (view_extend i (smem s) m5 Hown) in HL.
  destruct Hcase as [(Hle & _ & _ & HL5)|(Hgt & _ & _ & HL5)];
    rewrite HL5 in HL; injection HL as <-.
  - split; [|lia]. intros _.
    destruct Hres as (h & l1 & l2 & Hh & _ & _ & HLk & _).
    eexists _, _. split; [exact HLk|].
    unfold Sharded.Value. cbn [store heap]. rewrite lookup_insert_eq.
    fold e in Hh. rewrite He in Hh. by injection Hh as <-.
  - split; [lia|]. by intros _.
Qed.

Lemma X23_witness :
  sreachable true 1000 sfresh ∧ s_in_range sfresh ∧
  sstep true (SInsert [x61] 101 8 7) sfresh = Some sone ∧ s_in_range sone ∧
  Sharded.Value (smem sone) 0%nat = Some 101.
Proof.
  split; [exact sfresh_reachable|]. split; [exact sfresh_in_range|].
  split; [exact sone_step|]. split; [exact sone_in_range|].
  destruct (X23_sharded_Insert_then_Lookup true 1000 sfresh sone [x61] 101 8 7
              sfresh_reachable sfresh_in_range sone_step sone_in_range)
    as (c & _ & _ & HV & _).
  exact HV.
Defined.

(** X24.  An operation works on one shard only.  [Insert], [Lookup] and
    [Erase] work on the shard the hash of the key selects, [Release] on the
    shard the hash stored in the entry selects.  Every other shard, with its
    table, recency list, usage and capacity, and every allocated entry that
    belongs to another shard are exactly as before, and so is the id
    counter; [NewId] changes nothing but the id counter. *)
Theorem X24_one_shard_touched (sgn : bool) (capacity : Z) (s s' : SSys)
    (o : sop) :
  sreachable sgn capacity s → s_in_range s → sstep sgn o s = Some s' →
  (∀ j, touched sgn o s ≠ Some j →
     shard_ (cache s') !! j = shard_ (cache s) !! j) ∧
  (∀ p e, touched sgn o s ≠ Some (Sharded.Shard (hash e)) →
     heap (smem s') !! p = Some e ↔ heap (smem s) !! p = Some e) ∧
  (o ≠ SNewId → last_id_ (cache s') = last_id_ (cache s)) ∧
  (o = SNewId →
     smem s' = smem s ∧ shard_ (cache s') = shard_ (cache s) ∧
     sheld s' = sheld s).
Proof.
  intros Hr [Hel Hheld] Hs. pose proof (sreachable_SInv _ _ _ Hr) as HS.
  assert (∀ i m1 c1 P',
            owned i (rest i (heap (smem s))) m1 →
            s' = mkSSys (extend (rest i (heap (smem s))) m1)
                   (Sharded.set_shard i c1 (cache s)) P' →
            (∀ j, Some i ≠ Some j →
               shard_ (cache s') !! j = shard_ (cache s) !! j) ∧
            (∀ p e, Some i ≠ Some (Sharded.Shard (hash e)) →
               heap (smem s') !! p = Some e ↔ heap (smem s) !! p = Some e) ∧
            last_id_ (cache s') = last_id_ (cache s)) as Hframe.
  { intros i m1 c1 P' Hown ->. cbn [smem cache]. split_and!; [| |done].
    - intros j Hne. cbn [Sharded.set_shard shard_].
      apply list_lookup_insert_ne. congruence.
    - intros p e Hne. apply extend_other; [done|].
      unfold owner. congruence. }
  pose proof (sstep_fits _ _ _ _ Hs) as Hfit.
  destruct o as [k v chg del|k|idx|k|]; cbn [sstep touched] in *.
  - destruct (Sharded_Insert_lift sgn _ _ _ k v chg del HS Hel Hfit)
      as (c & m5 & c5 & r & _ & HIns & _ & _ & Hown & _).
    rewrite HIns in Hs. cbn [mbind option_bind] in Hs.
    apply (inj Some) in Hs. symmetry in Hs.
    destruct (Hframe _ _ _ _ Hown Hs) as (H1 & H2 & H3). by split_and!.
  - destruct (Sharded_Lookup_lift sgn _ _ _ k HS Hheld) as (c & r & Hc & _ & Hres).
    destruct r as [p|].
    + destruct Hres as (h & l1 & l2 & Hh & Ho & _ & HLk & _).
      rewrite HLk in Hs. cbn [mbind option_bind] in Hs.
      apply (inj Some) in Hs. subst s'. cbn [smem cache].
      split_and!; try done.
      * intros j Hne. cbn [Sharded.set_shard shard_].
        apply list_lookup_insert_ne. congruence.
      * intros q e Hne. cbn [store heap]. rewrite lookup_insert_Some. split.
        -- intros [[<- <-]|[_ ?]]; [|done]. exfalso. apply Hne.
           unfold owner in Ho. cbn [set_refs hash]. by rewrite Ho.
        -- intros He. right. split; [|done]. intros <-.
           rewrite Hh in He. injection He as <-. apply Hne.
           unfold owner in Ho. by rewrite Ho.
    + rewrite Hres in Hs. cbn [mbind option_bind] in Hs.
      apply (inj Some) in Hs. subst s'. by destruct s.
  - destruct (sheld s !! idx) as [p|] eqn:Hidx; cbn [mbind option_bind].
    + destruct (Sharded_Release_lift _ _ _ idx p HS Hidx)
        as (h & c & m1 & c1 & Hh & _ & _ & _ & HR & _ & Hown & _).
      rewrite HR in Hs. cbn [mbind option_bind] in Hs.
      apply (inj Some) in Hs. symmetry in Hs. rewrite Hh. cbn [mbind option_bind].
      destruct (Hframe _ _ _ _ Hown Hs) as (H1 & H2 & H3). by split_and!.
    + apply (inj Some) in Hs. subst s'. by split_and!.
  - destruct (Sharded_Erase_lift sgn _ _ _ k HS)
      as (c & m1 & c1 & _ & _ & _ & HE & _ & Hown & _).
    rewrite HE in Hs. cbn [mbind option_bind] in Hs.
    apply (inj Some) in Hs. symmetry in Hs.
    destruct (Hframe _ _ _ _ Hown Hs) as (H1 & H2 & H3). by split_and!.
  - apply (inj Some) in Hs. subst s'. by split_and!.
Qed.

Lemma X24_witness :
  sreachable true 1000 sfresh ∧ s_in_range sfresh ∧
  sstep true (SInsert [x61] 101 8 7) sfresh = Some sone ∧
  shard_ (cache sone) !! 3%nat = shard_ (cache sfresh) !! 3%nat.
Proof.
  split; [exact sfresh_reachable|]. split; [exact sfresh_in_range|].
  split; [exact sone_step|].
  destruct (X24_one_shard_touched true 1000 sfresh sone _
              sfresh_reachable sfresh_in_range sone_step) as (H & _).
  apply H. vm_compute. discriminate.
Defined.

Lemma fields_closed (hp0 : gmap ptr LRUHandle) :
  refs_closed (λ m', ∀ p e e', heap m' !! p = Some e' → hp0 !! p = Some e →
    (value e', key_data e', deleter e', charge e', hash e')
    = (value e, key_data e, deleter e, charge e, hash e)).
Proof.
  intros m p h Hm Hp. split.
  - intros q e e'. simpl. intros [_ Hq]%lookup_delete_Some. by apply Hm.
  - intros r q e e'. simpl.
    intros [[<- <-]|[_ Hq]]%lookup_insert_Some; [|by apply Hm].
    intros He. by apply (Hm p e h).
Qed.


Lemma stwo_step : sstep true (SInsert [x62] 102 60 7) sone = Some stwo.
Proof. vm_compute. reflexivity. Defined.


(** An address that [malloc] has returned and that is no longer allocated
    has had its deleter called. *)
Lemma done_closed (F : gmap ptr LRUHandle) :
  refs_closed (λ m', ∀ p, (p < brk m')%nat → heap m' !! p = None →
    F !! p = None → p ∈ call_entry <$> deleted m').
Proof.
  intros m p h Hm Hp. split.
  - intros q Hq. simpl. intros Hn HF. rewrite fmap_app, elem_of_app.
    destruct (decide (q = p)) as [->|Hne].
    + right. simpl. left.
    + left. apply Hm; try done. by rewrite lookup_delete_ne in Hn.
  - intros r q Hq. simpl. intros Hn HF.
    apply lookup_insert_None in Hn as [Hn _]. by apply Hm.
Qed.

Lemma sreachable_done sgn capacity s p :
  sreachable sgn capacity s → (p < brk (smem s))%nat →
  heap (smem s) !! p = None → p ∈ call_entry <$> deleted (smem s).
Proof.
  intros Hr. revert p.
  induction Hr as [s Hi|s o s' Hr IH [Hel Hheld] Hs]; intros p Hp Hn.
  { unfold sinit in Hi. rewrite New_eq in Hi. cbn [mbind option_bind] in Hi.
    apply (inj Some) in Hi. subst s. simpl in Hp. lia. }
  pose proof (sreachable_SInv _ _ _ Hr) as HS.
  assert (∀ i q, (q < brk (smem s))%nat →
            heap (view i (smem s)) !! q = None →
            rest i (heap (smem s)) !! q = None →
            q ∈ call_entry <$> deleted (smem s)) as Hview.
  { intros i q Hq H1 H2. apply IH; [done|].
    rewrite <- (part_rest_lookup i). by apply lookup_union_None. }
  assert (∀ i m1,
            (∀ q, (q < brk m1)%nat → heap m1 !! q = None →
                  rest i (heap (smem s)) !! q = None →
                  q ∈ call_entry <$> deleted m1) →
            ∀ q, (q < brk (extend (rest i (heap (smem s))) m1))%nat →
                 heap (extend (rest i (heap (smem s))) m1) !! q = None →
                 q ∈ call_entry <$> deleted (extend (rest i (heap (smem s))) m1))
    as Hext.
  { intros i m1 HQ q Hq [H1 H2]%lookup_union_None. by apply HQ. }
  pose proof (sstep_fits _ _ _ _ Hs) as Hfit.
  destruct o as [k v chg del|k|idx|k|]; cbn [sstep] in Hs.
  - destruct (Sharded_Insert_lift sgn _ _ _ k v chg del HS Hel Hfit)
      as (c & m5 & c5 & r & _ & HIns & _ & _ & _ & HQ & _).
    rewrite HIns in Hs. cbn [mbind option_bind] in Hs.
    apply (inj Some) in Hs. subst s'. cbn [smem] in *.
    apply (Hext _ m5); try done.
    apply (HQ _ (done_closed _)). intros q. cbn [malloc fst heap view brk deleted].
    intros Hq [Hne H1]%lookup_insert_None H2.
    apply (Hview (Sharded.Shard (Sharded.HashSlice sgn k))); try done. lia.
  - destruct (Sharded_Lookup_lift sgn _ _ _ k HS Hheld) as (c & r & _ & _ & Hres).
    destruct r as [q|].
    + destruct Hres as (h & l1 & l2 & Hh & _ & _ & HLk & _).
      rewrite HLk in Hs. cbn [mbind option_bind] in Hs.
      apply (inj Some) in Hs. subst s'. cbn [smem store heap brk deleted] in *.
      apply lookup_insert_None in Hn as [Hn _]. by apply IH.
    + rewrite Hres in Hs. cbn [mbind option_bind] in Hs.
      apply (inj Some) in Hs. subst s'. by apply IH.
  - destruct (sheld s !! idx) as [q|] eqn:Hidx.
    + destruct (Sharded_Release_lift _ _ _ idx q HS Hidx)
        as (h & c & m1 & c1 & Hh & _ & _ & _ & HR & _ & _ & _ & _ & _ & Hd).
      rewrite HR in Hs. cbn [mbind option_bind] in Hs.
      apply (inj Some) in Hs. subst s'. cbn [smem] in *.
      apply (Hext _ m1); try done.
      apply (ref_dropped_closed _ q h _ _ (view (owner h) (smem s)) c m1 c1
               (done_closed (rest (owner h) (heap (smem s))))
               (Hview (owner h)) ltac:(by apply part_lookup) Hd).
    + apply (inj Some) in Hs. subst s'. by apply IH.
  - destruct (Sharded_Erase_lift sgn _ _ _ k HS)
      as (c & m1 & c1 & _ & _ & _ & HE & _ & _ & _ & HQ).
    rewrite HE in Hs. cbn [mbind option_bind] in Hs.
    apply (inj Some) in Hs. subst s'. cbn [smem] in *.
    apply (Hext _ m1); try done.
    apply (HQ _ (done_closed _)). apply Hview.
  - apply (inj Some) in Hs. subst s'. by apply IH.
Qed.

(** ** The sharded cache: Delete *)

Lemma calls_for_app hp l1 l2 :
  calls_for hp (l1 ++ l2) = calls_for hp l1 ++ calls_for hp l2.
Proof.
  induction l1 as [|p l1 IH]; [done|]. simpl.
  destruct (hp !! p); [simpl|]; by rewrite IH.
Qed.

Lemma calls_for_entries hp l :
  (∀ p, p ∈ l → is_Some (hp !! p)) → call_entry <$> calls_for hp l = l.
Proof.
  induction l as [|p l IH]; intros Hl; [done|]. simpl.
  destruct (Hl p) as [e ->]; [left|]. simpl. f_equal.
  apply IH. intros q Hq. apply Hl. by right.
Qed.

Lemma SInv_log_ok m sc P : SInv m sc P → log_ok m.
Proof.
  intros HS.
  assert (0 < length (shard_ sc))%nat as H0
    by (rewrite (sinv_len _ _ _ HS); vm_compute; lia).
  destruct (lookup_lt_is_Some_2 _ _ H0) as [c Hc].
  pose proof (sinv_shard _ _ _ HS _ _ Hc) as HI.
  split; [apply (inv_log _ _ _ HI)|].
  intros d Hd. split; [by apply (proj2 (inv_log _ _ _ HI) d Hd)|].
  by eapply SInv_log.
Qed.

(** Destroying the shards [L], each given with its index, one after the
    other: every shard is consistent with its own entries, and no handle
    refers to an entry on a recency list. *)
Lemma destroy_shards_ok L : ∀ m,
  NoDup L.*1 → log_ok m →
  (∀ j c, (j, c) ∈ L →
     ∃ Pj, Inv (view j m) c Pj ∧ ∀ p, p ∈ Pj → p ∉ lru_ c) →
  ∃ m', destroy_shards L.*2 m = Some m' ∧ log_ok m' ∧ brk m' = brk m ∧
    (∀ q, heap m' !! q
          = if decide (q ∈ cached L.*2) then None else heap m !! q) ∧
    deleted m' = deleted m ++ calls_for (heap m) (cached L.*2) ∧
    call_entry <$> calls_for (heap m) (cached L.*2) = cached L.*2.
Proof.
  induction L as [|[j c] L IH]; intros m Hnd Hlog HL.
  { exists m. split_and!; [done|done|done| | |done].
    - intros q. by rewrite decide_False by apply not_elem_of_nil.
    - simpl. by rewrite app_nil_r. }
  rewrite fmap_cons in Hnd. apply NoDup_cons in Hnd as [Hj Hnd].
  destruct (HL j c) as (Pj & HI & Hdisj); [left|].
  pose proof (Inv_NoDup_lru _ _ _ HI) as Hndl.
  assert (∀ p, p ∈ lru_ c →
            ∃ h, heap m !! p = Some h ∧ refs h = 1 ∧ owner h = j ∧
                 (p < brk m)%nat) as Hone.
  { intros p Hp. destruct (Inv_lru_heap _ _ _ p HI Hp) as [h Hh].
    destruct (inv_heap _ _ _ HI p h Hh) as (Hb & _ & _ & Hrefs).
    apply part_lookup in Hh as [Hh Ho]. exists h. split_and!; try done.
    rewrite Hrefs, (proj2 (in_cache_1 _ _) Hp).
    assert (pins p Pj = 0); [|lia]. apply pins_zero. intros Hin.
    by apply (Hdisj p). }
  destruct (destructor_loop_ok (lru_ c) m c Hndl) as (m1 & Hd1 & Hb1 & Hh1 & Hl1).
  { intros p Hp. destruct (Hone p Hp) as (h & ? & ? & _). eauto. }
  assert (call_entry <$> calls_for (heap m) (lru_ c) = lru_ c) as Hent1.
  { apply calls_for_entries. intros p Hp.
    destruct (Hone p Hp) as (h & ? & _). eauto. }
  assert (log_ok m1) as Hlog1.
  { destruct Hlog as [Hn Hd]. split.
    - rewrite Hl1, fmap_app, Hent1. apply NoDup_app. split; [done|].
      split; [|done]. intros p (d & -> & Hdin)%list_elem_of_fmap Hp.
      destruct (Hone _ Hp) as (h & Hh & _).
      destruct (Hd d Hdin) as [_ Hnone]. congruence.
    - intros d. rewrite Hl1, Hb1, Hh1.
      intros [Hdin|Hdin]%elem_of_app.
      + destruct (Hd d Hdin) as [? ?]. split; [done|]. by destruct (decide _).
      + assert (call_entry d ∈ lru_ c) as Hin.
        { rewrite <- Hent1. apply list_elem_of_fmap. eauto. }
        destruct (Hone _ Hin) as (h & _ & _ & _ & ?).
        split; [done|]. by rewrite decide_True. }
  assert (∀ j' c', (j', c') ∈ L → ∀ q, q ∈ lru_ c' → q ∉ lru_ c) as Hsep.
  { intros j' c' Hin q Hq Hq'.
    destruct (HL j' c') as (Pj' & HI' & _); [by right|].
    destruct (Inv_lru_heap _ _ _ q HI' Hq) as [h' [Hh' Ho']%part_lookup].
    destruct (Hone q Hq') as (h & Hh & _ & Ho & _).
    rewrite Hh in Hh'. injection Hh' as <-. apply Hj.
    apply list_elem_of_fmap. exists (j', c'). split; [|done]. simpl. congruence. }
  destruct (IH m1 Hnd Hlog1) as (m' & Hd' & Hlog' & Hb' & Hh' & Hl' & Hent').
  { intros j' c' Hin. destruct (HL j' c') as (Pj' & HI' & Hdisj'); [by right|].
    exists Pj'. split; [|done].
    assert (j' ≠ j) as Hne.
    { intros ->. apply Hj. apply list_elem_of_fmap. by exists (j, c'). }
    apply (Inv_frame (view j' m)); try done.
    - simpl. apply map_eq. intros q. apply option_eq. intros e.
      rewrite !part_lookup, Hh1. destruct (decide (q ∈ lru_ c)) as [Hq|Hq]; [|done].
      split; [by intros [? _]|]. intros [He Ho].
      destruct (Hone q Hq) as (h & Hh & _ & Ho' & _). congruence.
    - simpl. lia.
    - apply Hlog1.
    - intros d Hdin. simpl in Hdin. split; [by apply (proj2 Hlog1 d Hdin)|].
      simpl. apply eq_None_not_Some. intros [e [He Ho]%part_lookup].
      rewrite Hl1 in Hdin. apply elem_of_app in Hdin as [Hdin|Hdin].
      + destruct (proj2 Hlog d Hdin) as [_ ?]. congruence.
      + assert (call_entry d ∈ lru_ c) as Hin'.
        { rewrite <- Hent1. apply list_elem_of_fmap. eauto. }
        destruct (Hone _ Hin') as (h & Hh & _ & Ho' & _). congruence. }
  assert (∀ q, q ∈ cached L.*2 → q ∉ lru_ c) as Hsep'.
  { intros q Hq. unfold cached in Hq.
    apply list_elem_of_join in Hq as (l & Hq & Hl).
    apply list_elem_of_fmap in Hl as (c' & -> & Hc').
    apply list_elem_of_fmap in Hc' as ([j' c''] & Heq & Hin). simpl in Heq.
    subst c''. by eapply Hsep. }
  assert (calls_for (heap m1) (cached L.*2) = calls_for (heap m) (cached L.*2))
    as Hcalls.
  { apply calls_for_ext. intros q Hq. rewrite Hh1.
    by rewrite decide_False by (by apply Hsep'). }
  exists m'. rewrite !fmap_cons. cbn [snd]. unfold cached. rewrite fmap_cons.
  cbn [mjoin list_join]. fold (cached L.*2). split_and!.
  - cbn [destroy_shards]. unfold LRUCacheImpl_destructor. rewrite Hd1.
    cbn [mbind option_bind]. exact Hd'.
  - done.
  - congruence.
  - intros q. rewrite Hh', Hh1.
    destruct (decide (q ∈ cached L.*2)) as [Hq|Hq].
    + rewrite decide_True; [done|]. apply elem_of_app. by right.
    + destruct (decide (q ∈ lru_ c)) as [Hq'|Hq'].
      * rewrite decide_True; [done|]. apply elem_of_app. by left.
      * rewrite decide_False; [done|]. by intros [?|?]%elem_of_app.
  - rewrite Hl', Hl1, Hcalls, calls_for_app. by rewrite (assoc_L (++)).
  - rewrite calls_for_app, fmap_app, Hent1. f_equal.
    transitivity (call_entry <$> calls_for (heap m1) (cached L.*2));
      [by rewrite Hcalls|exact Hent'].
Qed.


Lemma sreleased_reachable : sreachable true 1000 sreleased.
Proof.
  assert (sstep true (SRelease 0) sone = Some sreleased) as Hs
    by (vm_compute; reflexivity).
  exact (sreach_step true 1000 sone _ sreleased sone_reachable sone_in_range Hs).
Defined.

